(** * pull/github.go: retrieval of a pull request's files, commits, comments
      and reviews from GitHub

    A shallow embedding of [pull/github.go] (package [pull] of policy-bot)
    and the properties of its retrieval logic: size ceilings, the bounded
    retry of the commit loader, the two pushed-date backfills, the joint
    pagination of comments and reviews, actor normalisation and the caches.

    Conventions of the embedding.
    - A Go [string] is a [string]; a Go [int] is a [Z]; a [*time.Time] is an
      [option Z] (nil is [None]); a [time.Duration] is a [Z] of nanoseconds,
      wrapped to 64 bits where the code computes one.
    - A slice held in a cache field is an [option (list _)]: [None] is the
      nil slice, which is what the accessors test ([ghc.files == nil]).
    - A [[]*Commit] is a [list Commit] read as a heap: a [*Commit] is a
      position in that list, the index [map[string]*Commit] is a
      [gmap string nat], and an assignment through a pointer is a list
      update at that position.
    - The platform is a deterministic function of the interactions so far
      (the trace) and of the query's variables; every query and every sleep
      is appended to the trace.
    - The unbounded [for] loops take a fuel argument; running out of fuel is
      [None], distinct from every result the code can return. *)

From stdpp Require Import base option list strings gmap fin_maps.
From Stdlib Require Import ZArith Lia Ascii String DecimalString DecimalNat.

Local Open Scope string_scope.
Local Open Scope Z_scope.
Local Open Scope list_scope.

(** ** Constants *)

(** [MaxPullRequestFiles] is the max number of files returned by GitHub. *)
Definition MaxPullRequestFiles : nat := 300.

(** [MaxPullRequestCommits] is the max number of commits returned by GitHub. *)
Definition MaxPullRequestCommits : nat := 250.

(** [time.Millisecond] and [time.Second], in nanoseconds. *)
Definition Millisecond : Z := 1000000.
Definition Second : Z := 1000 * Millisecond.

(** 5 attempts, exponential 1000ms delay = 15s max wait. *)
Definition commitLoadMaxAttempts : Z := 5.
Definition commitLoadBaseDelay : Z := 1000 * Millisecond.

(** A 64-bit signed integer computed in [Z]: the value wrapped around. *)
Definition int64 (z : Z) : Z := (z + 2 ^ 63) mod 2 ^ 64 - 2 ^ 63.

(** ** Errors *)

(** The errors the file builds: [errors.Wrap] of a client error with the
    operation's message, and one constructor per [errors.Errorf]. The
    client's own error is kept as its text. *)
Inductive error : Type :=
| Wrap (cause : string) (message : string)
| TooManyFiles            (* too many files in pull request, maximum is 300 *)
| TooManyCommits          (* too many commits in pull request, maximum is 250 *)
| HeadCommitMissing (headSHA : string)
                          (* head commit %.10s is missing, probably due to a force-push *)
| PushedDateMissing (headSHA : string)
                          (* head commit %.10s is missing pushed date; this is probably a bug *)
| CommitsNotFound (n : nat)
                          (* %d commits were not found while loading pushed dates *).

Inductive result (A : Type) : Type :=
| Ok (a : A)
| Err (e : error).
Arguments Ok {A} a.
Arguments Err {A} e.

(** ** Records of the GraphQL (v4) responses *)

Record v4Actor : Type := mkActor {
  actorType : string;   (* Type, graphql:"__typename" *)
  actorLogin : string
}.

Record v4GitActor : Type := mkGitActor {
  gitUser : option v4Actor
}.

Record v4PageInfo : Type := mkPageInfo {
  EndCursor : option string;
  HasNextPage : bool
}.

Record v4PullRequestReview : Type := mkV4Review {
  v4rAuthor : v4Actor;
  v4rState : string;
  v4rBody : string;
  v4rSubmittedAt : Z
}.

Record v4IssueComment : Type := mkV4Comment {
  v4cAuthor : v4Actor;
  v4cBody : string;
  v4cCreatedAt : Z
}.

Record v4Commit : Type := mkV4Commit {
  OID : string;
  v4Author : v4GitActor;
  v4Committer : v4GitActor;
  v4CommittedViaWeb : bool;
  PushedDate : option Z;
  ParentOIDs : list string   (* Parents.Nodes[i].OID *)
}.

Record v4PullRequestCommit : Type := mkV4PRCommit {
  prCommit : v4Commit
}.

(** A node of the fork's [history] query in [loadPushedAt]. *)
Record historyNode : Type := mkHistoryNode {
  hOID : string;
  hPushedDate : option Z
}.

Record v4PullRequest : Type := mkV4PullRequest {
  prAuthor : v4Actor;
  IsCrossRepository : bool;
  HeadRefOID : string;
  HeadRefName : string;
  HeadRepositoryName : string;
  HeadRepositoryOwner : v4Actor;
  BaseRefName : string
}.

(** [github.CommitFile] of the REST (v3) client, through its getters: an
    absent field reads as the zero value. *)
Record CommitFile : Type := mkCommitFile {
  cfFilename : string;
  cfStatus : string;
  cfAdditions : Z;
  cfDeletions : Z
}.

(** ** Domain entities

    [File], [FileStatus], [Commit], [Comment], [Review] and [ReviewState]
    are declared in another file of the package; their fields are the ones
    that the struct literals of [github.go] fill and that section 3 of the
    specification lists. *)

(** Modelled from the spec: the declaration of [FileStatus] is missing; the
    statuses are added, deleted, modified and unknown, the zero value. *)
Inductive FileStatus : Type :=
| FileUnknown   (* the zero value *)
| FileAdded
| FileDeleted
| FileModified.

(** Modelled from the spec: the declaration of [File] is missing; filename,
    status, additions and deletions. *)
Record File : Type := mkFile {
  Filename : string;
  Status : FileStatus;
  Additions : Z;
  Deletions : Z
}.

(** Modelled from the spec: the declaration of [Commit] is missing; SHA,
    parent SHAs in order (the first is the first parent), committed through
    the web interface or not, author and committer logins, and the pushed
    timestamp, which may be unset. *)
Record Commit : Type := mkCommit {
  SHA : string;
  Parents : list string;
  CommittedViaWeb : bool;
  Author : string;
  Committer : string;
  PushedAt : option Z
}.

(** Modelled from the spec: the declaration of [Comment] is missing;
    creation time, author login and body. *)
Record Comment : Type := mkComment {
  cCreatedAt : Z;
  cAuthor : string;
  cBody : string
}.

(** Modelled from the spec: the declaration of [Review] is missing;
    creation time, author login, state (lower-cased) and body. *)
Record Review : Type := mkReview {
  rCreatedAt : Z;
  rAuthor : string;
  rState : string;   (* ReviewState, a string type *)
  rBody : string
}.

(** ** Actor normalisation and record mapping *)

(** [GetV3Login] returns a V3-compatible login string: with the "[bot]"
    suffix for GitHub identities of type Bot. *)
Definition GetV3Login (a : v4Actor) : string :=
  if bool_decide (actorType a = "Bot") then actorLogin a +:+ "[bot]" else actorLogin a.

Definition GitActor_GetV3Login (ga : v4GitActor) : string :=
  match gitUser ga with
  | Some u => GetV3Login u
  | None => ""
  end.

(** [strings.ToLower] on strings of ASCII bytes: the letters A to Z are
    lower-cased and every other byte is kept. A review state is an
    enumeration name of the platform (the query asks for APPROVED and
    CHANGES_REQUESTED) and is made of ASCII letters and underscores; on
    letters outside ASCII, which [strings.ToLower] lower-cases too, this
    function is not that of the source. *)
Definition lowerAscii (c : ascii) : ascii :=
  let n := nat_of_ascii c in
  if ((65 <=? n)%nat && (n <=? 90)%nat)%bool then ascii_of_nat (n + 32) else c.

Fixpoint ToLower (s : string) : string :=
  match s with
  | EmptyString => EmptyString
  | String c s' => String (lowerAscii c) (ToLower s')
  end.

Definition ToReview (r : v4PullRequestReview) : Review :=
  {| rCreatedAt := v4rSubmittedAt r;
     rAuthor := GetV3Login (v4rAuthor r);
     rState := ToLower (v4rState r);
     rBody := v4rBody r |}.

Definition ToComment (c : v4IssueComment) : Comment :=
  {| cCreatedAt := v4cCreatedAt c;
     cAuthor := GetV3Login (v4cAuthor c);
     cBody := v4cBody c |}.

Definition ToCommit (c : v4Commit) : Commit :=
  {| SHA := OID c;
     Parents := ParentOIDs c;
     CommittedViaWeb := v4CommittedViaWeb c;
     Author := GitActor_GetV3Login (v4Author c);
     Committer := GitActor_GetV3Login (v4Committer c);
     PushedAt := PushedDate c |}.

(** The status switch of [ChangedFiles]: an unlisted status leaves the zero
    value. *)
Definition toFileStatus (status : string) : FileStatus :=
  if bool_decide (status = "added") then FileAdded
  else if bool_decide (status = "deleted") then FileDeleted
  else if bool_decide (status = "modified") then FileModified
  else FileUnknown.

Definition toFile (f : CommitFile) : File :=
  {| Filename := cfFilename f;
     Status := toFileStatus (cfStatus f);
     Additions := cfAdditions f;
     Deletions := cfDeletions f |}.

(** ** Page cursors *)

(** [UpdateCursor] modifies the named cursor value in the query variables
    and returns true if there are additional pages. The variable is passed
    in and its new value returned. If this was the last page, the cursor is
    still set, so that the next response is empty. *)
Definition UpdateCursor (pi : v4PageInfo) (cursor : option string) : option string * bool :=
  match HasNextPage pi, EndCursor pi with
  | true, Some c => (Some c, true)
  | _, Some c => (Some c, false)
  | _, None => (cursor, false)
  end.

(** ** The platform and the context *)

(** What the component does to the outside: the queries it issues, with the
    variables that change between round-trips, and the blocking sleeps. *)
Inductive event : Type :=
| EvListFiles (page : Z)
| EvQueryPagedData (commentCursor reviewCursor : option string)
| EvQueryCommits (cursor : option string)
| EvQueryHistory (cursor : option string)
| EvSleep (d : Z).

(** The REST client: [PullRequests.ListFiles] answers a page of files and
    [res.NextPage] (0 on the last page), or an error. *)
Record Client : Type := mkClient {
  ListFiles : list event -> Z -> string + (list CommitFile * Z)
}.

(** The GraphQL client: one function per query shape of the file. Each is
    given the trace so far, and the cursor variables of the query; owner,
    name, number and oid are fixed for the context. *)
Record V4Client : Type := mkV4Client {
  QueryPagedData :
    list event -> option string -> option string ->
    string + ((v4PageInfo * list v4IssueComment) * (v4PageInfo * list v4PullRequestReview));
  QueryCommits :
    list event -> option string -> string + (v4PageInfo * list v4PullRequestCommit);
  QueryHistory :
    list event -> option string -> string + (v4PageInfo * list historyNode)
}.

(** [GitHubContext], with the trace of its interactions beside the fields of
    the struct. The membership context and the team caches play no part in
    the accessors below and are left out. *)
Record GitHubContext : Type := mkGitHubContext {
  client : Client;
  v4client : V4Client;
  owner : string;
  repo : string;
  number : Z;
  pr : v4PullRequest;
  (* cached fields *)
  files : option (list File);
  commits : option (list Commit);
  comments : option (list Comment);
  reviews : option (list Review);
  (* interactions so far, oldest first *)
  trace : list event
}.

Definition logged (ev : event) (ghc : GitHubContext) : GitHubContext :=
  {| client := client ghc; v4client := v4client ghc; owner := owner ghc;
     repo := repo ghc; number := number ghc; pr := pr ghc;
     files := files ghc; commits := commits ghc; comments := comments ghc;
     reviews := reviews ghc; trace := trace ghc ++ [ev] |}.

Definition withFiles (fs : option (list File)) (ghc : GitHubContext) : GitHubContext :=
  {| client := client ghc; v4client := v4client ghc; owner := owner ghc;
     repo := repo ghc; number := number ghc; pr := pr ghc;
     files := fs; commits := commits ghc; comments := comments ghc;
     reviews := reviews ghc; trace := trace ghc |}.

Definition withCommits (cs : option (list Commit)) (ghc : GitHubContext) : GitHubContext :=
  {| client := client ghc; v4client := v4client ghc; owner := owner ghc;
     repo := repo ghc; number := number ghc; pr := pr ghc;
     files := files ghc; commits := cs; comments := comments ghc;
     reviews := reviews ghc; trace := trace ghc |}.

Definition withPagedData (cs : list Comment) (rs : list Review) (ghc : GitHubContext)
  : GitHubContext :=
  {| client := client ghc; v4client := v4client ghc; owner := owner ghc;
     repo := repo ghc; number := number ghc; pr := pr ghc;
     files := files ghc; commits := commits ghc; comments := Some cs;
     reviews := Some rs; trace := trace ghc |}.

(** ** The monad of the accessors

    A method of [*GitHubContext] reads and writes the context and returns a
    value or an error; [None] is a loop that ran out of fuel. *)
Definition M (A : Type) : Type := GitHubContext -> option (result A * GitHubContext).

Global Instance M_ret : MRet M := fun A (a : A) ghc => Some (Ok a, ghc).

Global Instance M_bind : MBind M := fun A B (f : A -> M B) (m : M A) ghc =>
  match m ghc with
  | Some (Ok a, ghc') => f a ghc'
  | Some (Err e, ghc') => Some (Err e, ghc')
  | None => None
  end.

Definition throw {A : Type} (e : error) : M A := fun ghc => Some (Err e, ghc).
Definition outOfFuel {A : Type} : M A := fun _ => None.
Definition get : M GitHubContext := fun ghc => Some (Ok ghc, ghc).
Definition modify (f : GitHubContext -> GitHubContext) : M unit :=
  fun ghc => Some (Ok tt, f ghc).

(** A query: answered from the trace before it, then logged; a client error
    is wrapped with the operation's message. *)
Definition query {A : Type} (ev : event) (message : string)
    (ask : GitHubContext -> string + A) : M A := fun ghc =>
  match ask ghc with
  | inl cause => Some (Err (Wrap cause message), logged ev ghc)
  | inr a => Some (Ok a, logged ev ghc)
  end.

(** [time.Sleep]. *)
Definition Sleep (d : Z) : M unit := modify (logged (EvSleep d)).

(** ** ChangedFiles *)

(** The pagination loop of [ChangedFiles]: [opt.Page] starts at 0 and
    follows [res.NextPage] until it is 0. *)
Fixpoint listAllFiles (fuel : nat) (page : Z) (allFiles : list CommitFile)
  : M (list CommitFile) :=
  match fuel with
  | O => outOfFuel
  | S fuel' =>
      '(files, nextPage) ← query (EvListFiles page) "failed to list pull request files"
                             (fun ghc => ListFiles (client ghc) (trace ghc) page);
      let allFiles := allFiles ++ files in
      if nextPage =? 0 then mret allFiles
      else listAllFiles fuel' nextPage allFiles
  end.

(** [ghc.files = append(ghc.files, ...)] once per element: appending nothing
    to a nil slice leaves it nil. *)
Definition appendAll {A : Type} (slice : option (list A)) (xs : list A) : option (list A) :=
  match xs with
  | [] => slice
  | _ :: _ => Some (default [] slice ++ xs)
  end.

(** The elements of a slice: none for nil. *)
Definition elems {A : Type} (slice : option (list A)) : list A := default [] slice.

Definition ChangedFiles (fuel : nat) : M (list File) :=
  ghc ← get;
  _ ← match files ghc with
      | None =>
          allFiles ← listAllFiles fuel 0 [];
          modify (fun ghc => withFiles (appendAll (files ghc) (map toFile allFiles)) ghc)
      | Some _ => mret tt
      end;
  ghc ← get;
  if (MaxPullRequestFiles <=? List.length (elems (files ghc)))%nat
  then throw TooManyFiles
  else mret (elems (files ghc)).

(** ** Comments and reviews *)

(** The loop of [loadPagedData], from the two cursor variables and the lists
    gathered so far. *)
Fixpoint loadPagedDataLoop (fuel : nat) (commentCursor reviewCursor : option string)
    (comments : list Comment) (reviews : list Review) : M (list Comment * list Review) :=
  match fuel with
  | O => outOfFuel
  | S fuel' =>
      '((cInfo, cNodes), (rInfo, rNodes)) ←
        query (EvQueryPagedData commentCursor reviewCursor) "failed to load pull request data"
          (fun ghc => QueryPagedData (v4client ghc) (trace ghc) commentCursor reviewCursor);
      let comments := comments ++ map ToComment cNodes in
      let '(commentCursor, moreComments) := UpdateCursor cInfo commentCursor in
      let complete := if negb moreComments then 1 else 0 in
      let reviews := reviews ++ map ToReview rNodes in
      let '(reviewCursor, moreReviews) := UpdateCursor rInfo reviewCursor in
      let complete := if negb moreReviews then complete + 1 else complete in
      if complete =? 2 then mret (comments, reviews)
      else loadPagedDataLoop fuel' commentCursor reviewCursor comments reviews
  end.

Definition loadPagedData (fuel : nat) : M unit :=
  '(comments, reviews) ← loadPagedDataLoop fuel None None [] [];
  modify (withPagedData comments reviews).

Definition Comments (fuel : nat) : M (list Comment) :=
  ghc ← get;
  _ ← match comments ghc with
      | None => loadPagedData fuel
      | Some _ => mret tt
      end;
  ghc ← get;
  mret (elems (comments ghc)).

Definition Reviews (fuel : nat) : M (list Review) :=
  ghc ← get;
  _ ← match reviews ghc with
      | None => loadPagedData fuel
      | Some _ => mret tt
      end;
  ghc ← get;
  mret (elems (reviews ghc)).

(** ** Commits *)

(** The pagination loop of [loadRawCommits]. *)
Fixpoint loadRawCommitsLoop (fuel : nat) (cursor : option string)
    (commits : list v4PullRequestCommit) : M (list v4PullRequestCommit) :=
  match fuel with
  | O => outOfFuel
  | S fuel' =>
      '(info, nodes) ← query (EvQueryCommits cursor) "failed to load commits"
                         (fun ghc => QueryCommits (v4client ghc) (trace ghc) cursor);
      let commits := commits ++ nodes in
      let '(cursor, more) := UpdateCursor info cursor in
      if negb more then mret commits
      else loadRawCommitsLoop fuel' cursor commits
  end.

Definition loadRawCommits (fuel : nat) : M (list v4PullRequestCommit) :=
  loadRawCommitsLoop fuel None [].

(** [commitsBySHA[c.SHA] = c] for each commit in turn: the index maps a SHA
    to the position of the last commit that carries it. *)
Fixpoint indexFrom (i : nat) (commits : list Commit) (commitsBySHA : gmap string nat)
  : gmap string nat :=
  match commits with
  | [] => commitsBySHA
  | c :: rest => indexFrom (S i) rest (<[SHA c := i]> commitsBySHA)
  end.

Definition indexBySHA (commits : list Commit) : gmap string nat := indexFrom 0 commits ∅.

(** [c.PushedAt = t] through a pointer: the commit at that position changes. *)
Definition setPushedAt (t : option Z) (c : Commit) : Commit :=
  {| SHA := SHA c; Parents := Parents c; CommittedViaWeb := CommittedViaWeb c;
     Author := Author c; Committer := Committer c; PushedAt := t |}.

Definition assignPushedAt (i : nat) (t : option Z) (commits : list Commit) : list Commit :=
  alter (setPushedAt t) i commits.

(** The body of the loop over a history page's nodes in [loadPushedAt]. *)
Definition matchNode (st : gmap string nat * list Commit) (n : historyNode)
  : gmap string nat * list Commit :=
  let '(commitsBySHA, commits) := st in
  match commitsBySHA !! hOID n with
  | Some c => (delete (hOID n) commitsBySHA, assignPushedAt c (hPushedDate n) commits)
  | None => (commitsBySHA, commits)
  end.

Definition matchNodes (nodes : list historyNode) (st : gmap string nat * list Commit)
  : gmap string nat * list Commit :=
  foldl matchNode st nodes.

(** The loop [for len(commitsBySHA) > 0] of [loadPushedAt]; it returns the
    index and the commits as the loop leaves them. *)
Fixpoint loadPushedAtLoop (fuel : nat) (cursor : option string)
    (commitsBySHA : gmap string nat) (commits : list Commit)
  : M (gmap string nat * list Commit) :=
  if (0 <? size commitsBySHA)%nat then
    match fuel with
    | O => outOfFuel
    | S fuel' =>
        '(info, nodes) ← query (EvQueryHistory cursor) "failed to load commit pushed dates"
                           (fun ghc => QueryHistory (v4client ghc) (trace ghc) cursor);
        let '(commitsBySHA, commits) := matchNodes nodes (commitsBySHA, commits) in
        let '(cursor, more) := UpdateCursor info cursor in
        if negb more then mret (commitsBySHA, commits)
        else loadPushedAtLoop fuel' cursor commitsBySHA commits
    end
  else mret (commitsBySHA, commits).

(** [loadPushedAt] changes the commits in place; the changed list is its
    result here. *)
Definition loadPushedAt (fuel : nat) (commits : list Commit) : M (list Commit) :=
  '(commitsBySHA, commits) ← loadPushedAtLoop fuel None (indexBySHA commits) commits;
  if (0 <? size commitsBySHA)%nat then throw (CommitsNotFound (size commitsBySHA))
  else mret commits.

(** The scan for the head in [loadCommits]: the last commit whose SHA is
    the head's, as a position. *)
Fixpoint findHeadFrom (headOID : string) (i : nat) (commits : list Commit)
    (head : option nat) : option nat :=
  match commits with
  | [] => head
  | c :: rest =>
      findHeadFrom headOID (S i) rest (if bool_decide (SHA c = headOID) then Some i else head)
  end.

Definition findHead (headOID : string) (commits : list Commit) : option nat :=
  findHeadFrom headOID 0 commits None.

(** [head.PushedAt], read through the pointer. *)
Definition headPushedAt (commits : list Commit) (head : nat) : option Z :=
  c ← commits !! head; PushedAt c.

(** One round of the loop of [loadCommits], up to the test of the head's
    pushed date: the raw fetch, the mapping and the scan for the head, and
    for a pull request from a fork whose head has no pushed date the query
    of the fork's history. *)
Definition loadCommitsAttempt (fuel : nat) : M (list Commit * nat) :=
  rawCommits ← loadRawCommits fuel;
  ghc ← get;
  let commits := map (fun r => ToCommit (prCommit r)) rawCommits in
  match findHead (HeadRefOID (pr ghc)) commits with
  | None => throw (HeadCommitMissing (HeadRefOID (pr ghc)))
  | Some head =>
      commits ← (if IsCrossRepository (pr ghc) && bool_decide (headPushedAt commits head = None)
                 then loadPushedAt fuel commits
                 else mret commits);
      mret (commits, head)
  end.

(** The delay before the next attempt:
    [time.Duration(1<<uint(attempts-1)) * commitLoadBaseDelay]. *)
Definition retryDelay (attempts : Z) : Z :=
  int64 (int64 (Z.shiftl 1 (attempts - 1)) * commitLoadBaseDelay).

Fixpoint loadCommitsLoop (rounds fuel : nat) (attempts : Z) : M (list Commit) :=
  match rounds with
  | O => outOfFuel
  | S rounds' =>
      '(commits, head) ← loadCommitsAttempt fuel;
      match headPushedAt commits head with
      | Some _ => mret commits
      | None =>
          let attempts := attempts + 1 in
          if commitLoadMaxAttempts <=? attempts then
            ghc ← get; throw (PushedDateMissing (HeadRefOID (pr ghc)))
          else
            _ ← Sleep (retryDelay attempts);
            loadCommitsLoop rounds' fuel attempts
      end
  end.

Definition loadCommits (fuel : nat) : M (list Commit) := loadCommitsLoop fuel fuel 0.

(** One round of the loop of [backfillPushedAt]: [None] is a [break],
    otherwise the index, the commits and the root of the next round. A
    pointer of the index always points into the list. *)
Definition backfillStep (commitsBySHA : gmap string nat) (commits : list Commit)
    (root : string) : option (gmap string nat * list Commit * string) :=
  match commitsBySHA !! root with
  | None => None
  | Some ci =>
      match commits !! ci with
      | None => None
      | Some c =>
          match Parents c with
          | [] => None
          | parent0 :: _ =>
              match commitsBySHA !! parent0 with
              | None => None
              | Some fi =>
                  match commits !! fi with
                  | None => None
                  | Some firstParent =>
                      let commits :=
                        match PushedAt firstParent with
                        | None => assignPushedAt fi (PushedAt c) commits
                        | Some _ => commits
                        end in
                      Some (delete root commitsBySHA, commits, SHA firstParent)
                  end
              end
          end
      end
  end.

Fixpoint backfillLoop (fuel : nat) (commitsBySHA : gmap string nat)
    (commits : list Commit) (root : string) : option (list Commit) :=
  match fuel with
  | O => None
  | S fuel' =>
      match backfillStep commitsBySHA commits root with
      | None => Some commits
      | Some (commitsBySHA, commits, root) => backfillLoop fuel' commitsBySHA commits root
      end
  end.

(** [backfillPushedAt], with fuel for one round per commit and the last
    test of the loop. *)
Definition backfillPushedAt (commits : list Commit) (headSHA : string)
  : option (list Commit) :=
  backfillLoop (S (List.length commits)) (indexBySHA commits) commits headSHA.

Definition Commits (fuel : nat) : M (list Commit) :=
  ghc ← get;
  _ ← match commits ghc with
      | None =>
          commits ← loadCommits fuel;
          if (MaxPullRequestCommits <=? List.length commits)%nat then throw TooManyCommits
          else
            match backfillPushedAt commits (HeadRefOID (pr ghc)) with
            | None => outOfFuel
            | Some commits => modify (withCommits (Some commits))
            end
      | Some _ => mret tt
      end;
  ghc ← get;
  mret (elems (commits ghc)).

(** ** Locator and construction *)

(** The structs of the REST client that a locator may carry
    ([github.PullRequest], [PullRequestBranch], [Repository], [User]): every
    field is a pointer, and a getter on a nil receiver or a nil field
    returns the zero value. *)
Record GhUser : Type := mkGhUser {
  ghLogin : option string
}.

Record GhRepository : Type := mkGhRepository {
  ghID : option Z;
  ghName : option string;
  ghOwner : option GhUser
}.

Record GhPullRequestBranch : Type := mkGhBranch {
  ghRef : option string;
  ghSHA : option string;
  ghRepo : option GhRepository
}.

Record GhPullRequest : Type := mkGhPullRequest {
  ghUser : option GhUser;
  ghBase : option GhPullRequestBranch;
  ghHead : option GhPullRequestBranch
}.

Definition GetUser (p : option GhPullRequest) : option GhUser := p ≫= ghUser.
Definition GetBase (p : option GhPullRequest) : option GhPullRequestBranch := p ≫= ghBase.
Definition GetHead (p : option GhPullRequest) : option GhPullRequestBranch := p ≫= ghHead.
Definition GetLogin (u : option GhUser) : string := default "" (u ≫= ghLogin).
Definition GetRef (b : option GhPullRequestBranch) : string := default "" (b ≫= ghRef).
Definition GetSHA (b : option GhPullRequestBranch) : string := default "" (b ≫= ghSHA).
Definition GetRepo (b : option GhPullRequestBranch) : option GhRepository := b ≫= ghRepo.
Definition GetID (r : option GhRepository) : Z := default 0 (r ≫= ghID).
Definition GetName (r : option GhRepository) : string := default "" (r ≫= ghName).
Definition GetOwner (r : option GhRepository) : option GhUser := r ≫= ghOwner.

(** [Locator] identifies a pull request and optionally contains a full or
    partial pull request object. *)
Record Locator : Type := mkLocator {
  locOwner : string;
  locRepo : string;
  locNumber : Z;
  Value : option GhPullRequest
}.

(** [IsComplete] returns true if the locator contains a pull request object
    with all required fields: a [switch] whose cases, all empty but the
    default, are tried in order. *)
Definition IsComplete (loc : Locator) : bool :=
  if bool_decide (Value loc = None) then false
  else if bool_decide (GetLogin (GetUser (Value loc)) = "") then false
  else if bool_decide (GetRef (GetBase (Value loc)) = "") then false
  else if bool_decide (GetID (GetRepo (GetBase (Value loc))) = 0) then false
  else if bool_decide (GetSHA (GetHead (Value loc)) = "") then false
  else if bool_decide (GetRef (GetHead (Value loc)) = "") then false
  else if bool_decide (GetID (GetRepo (GetHead (Value loc))) = 0) then false
  else if bool_decide (GetName (GetRepo (GetHead (Value loc))) = "") then false
  else if bool_decide (GetLogin (GetOwner (GetRepo (GetHead (Value loc)))) = "") then false
  else true.

(** A 32-bit signed integer computed in [Z]: [githubv4.Int] is an [int32]. *)
Definition int32 (z : Z) : Z := (z + 2 ^ 31) mod 2 ^ 32 - 2 ^ 31.

(** The query of [toV4], with its variables as they are sent. *)
Inductive locatorEvent : Type :=
| EvQueryPullRequest (owner name : string) (number : Z).

(** The GraphQL client on the query of [toV4]: the pull request, or an
    error. *)
Definition PullRequestClient : Type := string -> string -> Z -> string + v4PullRequest.

(** The zero value of [v4Actor] with a login. *)
Definition actorOfLogin (login : string) : v4Actor :=
  {| actorType := ""; actorLogin := login |}.

(** [toV4] returns a [v4PullRequest], loading data from the API if the
    locator is not complete; the queries it made are returned with it. *)
Definition toV4 (queryPR : PullRequestClient) (loc : Locator)
  : result v4PullRequest * list locatorEvent :=
  if negb (IsComplete loc) then
    let ev := EvQueryPullRequest (locOwner loc) (locRepo loc) (int32 (locNumber loc)) in
    match queryPR (locOwner loc) (locRepo loc) (int32 (locNumber loc)) with
    | inl cause => (Err (Wrap cause "failed to load pull request details"), [ev])
    | inr pr0 => (Ok pr0, [ev])
    end
  else
    (Ok {| prAuthor := actorOfLogin (GetLogin (GetUser (Value loc)));
           IsCrossRepository :=
             negb (GetID (GetRepo (GetHead (Value loc)))
                   =? GetID (GetRepo (GetBase (Value loc))));
           HeadRefOID := GetSHA (GetHead (Value loc));
           HeadRefName := GetRef (GetHead (Value loc));
           HeadRepositoryName := GetName (GetRepo (GetHead (Value loc)));
           HeadRepositoryOwner :=
             actorOfLogin (GetLogin (GetOwner (GetRepo (GetHead (Value loc)))));
           BaseRefName := GetRef (GetBase (Value loc)) |},
     []).

(** What a call of [NewGitHubContext] comes to: a panic, or its return. *)
Inductive construction : Type :=
| Panicked (message : string)
| Returned (r : result GitHubContext).

(** [NewGitHubContext] creates a context that makes GitHub requests; the
    pull request passed to it must contain at least the base repository and
    the number or the function panics. The trace of the new context is
    empty: the query of [toV4] is returned beside it. *)
Definition NewGitHubContext (c : Client) (v4 : V4Client) (queryPR : PullRequestClient)
    (loc : Locator) : construction * list locatorEvent :=
  if bool_decide (locOwner loc = "") || bool_decide (locRepo loc = "")
     || (locNumber loc =? 0)
  then (Panicked "pull request object does not contain full identifying information", [])
  else
    match toV4 queryPR loc with
    | (Err e, evs) => (Returned (Err e), evs)
    | (Ok pr0, evs) =>
        (Returned (Ok {| client := c; v4client := v4; owner := locOwner loc;
                         repo := locRepo loc; number := locNumber loc; pr := pr0;
                         files := None; commits := None; comments := None;
                         reviews := None; trace := [] |}),
         evs)
    end.

Definition RepositoryOwner (ghc : GitHubContext) : string := owner ghc.
Definition RepositoryName (ghc : GitHubContext) : string := repo ghc.
Definition Number (ghc : GitHubContext) : Z := number ghc.
(** The method [Author]. *)
Definition PRAuthor (ghc : GitHubContext) : string := actorLogin (prAuthor (pr ghc)).
Definition HeadSHA (ghc : GitHubContext) : string := HeadRefOID (pr ghc).

(** [Branches] returns the names of the base and head branch. If the head
    branch is from another repository (it is a fork) then the branch name is
    [owner:branchName]. *)
Definition Branches (ghc : GitHubContext) : string * string :=
  let base := BaseRefName (pr ghc) in
  let head := HeadRefName (pr ghc) in
  let head :=
    if IsCrossRepository (pr ghc)
    then (actorLogin (HeadRepositoryOwner (pr ghc)) +:+ ":") +:+ head
    else head in
  (base, head).

(** ** Observations on traces and contexts *)

Global Instance event_eq_dec : EqDecision event.
Proof. solve_decision. Defined.

(** The context after the events [evs]: nothing but the trace changes. *)
Definition logAll (evs : list event) (ghc : GitHubContext) : GitHubContext :=
  foldl (fun g ev => logged ev g) ghc evs.

(** The durations slept, in order. *)
Definition sleeps (t : list event) : list Z :=
  omap (fun ev => match ev with EvSleep d => Some d | _ => None end) t.

(** The number of fetches of the commit list: each starts with a query of
    the first page, the only one whose cursor is nil. *)
Definition fetches (t : list event) : nat :=
  List.length (filter (fun ev => ev = EvQueryCommits None) t).

Definition isListFiles (ev : event) : Prop := ∃ page, ev = EvListFiles page.
Definition isQueryPagedData (ev : event) : Prop := ∃ cc rc, ev = EvQueryPagedData cc rc.
Definition isQueryCommits (ev : event) : Prop := ∃ cursor, ev = EvQueryCommits cursor.
Definition isQueryHistory (ev : event) : Prop := ∃ cursor, ev = EvQueryHistory cursor.
Definition isQuery (ev : event) : Prop := isQueryCommits ev ∨ isQueryHistory ev.
Definition isLaterPage (ev : event) : Prop := ∃ c, ev = EvQueryCommits (Some c).

(** The four caches of a context. *)
Definition caches (ghc : GitHubContext) :=
  (files ghc, commits ghc, comments ghc, reviews ghc).

(** The index points into the list: a SHA is mapped to the position of a
    commit that carries it. *)
Definition indexValid (commitsBySHA : gmap string nat) (commits : list Commit) : Prop :=
  ∀ sha i, commitsBySHA !! sha = Some i → SHA <$> commits !! i = Some sha.

(** The commit the index holds for a SHA, through the pointer. *)
Definition deref (commitsBySHA : gmap string nat) (commits : list Commit) (sha : string)
  : option Commit :=
  i ← commitsBySHA !! sha; commits !! i.

(** The first commit of a list with a given SHA, and its pushed date. *)
Definition lookupSHA (commits : list Commit) (sha : string) : option Commit :=
  List.find (fun c => bool_decide (SHA c = sha)) commits.

Definition pushedAtOf (commits : list Commit) (sha : string) : option (option Z) :=
  PushedAt <$> lookupSHA commits sha.


(** [shas] is a first-parent chain of [commits]: each SHA but the last is
    that of a commit of the list whose first parent is the next SHA. *)
Definition firstParentChain (commits : list Commit) (shas : list string) : Prop :=
  ∀ k s s', shas !! k = Some s → shas !! S k = Some s' →
    ∃ c, lookupSHA commits s = Some c ∧ head (Parents c) = Some s'.

(** The chain [shas] ends where the inference stops: its last SHA is that
    of no commit of the list, or of a commit without parents, or of a
    commit whose first parent is not in the list. *)
Definition chainEnds (commits : list Commit) (shas : list string) : Prop :=
  ∃ s, last shas = Some s ∧
    match Parents <$> lookupSHA commits s with
    | Some (p :: _) => lookupSHA commits p = None
    | _ => True
    end.

(** [unsetRounds fuel k attempts ghc ghc']: from [ghc], with the attempt
    counter at [attempts], [k] rounds of the loop of [loadCommits] in a row
    fetch a commit list whose head has no pushed date, each followed by the
    loop's sleep, and leave the context [ghc']. *)
Inductive unsetRounds (fuel : nat) : nat → Z → GitHubContext → GitHubContext → Prop :=
| unsetRounds_O attempts ghc : unsetRounds fuel 0 attempts ghc ghc
| unsetRounds_S k attempts ghc ghc1 ghc' commits head :
    loadCommitsAttempt fuel ghc = Some (Ok (commits, head), ghc1) →
    headPushedAt commits head = None →
    unsetRounds fuel k (attempts + 1)
      (logged (EvSleep (retryDelay (attempts + 1))) ghc1) ghc' →
    unsetRounds fuel (S k) attempts ghc ghc'.

(** The sleeps of [k] failed attempts in a row, the attempt counter
    starting at [attempts]. *)
Fixpoint delaysFrom (attempts : Z) (k : nat) : list Z :=
  match k with
  | O => []
  | S k' => retryDelay (attempts + 1) :: delaysFrom (attempts + 1) k'
  end.

(** Two commits that differ at most in their pushed date. *)
Definition sameCommit (c c' : Commit) : Prop := setPushedAt None c = setPushedAt None c'.

(** [c'] is [c], with a pushed date filled in if [c] had none. *)
Definition fills (c c' : Commit) : Prop :=
  sameCommit c c' ∧ (PushedAt c = None ∨ PushedAt c' = PushedAt c).

(** An action all of whose errors satisfy [P]. *)
Definition raises {A : Type} (P : error → Prop) (m : M A) : Prop :=
  ∀ ghc e ghc', m ghc = Some (Err e, ghc') → P e.

(** The errors of the commit accessor, for a pull request from a fork or
    not, with a given head SHA. *)
Definition commitsError (fork : bool) (head : string) (e : error) : Prop :=
  (∃ cause, e = Wrap cause "failed to load commits") ∨
  e = HeadCommitMissing head ∨ e = PushedDateMissing head ∨ e = TooManyCommits ∨
  (fork = true ∧
   ((∃ cause, e = Wrap cause "failed to load commit pushed dates") ∨
    (∃ n, (0 < n)%nat ∧ e = CommitsNotFound n))).

(** What identifies a context and its pull request, and its clients. *)
Definition identity (ghc : GitHubContext) :=
  (owner ghc, repo ghc, number ghc, pr ghc, client ghc, v4client ghc).

(** A query of the commit loader or one of its sleeps. *)
Definition isLoaderEvent (ev : event) : Prop := isQuery ev ∨ ∃ d, ev = EvSleep d.

(** A query of the commit list or a sleep. *)
Definition isFetchOrSleep (ev : event) : Prop := isQueryCommits ev ∨ ∃ d, ev = EvSleep d.

(** The error, if any, with which the platform of clients [c] and [v4]
    answers the request [ev] made after the interactions [t]. A sleep is
    no request and has none. *)
Definition failure (c : Client) (v4 : V4Client) (t : list event) (ev : event)
  : option string :=
  match ev with
  | EvListFiles page =>
      match ListFiles c t page with inl cause => Some cause | inr _ => None end
  | EvQueryPagedData cc rc =>
      match QueryPagedData v4 t cc rc with inl cause => Some cause | inr _ => None end
  | EvQueryCommits cursor =>
      match QueryCommits v4 t cursor with inl cause => Some cause | inr _ => None end
  | EvQueryHistory cursor =>
      match QueryHistory v4 t cursor with inl cause => Some cause | inr _ => None end
  | EvSleep _ => None
  end.

(** Every request of [evs], made in turn after [t], was answered without
    an error. *)
Fixpoint answered (c : Client) (v4 : V4Client) (t : list event) (evs : list event) : Prop :=
  match evs with
  | [] => True
  | ev :: evs' => failure c v4 t ev = None ∧ answered c v4 (t ++ [ev]) evs'
  end.

(** An action that keeps its clients and stops at the first request the
    platform fails: when it returns a wrapped error, the cause is the
    platform's answer to the last request it made and every request before
    it was answered; otherwise every request it made was answered. *)
Definition stopsAtFailure {A : Type} (m : M A) : Prop :=
  ∀ ghc r ghc', m ghc = Some (r, ghc') →
    client ghc' = client ghc ∧ v4client ghc' = v4client ghc ∧
    ∃ evs, trace ghc' = trace ghc ++ evs ∧
      match r with
      | Err (Wrap cause _) =>
          ∃ evs0 ev, evs = evs0 ++ [ev] ∧
            answered (client ghc) (v4client ghc) (trace ghc) evs0 ∧
            failure (client ghc) (v4client ghc) (trace ghc ++ evs0) ev = Some cause
      | _ => answered (client ghc) (v4client ghc) (trace ghc) evs
      end.

(** ** A platform that paginates

    The GraphQL connections of the platform, as section 6 of the
    specification describes them: a query answers the nodes that follow the
    cursor, at most a page of them, the cursor of the last node answered
    (none when it answers no node), and whether more nodes follow. *)

(** The cursor of a node: its position in the full list, in decimal. *)
Definition cursorOf (n : nat) : string := NilEmpty.string_of_uint (Nat.to_uint n).

(** The number of nodes that precede the page asked for. *)
Definition offsetOf (cursor : option string) : nat :=
  match cursor with
  | None => 0
  | Some c =>
      match NilEmpty.uint_of_string c with
      | Some d => Nat.of_uint d
      | None => 0
      end
  end.

(** Modelled from the spec: the platform's answer to a paginated field
    ([first] nodes after [cursor]), which is no code of this repository:
    the page of nodes, the end cursor and the has-more flag. *)
Definition servePage {A : Type} (first : nat) (all : list A) (cursor : option string)
  : v4PageInfo * list A :=
  let start := offsetOf cursor in
  let nodes := take first (drop start all) in
  ({| EndCursor := match nodes with
                   | [] => None
                   | _ :: _ => Some (cursorOf (start + List.length nodes))
                   end;
      HasNextPage := bool_decide (start + List.length nodes < List.length all)%nat |},
   nodes).

(** The context's GraphQL client answers the comments [cs] and the reviews
    [rs] of the pull request, 100 of each a page. *)
Definition servesPagedData (ghc : GitHubContext) (cs : list v4IssueComment)
    (rs : list v4PullRequestReview) : Prop :=
  ∀ t cc rc,
    QueryPagedData (v4client ghc) t cc rc = inr (servePage 100 cs cc, servePage 100 rs rc).

(** The context's GraphQL client answers the commits [all] of the pull
    request, 100 a page. *)
Definition servesCommits (ghc : GitHubContext) (all : list v4PullRequestCommit) : Prop :=
  ∀ t cursor, QueryCommits (v4client ghc) t cursor = inr (servePage 100 all cursor).

(** The page of a REST listing of [all], [perPage] a page: the elements of
    page [page] (page 0 is page 1) and the number of the next page, 0 after
    the last one, as go-github's [Response.NextPage] has it. *)
Definition serveFiles {A : Type} (perPage : nat) (all : list A) (page : Z) : list A * Z :=
  let p := Z.to_nat (Z.max page 1) in
  (take perPage (drop (perPage * (p - 1)) all),
   if (perPage * p <? List.length all)%nat then Z.of_nat (S p) else 0).

(** The context's REST client lists the changed files [all] of the pull
    request, [perPage] a page. *)
Definition servesFiles (ghc : GitHubContext) (perPage : nat) (all : list CommitFile) : Prop :=
  ∀ t page, ListFiles (client ghc) t page = inr (serveFiles perPage all page).

(** The quotient rounded up. *)
Definition ceilDiv (n d : nat) : nat := ((n + d - 1) / d)%nat.

(** The round-trips that [c] comments and [r] reviews take, 100 of each a
    round-trip: as many as the longer of the two lists needs, and one when
    both are empty. *)
Definition roundTrips (c r : nat) : nat :=
  Nat.max 1 (Nat.max (ceilDiv c 100) (ceilDiv r 100)).

(** The context [ghc'] is [ghc] after some events that all satisfy [P]. *)
Definition advances (P : event → Prop) (ghc ghc' : GitHubContext) : Prop :=
  ∃ evs, ghc' = logAll evs ghc ∧ Forall P evs.

(** An action that does nothing to the context but issue events that
    satisfy [P], whatever it returns. *)
Definition issues {A : Type} (P : event → Prop) (m : M A) : Prop :=
  ∀ ghc r ghc', m ghc = Some (r, ghc') → advances P ghc ghc'.

(** ** Example platforms and contexts *)

Definition noClient : Client := {| ListFiles := fun _ _ => inl "unavailable" |}.

Definition noV4Client : V4Client :=
  {| QueryPagedData := fun _ _ _ => inl "unavailable";
     QueryCommits := fun _ _ => inl "unavailable";
     QueryHistory := fun _ _ => inl "unavailable" |}.

Definition user (login : string) : v4Actor := {| actorType := "User"; actorLogin := login |}.

Definition examplePR (fork : bool) : v4PullRequest :=
  {| prAuthor := user "alice"; IsCrossRepository := fork; HeadRefOID := "head";
     HeadRefName := "feature"; HeadRepositoryName := "policy-bot";
     HeadRepositoryOwner := user (if fork then "alice" else "palantir");
     BaseRefName := "develop" |}.

(** A context as [NewGitHubContext] builds it: no cache filled, nothing
    asked yet. *)
Definition newContext (c : Client) (v4 : V4Client) (fork : bool) : GitHubContext :=
  {| client := c; v4client := v4; owner := "palantir"; repo := "policy-bot"; number := 1;
     pr := examplePR fork; files := None; commits := None; comments := None;
     reviews := None; trace := [] |}.

(** A pull request of [n] changed files, listed 100 a page. *)
Definition exampleFile : CommitFile :=
  {| cfFilename := "README.md"; cfStatus := "modified"; cfAdditions := 1; cfDeletions := 0 |}.

Definition filesClient (n : nat) : Client :=
  {| ListFiles := fun _ page =>
       let p := Z.to_nat (Z.max page 1) in
       inr (take 100 (drop (100 * (p - 1)) (replicate n exampleFile)),
            if (100 * p <? n)%nat then Z.of_nat (S p) else 0) |}.

(** Raw commits: a SHA, its parents and its pushed date. *)
Definition rawCommit (oid : string) (parents : list string) (pushed : option Z)
  : v4PullRequestCommit :=
  {| prCommit := {| OID := oid; v4Author := {| gitUser := Some (user "alice") |};
                    v4Committer := {| gitUser := None |}; v4CommittedViaWeb := false;
                    PushedDate := pushed; ParentOIDs := parents |} |}.

Definition onePage {A : Type} (nodes : list A) : v4PageInfo * list A :=
  ({| EndCursor := None; HasNextPage := false |}, nodes).

(** The head's pushed date is missing from the first [stale] fetches of
    the commit list and present afterwards. *)
Definition lateCommits (stale : nat) : V4Client :=
  {| QueryPagedData := fun _ _ _ => inl "unavailable";
     QueryCommits := fun t _ =>
       inr (onePage [rawCommit "base" [] (Some 10);
                     rawCommit "head" ["base"]
                       (if (fetches t <? stale)%nat then None else Some 20)]);
     QueryHistory := fun _ _ => inl "unavailable" |}.

(** A pull request from a fork: three commits without pushed dates, and the
    pages of the fork's history, which go on after the second. *)
Definition forkCommits : list v4PullRequestCommit :=
  [rawCommit "c1" ["c0"] None; rawCommit "c2" ["c1"] None; rawCommit "head" ["c2"] None].

Definition forkHistory (pages : list (string * list historyNode)) : V4Client :=
  {| QueryPagedData := fun _ _ _ => inl "unavailable";
     QueryCommits := fun _ _ => inr (onePage forkCommits);
     QueryHistory := fun _ cursor =>
       match cursor with
       | None =>
           match pages with
           | [] => inr (onePage [])
           | (c, nodes) :: rest =>
               inr ({| EndCursor := Some c; HasNextPage := bool_decide (rest ≠ []) |}, nodes)
           end
       | Some cur =>
           (fix after (ps : list (string * list historyNode)) :=
              match ps with
              | [] => inr (onePage [])
              | (c, _) :: rest =>
                  if bool_decide (c = cur) then
                    match rest with
                    | [] => inr (onePage [])
                    | (c', nodes') :: rest' =>
                        inr ({| EndCursor := Some c'; HasNextPage := bool_decide (rest' ≠ []) |},
                             nodes')
                    end
                  else after rest
              end) pages
       end |}.

Definition node (oid : string) (pushed : option Z) : historyNode :=
  {| hOID := oid; hPushedDate := pushed |}.

Definition threePages : list (string * list historyNode) :=
  [("p1", [node "head" (Some 30); node "c2" (Some 30)]);
   ("p2", [node "c1" (Some 20); node "c0" (Some 10)]);
   ("p3", [node "b1" (Some 5); node "b0" (Some 5)])].

(** The history of a fork that does not hold the commit c1. *)
Definition shortHistory : list (string * list historyNode) :=
  [("p1", [node "head" (Some 30); node "c2" (Some 30)]);
   ("p2", [node "c0" (Some 10)])].

(** A pull request of [n] commits, the head last, all with pushed dates,
    answered 100 a page. *)
Definition commitList (n : nat) : list v4PullRequestCommit :=
  replicate (n - 1) (rawCommit "c" [] (Some 1)) ++ [rawCommit "head" ["c"] (Some 2)].

Definition commitsServer (all : list v4PullRequestCommit) : V4Client :=
  {| QueryPagedData := fun _ _ _ => inl "unavailable";
     QueryCommits := fun _ cursor => inr (servePage 100 all cursor);
     QueryHistory := fun _ _ => inl "unavailable" |}.

(** The commit list after a force-push: the head the context knows is not
    in it. *)
Definition forcePushed : list v4PullRequestCommit := [rawCommit "other" [] (Some 1)].

(** A page answer of comments and reviews from full lists. *)
Definition pagedServer (cs : list v4IssueComment) (rs : list v4PullRequestReview) : V4Client :=
  {| QueryPagedData := fun _ cc rc => inr (servePage 100 cs cc, servePage 100 rs rc);
     QueryCommits := fun _ _ => inl "unavailable";
     QueryHistory := fun _ _ => inl "unavailable" |}.

Definition exampleComment : v4IssueComment :=
  {| v4cAuthor := user "bob"; v4cBody := "looks good"; v4cCreatedAt := 1 |}.

Definition exampleReview : v4PullRequestReview :=
  {| v4rAuthor := {| actorType := "Bot"; actorLogin := "deploy-bot" |};
     v4rState := "APPROVED"; v4rBody := ""; v4rSubmittedAt := 2 |}.

(** Commits as the accessors hold them. *)
Definition commit (sha : string) (parents : list string) (pushed : option Z) : Commit :=
  ToCommit (prCommit (rawCommit sha parents pushed)).

(** The linear chain head, A, B, C, of which only the head has a pushed
    date; C's parent is not part of the pull request. *)
Definition linearChain : list Commit :=
  [commit "C" ["base"] None; commit "B" ["C"] None; commit "A" ["B"] None;
   commit "head" ["A"] (Some 42)].

(** A merge whose first parent has a pushed date of its own: the head
    merges p1 and p2, and p1's parent, root, has no pushed date. *)
Definition datedParent : list Commit :=
  [commit "p2" [] None; commit "p1" ["root"] (Some 5); commit "root" [] None;
   commit "head" ["p1"; "p2"] (Some 9)].




(** A pull request object as an event payload carries it, from a fork or
    from a branch of the repository itself. *)
Definition payloadRepo (id : Z) (ownerLogin : string) : GhRepository :=
  {| ghID := Some id; ghName := Some "policy-bot";
     ghOwner := Some {| ghLogin := Some ownerLogin |} |}.

Definition payload (headRepoID : Z) (headOwner : string) : GhPullRequest :=
  {| ghUser := Some {| ghLogin := Some "alice" |};
     ghBase := Some {| ghRef := Some "develop"; ghSHA := Some "b0";
                       ghRepo := Some (payloadRepo 1 "palantir") |};
     ghHead := Some {| ghRef := Some "feature"; ghSHA := Some "head";
                       ghRepo := Some (payloadRepo headRepoID headOwner) |} |}.

Definition completeLocator (headRepoID : Z) (headOwner : string) : Locator :=
  {| locOwner := "palantir"; locRepo := "policy-bot"; locNumber := 7;
     Value := Some (payload headRepoID headOwner) |}.

(** A locator without a pull request object, and a client that answers the
    pull request of a fork. *)
Definition bareLocator : Locator :=
  {| locOwner := "palantir"; locRepo := "policy-bot"; locNumber := 7; Value := None |}.

Definition answersFork : PullRequestClient := fun _ _ _ => inr (examplePR true).

Definition unavailable : PullRequestClient := fun _ _ _ => inl "unavailable".

(** * Properties *)

Local Opaque MaxPullRequestFiles MaxPullRequestCommits.

(** ** The monad *)

Lemma bind_ok {A B : Type} (m : M A) (f : A → M B) ghc a ghc1 :
  m ghc = Some (Ok a, ghc1) → (m ≫= f) ghc = f a ghc1.
Proof. intros H. unfold mbind, M_bind. by rewrite H. Qed.

Lemma bind_err {A B : Type} (m : M A) (f : A → M B) ghc e ghc1 :
  m ghc = Some (Err e, ghc1) → (m ≫= f) ghc = Some (Err e, ghc1).
Proof. intros H. unfold mbind, M_bind. by rewrite H. Qed.

Lemma bind_inv {A B : Type} (m : M A) (f : A → M B) ghc r ghc' :
  (m ≫= f) ghc = Some (r, ghc') →
  (∃ a ghc1, m ghc = Some (Ok a, ghc1) ∧ f a ghc1 = Some (r, ghc')) ∨
  (∃ e, m ghc = Some (Err e, ghc') ∧ r = Err e).
Proof.
  unfold mbind, M_bind. destruct (m ghc) as [[[a|e] ghc1]|]; intros H.
  - left. eauto.
  - right. injection H as <- <-. eauto.
  - discriminate.
Qed.

(** ** Contexts and traces *)

Lemma logAll_app evs1 evs2 ghc : logAll (evs1 ++ evs2) ghc = logAll evs2 (logAll evs1 ghc).
Proof. apply foldl_app. Qed.

Lemma logAll_trace evs ghc : trace (logAll evs ghc) = trace ghc ++ evs.
Proof.
  revert ghc. induction evs as [|ev evs IH]; intros ghc; simpl.
  - by rewrite app_nil_r.
  - rewrite IH. simpl. by rewrite <- app_assoc.
Qed.

Lemma logAll_fields evs ghc :
  client (logAll evs ghc) = client ghc ∧ v4client (logAll evs ghc) = v4client ghc ∧
  pr (logAll evs ghc) = pr ghc ∧ caches (logAll evs ghc) = caches ghc.
Proof.
  revert ghc. induction evs as [|ev evs IH]; intros ghc; simpl; [done|].
  destruct (IH (logged ev ghc)) as (-> & -> & -> & ->). done.
Qed.

Lemma logAll_client evs ghc : client (logAll evs ghc) = client ghc.
Proof. apply logAll_fields. Qed.

Lemma logAll_v4client evs ghc : v4client (logAll evs ghc) = v4client ghc.
Proof. apply logAll_fields. Qed.

Lemma logAll_pr evs ghc : pr (logAll evs ghc) = pr ghc.
Proof. apply logAll_fields. Qed.

Lemma logAll_caches evs ghc : caches (logAll evs ghc) = caches ghc.
Proof. apply logAll_fields. Qed.

Lemma advances_refl P ghc : advances P ghc ghc.
Proof. exists []. by split. Qed.

Lemma advances_trans P ghc1 ghc2 ghc3 :
  advances P ghc1 ghc2 → advances P ghc2 ghc3 → advances P ghc1 ghc3.
Proof.
  intros (evs1 & -> & H1) (evs2 & -> & H2). exists (evs1 ++ evs2).
  split; [by rewrite logAll_app | by apply Forall_app].
Qed.

Lemma advances_logged (P : event → Prop) ev ghc : P ev → advances P ghc (logged ev ghc).
Proof. intros H. exists [ev]. split; [done | by constructor]. Qed.

Lemma advances_weaken (P Q : event → Prop) ghc ghc' :
  (∀ ev, P ev → Q ev) → advances P ghc ghc' → advances Q ghc ghc'.
Proof. intros HPQ (evs & -> & H). exists evs. split; [done|]. eapply Forall_impl; eauto. Qed.

Lemma advances_caches P ghc ghc' : advances P ghc ghc' → caches ghc' = caches ghc.
Proof. intros (evs & -> & _). apply logAll_caches. Qed.

Lemma advances_pr P ghc ghc' : advances P ghc ghc' → pr ghc' = pr ghc.
Proof. intros (evs & -> & _). apply logAll_pr. Qed.

Lemma issues_ret {A : Type} P (a : A) : issues P (mret a).
Proof. intros ghc r ghc' [= <- <-]. apply advances_refl. Qed.

Lemma issues_throw {A : Type} P e : issues P (@throw A e).
Proof. intros ghc r ghc' [= <- <-]. apply advances_refl. Qed.

Lemma issues_get P : issues P get.
Proof. intros ghc r ghc' [= <- <-]. apply advances_refl. Qed.

Lemma issues_query {A : Type} (P : event → Prop) ev message (ask : GitHubContext → string + A) :
  P ev → issues P (query ev message ask).
Proof.
  intros HP ghc r ghc'. unfold query.
  destruct (ask ghc); intros [= <- <-]; by apply advances_logged.
Qed.

Lemma issues_Sleep (P : event → Prop) d : P (EvSleep d) → issues P (Sleep d).
Proof. intros HP ghc r ghc' [= <- <-]. by apply advances_logged. Qed.

Lemma issues_bind {A B : Type} P (m : M A) (f : A → M B) :
  issues P m → (∀ a, issues P (f a)) → issues P (m ≫= f).
Proof.
  intros Hm Hf ghc r ghc' H.
  destruct (bind_inv _ _ _ _ _ H) as [(a & ghc1 & H1 & H2)|(e & H1 & _)].
  - eapply advances_trans; [eapply Hm | eapply Hf]; eauto.
  - eapply Hm; eauto.
Qed.

Lemma issues_weaken {A : Type} (P Q : event → Prop) (m : M A) :
  (∀ ev, P ev → Q ev) → issues P m → issues Q m.
Proof. intros HPQ Hm ghc r ghc' H. eapply advances_weaken; eauto. Qed.

Lemma issues_outOfFuel {A : Type} P : issues P (@outOfFuel A).
Proof. intros ghc r ghc' [=]. Qed.

(** ** What each loop issues *)

Lemma listAllFiles_issues fuel page allFiles :
  issues isListFiles (listAllFiles fuel page allFiles).
Proof.
  revert page allFiles. induction fuel as [|fuel IH]; intros page allFiles; simpl.
  - apply issues_outOfFuel.
  - apply issues_bind; [apply issues_query; by eexists|].
    intros [fs next]. destruct (next =? 0); [apply issues_ret | apply IH].
Qed.

Lemma loadPagedDataLoop_issues fuel cc rc cs rs :
  issues isQueryPagedData (loadPagedDataLoop fuel cc rc cs rs).
Proof.
  revert cc rc cs rs. induction fuel as [|fuel IH]; intros cc rc cs rs; simpl.
  - apply issues_outOfFuel.
  - apply issues_bind; [apply issues_query; by do 2 eexists|].
    intros [[cInfo cNodes] [rInfo rNodes]].
    destruct (UpdateCursor cInfo cc) as [cc' moreC], (UpdateCursor rInfo rc) as [rc' moreR].
    match goal with |- context [if ?b then _ else _] => destruct b end;
      [apply issues_ret | apply IH].
Qed.

Lemma loadRawCommitsLoop_issues fuel cursor acc :
  issues isQueryCommits (loadRawCommitsLoop fuel cursor acc).
Proof.
  revert cursor acc. induction fuel as [|fuel IH]; intros cursor acc; simpl.
  - apply issues_outOfFuel.
  - apply issues_bind; [apply issues_query; by eexists|].
    intros [info nodes]. destruct (UpdateCursor info cursor) as [cursor' more].
    destruct more; simpl; [apply IH | apply issues_ret].
Qed.

Lemma loadPushedAtLoop_issues fuel cursor idx cs :
  issues isQueryHistory (loadPushedAtLoop fuel cursor idx cs).
Proof.
  revert cursor idx cs. induction fuel as [|fuel IH]; intros cursor idx cs; simpl.
  - destruct (0 <? size idx)%nat; [apply issues_outOfFuel | apply issues_ret].
  - destruct (0 <? size idx)%nat; [|apply issues_ret].
    apply issues_bind; [apply issues_query; by eexists|].
    intros [info nodes]. destruct (matchNodes nodes (idx, cs)) as [idx' cs'].
    destruct (UpdateCursor info cursor) as [cursor' more].
    destruct more; simpl; [apply IH | apply issues_ret].
Qed.

Lemma loadPushedAt_issues fuel cs : issues isQueryHistory (loadPushedAt fuel cs).
Proof.
  apply issues_bind; [apply loadPushedAtLoop_issues|].
  intros [idx cs']. destruct (0 <? size idx)%nat; [apply issues_throw | apply issues_ret].
Qed.

Lemma loadCommitsAttempt_issues fuel : issues isQuery (loadCommitsAttempt fuel).
Proof.
  apply issues_bind.
  { eapply issues_weaken; [|apply loadRawCommitsLoop_issues]. by left. }
  intros raw. apply issues_bind; [apply issues_get|]. intros ghc. cbv zeta.
  destruct (findHead _ _) as [h|]; [|apply issues_throw].
  apply issues_bind; [|intros; apply issues_ret].
  match goal with |- context [if ?b then _ else _] => destruct b end.
  - eapply issues_weaken; [|apply loadPushedAt_issues]. by right.
  - apply issues_ret.
Qed.

Lemma loadCommitsLoop_issues rounds fuel attempts :
  issues (fun _ => True) (loadCommitsLoop rounds fuel attempts).
Proof.
  revert attempts. induction rounds as [|rounds IH]; intros attempts; simpl.
  - apply issues_outOfFuel.
  - apply issues_bind.
    { eapply issues_weaken; [|apply loadCommitsAttempt_issues]. done. }
    intros [cs h]. destruct (headPushedAt cs h); [apply issues_ret|].
    destruct (commitLoadMaxAttempts <=? attempts + 1).
    + apply issues_bind; [apply issues_get | intros; apply issues_throw].
    + apply issues_bind; [by apply issues_Sleep | intros; apply IH].
Qed.

(** ** The index of commits by SHA *)

Lemma indexFrom_dom i cs (m : gmap string nat) :
  dom (indexFrom i cs m) = dom m ∪ list_to_set (SHA <$> cs).
Proof.
  revert i m. induction cs as [|c cs IH]; intros i m; simpl.
  - by rewrite (right_id_L ∅ (∪)).
  - rewrite IH, dom_insert_L, (comm_L (∪) {[SHA c]} (dom m)). by rewrite (assoc_L (∪)).
Qed.

Lemma indexBySHA_dom cs : dom (indexBySHA cs) = list_to_set (SHA <$> cs).
Proof. unfold indexBySHA. by rewrite indexFrom_dom, dom_empty_L, (left_id_L ∅ (∪)). Qed.

Lemma indexFrom_size i cs (m : gmap string nat) :
  (size (indexFrom i cs m) ≤ size m + List.length cs)%nat.
Proof.
  revert i m. induction cs as [|c cs IH]; intros i m; simpl; [lia|].
  etrans; [apply IH|]. rewrite map_size_insert. destruct (m !! SHA c); simpl; lia.
Qed.

Lemma indexBySHA_size cs : (size (indexBySHA cs) ≤ List.length cs)%nat.
Proof.
  unfold indexBySHA. etrans; [apply indexFrom_size|]. by rewrite map_size_empty.
Qed.

Lemma indexFrom_valid pre cs (m : gmap string nat) :
  indexValid m (pre ++ cs) → indexValid (indexFrom (List.length pre) cs m) (pre ++ cs).
Proof.
  revert pre m. induction cs as [|c cs IH]; intros pre m Hm; simpl; [done|].
  replace (pre ++ c :: cs) with ((pre ++ [c]) ++ cs) in * by by rewrite <- app_assoc.
  replace (S (List.length pre)) with (List.length (pre ++ [c]))
    by (rewrite length_app; simpl; lia).
  apply IH. intros sha i. rewrite lookup_insert. case_decide as Heq.
  - intros [= <-]. subst sha.
    rewrite lookup_app_l by (rewrite length_app; simpl; lia).
    by rewrite lookup_app_r, Nat.sub_diag by lia.
  - apply Hm.
Qed.

Lemma indexBySHA_valid cs : indexValid (indexBySHA cs) cs.
Proof. apply (indexFrom_valid [] cs ∅). intros sha i. by rewrite lookup_empty. Qed.

Lemma indexValid_inj idx cs sha1 sha2 i :
  indexValid idx cs → idx !! sha1 = Some i → idx !! sha2 = Some i → sha1 = sha2.
Proof. intros Hv H1 H2. apply Hv in H1, H2. congruence. Qed.

Lemma indexValid_delete idx cs sha : indexValid idx cs → indexValid (delete sha idx) cs.
Proof.
  intros Hv sha' i. rewrite lookup_delete. case_decide; [done | apply Hv].
Qed.

Lemma assignPushedAt_SHA i t cs : SHA <$> assignPushedAt i t cs = SHA <$> cs.
Proof.
  unfold assignPushedAt. apply list_eq. intros j. rewrite !list_lookup_fmap.
  destruct (decide (i = j)) as [->|Hne].
  - rewrite list_lookup_alter_eq. by destruct (cs !! j).
  - by rewrite list_lookup_alter_ne.
Qed.

Lemma indexValid_SHA idx cs cs' :
  SHA <$> cs' = SHA <$> cs → indexValid idx cs → indexValid idx cs'.
Proof.
  intros Heq Hv sha i Hi. rewrite <- list_lookup_fmap, Heq, list_lookup_fmap. by apply Hv.
Qed.

Lemma indexValid_assign idx cs i t :
  indexValid idx cs → indexValid idx (assignPushedAt i t cs).
Proof. apply indexValid_SHA, assignPushedAt_SHA. Qed.

Lemma indexValid_lookup idx cs sha i :
  indexValid idx cs → idx !! sha = Some i → ∃ c, cs !! i = Some c ∧ SHA c = sha.
Proof.
  intros Hv Hi. apply Hv in Hi. destruct (cs !! i) as [c|]; [|done].
  injection Hi as Hi. eauto.
Qed.

Lemma indexBySHA_distinct cs :
  size (indexBySHA cs) = List.length (remove_dups (SHA <$> cs)).
Proof.
  rewrite <- (size_dom (D := gset string)), indexBySHA_dom.
  rewrite <- (size_list_to_set (C := gset string)) by apply NoDup_remove_dups.
  f_equal. apply set_eq. intros x. rewrite !elem_of_list_to_set.
  by rewrite elem_of_remove_dups.
Qed.

(** ** Parent-chain inference *)

Lemma backfillStep_inv idx cs root idx' cs' root' :
  backfillStep idx cs root = Some (idx', cs', root') →
  ∃ ci c parent0 rest fi firstParent,
    idx !! root = Some ci ∧ cs !! ci = Some c ∧ Parents c = parent0 :: rest ∧
    idx !! parent0 = Some fi ∧ cs !! fi = Some firstParent ∧
    idx' = delete root idx ∧ root' = SHA firstParent ∧
    cs' = match PushedAt firstParent with
          | None => assignPushedAt fi (PushedAt c) cs
          | Some _ => cs
          end.
Proof.
  unfold backfillStep. intros H.
  destruct (idx !! root) as [ci|] eqn:Hci; [|done].
  destruct (cs !! ci) as [c|] eqn:Hc; [|done].
  destruct (Parents c) as [|parent0 rest] eqn:Hp; [done|].
  destruct (idx !! parent0) as [fi|] eqn:Hfi; [|done].
  destruct (cs !! fi) as [firstParent|] eqn:Hfp; [|done].
  injection H as <- <- <-. by exists ci, c, parent0, rest, fi, firstParent.
Qed.

Lemma backfillStep_SHA idx cs root idx' cs' root' :
  backfillStep idx cs root = Some (idx', cs', root') → SHA <$> cs' = SHA <$> cs.
Proof.
  intros H. apply backfillStep_inv in H as (ci & c & p & ps & fi & fp & _ & _ & _ & _ & _ & _ & _ & ->).
  destruct (PushedAt fp); [done | apply assignPushedAt_SHA].
Qed.

Lemma backfillStep_valid idx cs root idx' cs' root' :
  indexValid idx cs → backfillStep idx cs root = Some (idx', cs', root') →
  indexValid idx' cs'.
Proof.
  intros Hv H. pose proof (backfillStep_SHA _ _ _ _ _ _ H) as Hsha.
  apply backfillStep_inv in H as (ci & c & p & ps & fi & fp & _ & _ & _ & _ & _ & -> & _ & _).
  eapply indexValid_SHA; [done|]. by apply indexValid_delete.
Qed.

Lemma backfillStep_size idx cs root idx' cs' root' :
  backfillStep idx cs root = Some (idx', cs', root') →
  is_Some (idx !! root) ∧ idx' = delete root idx ∧ (size idx' < size idx)%nat.
Proof.
  intros H. apply backfillStep_inv in H as (ci & c & p & ps & fi & fp & Hci & _ & _ & _ & _ & -> & _ & _).
  split; [eauto|]. split; [done|].
  rewrite map_size_delete, Hci. simpl.
  assert (size idx ≠ 0%nat); [|lia].
  intros Hz. apply map_size_empty_inv in Hz. subst idx. by rewrite lookup_empty in Hci.
Qed.

Lemma backfillLoop_total fuel idx cs root :
  (size idx < fuel)%nat → is_Some (backfillLoop fuel idx cs root).
Proof.
  revert idx cs root. induction fuel as [|fuel IH]; intros idx cs root Hlt; [lia|].
  simpl. destruct (backfillStep idx cs root) as [[[idx' cs'] root']|] eqn:Hstep; [|eauto].
  apply IH. apply backfillStep_size in Hstep as (_ & _ & ?). lia.
Qed.

Lemma backfillLoop_more fuel fuel' idx cs root cs' :
  backfillLoop fuel idx cs root = Some cs' → (fuel ≤ fuel')%nat →
  backfillLoop fuel' idx cs root = Some cs'.
Proof.
  revert fuel' idx cs root. induction fuel as [|fuel IH]; intros fuel' idx cs root H Hle; [done|].
  destruct fuel' as [|fuel']; [lia|]. simpl in *.
  destruct (backfillStep idx cs root) as [[[idx1 cs1] root1]|]; [|done].
  apply IH; [done | lia].
Qed.

Lemma backfillLoop_SHA fuel idx cs root cs' :
  backfillLoop fuel idx cs root = Some cs' → SHA <$> cs' = SHA <$> cs.
Proof.
  revert idx cs root. induction fuel as [|fuel IH]; intros idx cs root H; [done|].
  simpl in H. destruct (backfillStep idx cs root) as [[[idx1 cs1] root1]|] eqn:Hstep.
  - rewrite (IH _ _ _ H). by eapply backfillStep_SHA.
  - by injection H as <-.
Qed.

Lemma backfillPushedAt_total cs headSHA : is_Some (backfillPushedAt cs headSHA).
Proof.
  apply backfillLoop_total. pose proof (indexBySHA_size cs). lia.
Qed.

Lemma backfillPushedAt_SHA cs headSHA cs' :
  backfillPushedAt cs headSHA = Some cs' → SHA <$> cs' = SHA <$> cs.
Proof. apply backfillLoop_SHA. Qed.

Lemma backfillPushedAt_length cs headSHA cs' :
  backfillPushedAt cs headSHA = Some cs' → List.length cs' = List.length cs.
Proof.
  intros H. apply backfillPushedAt_SHA in H.
  by rewrite <- (length_fmap SHA cs'), H, length_fmap.
Qed.

(** C10. Parent-chain inference ends for every commit list and every head
    SHA, cycles and repeated SHAs included: [backfillPushedAt] returns a
    list; a round of its loop that goes on removes the SHA it visited from
    the index, which shrinks; so a loop started with an index of [n] SHAs
    ends within [n] rounds and the test that leaves it; and the index of a
    commit list holds its distinct SHAs, at most one per commit. *)
Theorem backfillPushedAt_terminates (commits : list Commit) (headSHA : string) :
  is_Some (backfillPushedAt commits headSHA) ∧
  (∀ idx cs root idx' cs' root',
     backfillStep idx cs root = Some (idx', cs', root') →
     is_Some (idx !! root) ∧ idx' = delete root idx ∧ (size idx' < size idx)%nat) ∧
  (∀ fuel idx cs root, (size idx < fuel)%nat → is_Some (backfillLoop fuel idx cs root)) ∧
  size (indexBySHA commits) = List.length (remove_dups (SHA <$> commits)) ∧
  (size (indexBySHA commits) ≤ List.length commits)%nat.
Proof.
  split; [apply backfillPushedAt_total|].
  split; [apply backfillStep_size|].
  split; [apply backfillLoop_total|].
  split; [apply indexBySHA_distinct | apply indexBySHA_size].
Qed.

(** A cycle of first parents, a commit that is its own parent and a SHA
    carried by two commits: the inference ends on each. *)
Example backfillPushedAt_cycles :
  backfillPushedAt [commit "a" ["b"] None; commit "b" ["a"] None; commit "b" ["b"] (Some 3)] "a"
  = Some [commit "a" ["b"] None; commit "b" ["a"] None; commit "b" ["b"] (Some 3)] ∧
  backfillPushedAt [commit "a" ["a"] (Some 1)] "a" = Some [commit "a" ["a"] (Some 1)] ∧
  backfillPushedAt [commit "a" ["b"] (Some 7); commit "b" ["a"] None] "a"
  = Some [commit "a" ["b"] (Some 7); commit "b" ["a"] (Some 7)].
Proof. by vm_compute. Qed.

Lemma assignPushedAt_lookup_ne i j t cs : i ≠ j → assignPushedAt i t cs !! j = cs !! j.
Proof. intros. unfold assignPushedAt. by apply list_lookup_alter_ne. Qed.

Lemma assignPushedAt_lookup_eq i t cs :
  assignPushedAt i t cs !! i = setPushedAt t <$> cs !! i.
Proof. unfold assignPushedAt. apply list_lookup_alter_eq. Qed.

Lemma setPushedAt_same c : setPushedAt (PushedAt c) c = c.
Proof. by destruct c. Qed.

(** A commit that the index no longer points to is left as it is. *)
Lemma backfillLoop_untouched fuel idx cs root cs' i :
  indexValid idx cs → (∀ sha, idx !! sha ≠ Some i) →
  backfillLoop fuel idx cs root = Some cs' → cs' !! i = cs !! i.
Proof.
  revert idx cs root. induction fuel as [|fuel IH]; intros idx cs root Hv Hi H; [done|].
  simpl in H. destruct (backfillStep idx cs root) as [[[idx1 cs1] root1]|] eqn:Hstep.
  - pose proof (backfillStep_valid _ _ _ _ _ _ Hv Hstep) as Hv1.
    apply backfillStep_inv in Hstep
      as (ci & c & p & ps & fi & fp & Hci & Hc & Hp & Hfi & Hfp & -> & -> & ->).
    rewrite (IH _ _ _ Hv1 ltac:(intros sha; rewrite lookup_delete; case_decide; [done | apply Hi]) H).
    destruct (PushedAt fp); [done|].
    apply assignPushedAt_lookup_ne. intros ->. by apply (Hi p).
  - by injection H as <-.
Qed.

(** The pushed date of the commit the loop starts from does not change. *)
Lemma backfillLoop_root fuel idx cs root cs' i :
  indexValid idx cs → idx !! root = Some i →
  backfillLoop fuel idx cs root = Some cs' →
  PushedAt <$> cs' !! i = PushedAt <$> cs !! i.
Proof.
  intros Hv Hi H. destruct fuel as [|fuel]; [done|]. simpl in H.
  destruct (backfillStep idx cs root) as [[[idx1 cs1] root1]|] eqn:Hstep.
  - pose proof (backfillStep_valid _ _ _ _ _ _ Hv Hstep) as Hv1.
    apply backfillStep_inv in Hstep
      as (ci & c & p & ps & fi & fp & Hci & Hc & Hp & Hfi & Hfp & -> & -> & ->).
    assert (ci = i) as -> by congruence.
    assert (∀ sha, delete root idx !! sha ≠ Some i) as Hgone.
    { intros sha. rewrite lookup_delete. case_decide as Hsha; [done|].
      intros Hsha'. apply Hsha. exact (indexValid_inj _ _ _ _ _ Hv Hi Hsha'). }
    rewrite (backfillLoop_untouched _ _ _ _ _ i Hv1 Hgone H).
    destruct (PushedAt fp) eqn:Hfpt; [done|].
    destruct (decide (fi = i)) as [->|Hne].
    + rewrite assignPushedAt_lookup_eq. assert (fp = c) as -> by congruence.
      rewrite Hc. simpl. by rewrite Hfpt.
    + by rewrite assignPushedAt_lookup_ne.
  - by injection H as <-.
Qed.

Lemma deref_delete_ne idx cs root s : s ≠ root → deref (delete root idx) cs s = deref idx cs s.
Proof. intros. unfold deref. by rewrite lookup_delete_ne. Qed.

Lemma deref_assign_other idx cs s i t :
  idx !! s ≠ Some i → deref idx (assignPushedAt i t cs) s = deref idx cs s.
Proof.
  intros Hne. unfold deref. destruct (idx !! s) as [j|]; simpl; [|done].
  apply assignPushedAt_lookup_ne. congruence.
Qed.

Lemma deref_assign_same idx cs s i t :
  idx !! s = Some i → deref idx (assignPushedAt i t cs) s = setPushedAt t <$> deref idx cs s.
Proof. intros Hi. unfold deref. rewrite Hi. simpl. apply assignPushedAt_lookup_eq. Qed.

Lemma deref_assign_parents idx cs s i t :
  Parents <$> deref idx (assignPushedAt i t cs) s = Parents <$> deref idx cs s.
Proof.
  destruct (decide (idx !! s = Some i)) as [Hi|Hi].
  - rewrite (deref_assign_same _ _ _ _ _ Hi). by destruct (deref idx cs s).
  - by rewrite deref_assign_other.
Qed.

(** Along a first-parent chain of distinct SHAs that starts at the root of
    the loop, whose commits after the first have no pushed date, every
    commit ends with the pushed date of the first. *)
Lemma backfillLoop_chain chain : ∀ fuel idx cs root cs' t,
  indexValid idx cs →
  NoDup (root :: chain) →
  (∀ k s s', (root :: chain) !! k = Some s → (root :: chain) !! S k = Some s' →
     ∃ c, deref idx cs s = Some c ∧ head (Parents c) = Some s') →
  PushedAt <$> deref idx cs root = Some t →
  (∀ s, s ∈ chain → PushedAt <$> deref idx cs s = Some None) →
  backfillLoop fuel idx cs root = Some cs' →
  ∀ s, s ∈ root :: chain → PushedAt <$> deref idx cs' s = Some t.
Proof.
  induction chain as [|s1 rest IH];
    intros fuel idx cs root cs' t Hv Hnd Hlink Hroot Hunset H s Hs.
  - apply list_elem_of_singleton in Hs as ->.
    unfold deref in *. destruct (idx !! root) as [i|] eqn:Hi; [|done]. simpl in *.
    by rewrite (backfillLoop_root _ _ _ _ _ _ Hv Hi H).
  - destruct fuel as [|fuel]; [done|]. simpl in H.
    apply NoDup_cons in Hnd as [Hroot_fresh Hnd].
    destruct (Hlink 0%nat root s1 eq_refl eq_refl) as (c0 & Hc0 & Hp0).
    pose proof (Hunset s1 ltac:(left)) as H1.
    unfold deref in Hc0, H1, Hroot.
    destruct (idx !! root) as [i0|] eqn:Hi0; [|done].
    destruct (idx !! s1) as [i1|] eqn:Hi1; [|done]. simpl in Hc0, H1, Hroot.
    destruct (cs !! i1) as [c1|] eqn:Hc1; [|done].
    rewrite Hc0 in Hroot. injection Hroot as Hroot. injection H1 as H1.
    destruct (Parents c0) as [|p0 ps] eqn:Hps; [done|]. injection Hp0 as ->.
    assert (SHA c1 = s1) as Hsha1.
    { pose proof (Hv _ _ Hi1) as Hx. rewrite Hc1 in Hx. by injection Hx. }
    assert (s1 ≠ root) as Hne by (intros ->; apply Hroot_fresh; left).
    unfold backfillStep in H. rewrite Hi0, Hc0, Hps, Hi1, Hc1, H1, Hroot, Hsha1 in H.
    destruct (decide (s = root)) as [->|Hs'].
    + unfold deref. rewrite Hi0. simpl.
      assert (∀ sha, delete root idx !! sha ≠ Some i0) as Hgone.
      { intros sha. rewrite lookup_delete. case_decide as Hsha; [done|].
        intros Hsha'. apply Hsha. exact (indexValid_inj _ _ _ _ _ Hv Hi0 Hsha'). }
      rewrite (backfillLoop_untouched _ _ _ _ _ i0
                 (indexValid_assign _ _ _ _ (indexValid_delete _ _ _ Hv)) Hgone H).
      rewrite assignPushedAt_lookup_ne, Hc0; [by simpl; rewrite Hroot|].
      intros ->. apply Hne. exact (indexValid_inj _ _ _ _ _ Hv Hi1 Hi0).
    + assert (s ∈ s1 :: rest) as Hin by (apply elem_of_cons in Hs as [?|?]; done).
      rewrite <- (deref_delete_ne idx cs' root s Hs').
      eapply (IH fuel (delete root idx) (assignPushedAt i1 t cs) s1 cs' t); try done.
      * by apply indexValid_assign, indexValid_delete.
      * intros k x x' Hx Hx'.
        destruct (Hlink (S k) x x' Hx Hx') as (c & Hc & Hp).
        assert (x ≠ root) as Hxr.
        { intros ->. apply Hroot_fresh. by eapply list_elem_of_lookup_2. }
        pose proof (deref_assign_parents (delete root idx) cs x i1 t) as Hpar.
        rewrite (deref_delete_ne idx cs root x Hxr), Hc in Hpar.
        destruct (deref (delete root idx) (assignPushedAt i1 t cs) x) as [c'|]; [|done].
        injection Hpar as Hpar. exists c'. by rewrite Hpar.
      * rewrite deref_assign_same by by rewrite lookup_delete_ne.
        rewrite deref_delete_ne by done. unfold deref. rewrite Hi1. simpl. by rewrite Hc1.
      * intros x Hx. assert (x ≠ root) as Hxr by (intros ->; apply Hroot_fresh; by right).
        rewrite deref_assign_other, deref_delete_ne; [by apply Hunset; right | done |].
        rewrite lookup_delete_ne by done. intros Hxi.
        apply NoDup_cons in Hnd as [Hs1 _]. apply Hs1.
        by rewrite (indexValid_inj _ _ _ _ _ Hv Hi1 Hxi).
Qed.

Lemma deref_lookupSHA idx cs s :
  indexValid idx cs → dom idx = list_to_set (SHA <$> cs) → NoDup (SHA <$> cs) →
  deref idx cs s = lookupSHA cs s.
Proof.
  intros Hv Hdom Hnd. unfold lookupSHA, deref.
  destruct (List.find _ cs) as [c|] eqn:Hfind.
  - apply find_some in Hfind as [Hin Hsha]. apply bool_decide_eq_true in Hsha.
    apply list_elem_of_In, list_elem_of_lookup in Hin as [j Hj].
    assert (s ∈ dom idx) as Hs.
    { rewrite Hdom, elem_of_list_to_set, list_elem_of_fmap. exists c.
      split; [done|]. apply list_elem_of_lookup. eauto. }
    apply elem_of_dom in Hs as [i Hi]. rewrite Hi. simpl.
    pose proof (Hv _ _ Hi) as Hi'. rewrite <- list_lookup_fmap in Hi'.
    assert ((SHA <$> cs) !! j = Some s) as Hj' by (by rewrite list_lookup_fmap, Hj; simpl; rewrite Hsha).
    by rewrite (NoDup_lookup _ _ _ _ Hnd Hi' Hj').
  - assert (idx !! s = None) as ->; [|done].
    apply not_elem_of_dom. rewrite Hdom, elem_of_list_to_set, list_elem_of_fmap.
    intros (c & -> & Hin). apply list_elem_of_In in Hin.
    pose proof (find_none _ _ Hfind c Hin) as Hc. simpl in Hc.
    by apply bool_decide_eq_false in Hc.
Qed.

Lemma backfillStep_assigns idx cs root idx' cs' root' :
  indexValid idx cs → backfillStep idx cs root = Some (idx', cs', root') →
  ∃ c p, deref idx cs root = Some c ∧ head (Parents c) = Some root' ∧
         deref idx cs root' = Some p ∧
         deref idx cs' root' =
           Some (match PushedAt p with
                 | None => setPushedAt (PushedAt c) p
                 | Some _ => p
                 end).
Proof.
  intros Hv H. apply backfillStep_inv in H
    as (ci & c & p & ps & fi & fp & Hci & Hc & Hp & Hfi & Hfp & -> & -> & ->).
  assert (SHA fp = p) as ->.
  { pose proof (Hv _ _ Hfi) as Hx. rewrite Hfp in Hx. by injection Hx. }
  exists c, fp. unfold deref. rewrite Hci, Hfi, Hp. simpl.
  repeat split; try done.
  destruct (PushedAt fp); [done|]. by rewrite assignPushedAt_lookup_eq, Hfp.
Qed.

(** What [Commits] does with a loaded list when nothing is cached. *)
Lemma Commits_loaded fuel ghc cs ghc1 :
  commits ghc = None → loadCommits fuel ghc = Some (Ok cs, ghc1) →
  Commits fuel ghc =
    if (MaxPullRequestCommits <=? List.length cs)%nat then Some (Err TooManyCommits, ghc1)
    else match backfillPushedAt cs (HeadRefOID (pr ghc)) with
         | Some cs' => Some (Ok cs', withCommits (Some cs') ghc1)
         | None => None
         end.
Proof.
  intros Hnone Hload. unfold Commits, mbind, M_bind, get. rewrite Hnone, Hload.
  destruct (MaxPullRequestCommits <=? List.length cs)%nat; [done|].
  by destruct (backfillPushedAt cs (HeadRefOID (pr ghc))).
Qed.

(** The commit the loop starts from keeps its pushed date. *)
Lemma backfillLoop_root_deref fuel idx cs root cs' :
  indexValid idx cs → backfillLoop fuel idx cs root = Some cs' →
  PushedAt <$> deref idx cs' root = PushedAt <$> deref idx cs root.
Proof.
  intros Hv H. unfold deref. destruct (idx !! root) as [i|] eqn:Hi; [|done]. simpl.
  by eapply backfillLoop_root.
Qed.

Lemma assignPushedAt_own i cs c :
  cs !! i = Some c → assignPushedAt i (PushedAt c) cs = cs.
Proof.
  intros Hc. apply list_eq. intros j. destruct (decide (i = j)) as [<-|Hne].
  - by rewrite assignPushedAt_lookup_eq, Hc; simpl; rewrite setPushedAt_same.
  - by apply assignPushedAt_lookup_ne.
Qed.

(** A round whose commit and first parent are in the index goes on to the
    parent, whether the parent has a pushed date or not. *)
Lemma backfillStep_found idx cs root c s1 c1 :
  indexValid idx cs →
  deref idx cs root = Some c → head (Parents c) = Some s1 → deref idx cs s1 = Some c1 →
  ∃ i1, idx !! s1 = Some i1 ∧ cs !! i1 = Some c1 ∧
    backfillStep idx cs root
    = Some (delete root idx,
            assignPushedAt i1 (match PushedAt c1 with
                               | None => PushedAt c
                               | Some _ => PushedAt c1
                               end) cs,
            s1).
Proof.
  intros Hv Hc Hp Hc1. unfold deref in Hc, Hc1.
  destruct (idx !! root) as [i0|] eqn:Hi0; [|done].
  destruct (idx !! s1) as [i1|] eqn:Hi1; [|done]. simpl in Hc, Hc1.
  destruct (Parents c) as [|p ps] eqn:Hps; [done|]. injection Hp as ->.
  assert (SHA c1 = s1) as Hsha.
  { pose proof (Hv _ _ Hi1) as Hx. rewrite Hc1 in Hx. by injection Hx. }
  exists i1. split; [done|]. split; [done|].
  unfold backfillStep. rewrite Hi0, Hc, Hps, Hi1, Hc1, Hsha.
  destruct (PushedAt c1) as [t1|] eqn:Ht; [|done].
  rewrite <- Ht. by rewrite (assignPushedAt_own _ _ _ Hc1).
Qed.

(** The loop stops at a SHA that is not in the index, at a commit without
    parents and at a commit whose first parent is not in the index. *)
Lemma backfillStep_stops idx cs root :
  match Parents <$> deref idx cs root with
  | Some (p :: _) => deref idx cs p = None
  | _ => True
  end →
  backfillStep idx cs root = None.
Proof.
  unfold backfillStep, deref. destruct (idx !! root) as [i|]; [|done]. simpl.
  destruct (cs !! i) as [c|]; [|done]. simpl.
  destruct (Parents c) as [|p ps]; [done|].
  destruct (idx !! p) as [j|]; [|done]. simpl. by intros ->.
Qed.

Lemma deref_step idx cs root i1 t1 s :
  indexValid idx cs → s ≠ root → idx !! s ≠ Some i1 →
  deref (delete root idx) (assignPushedAt i1 t1 cs) s = deref idx cs s.
Proof.
  intros Hv Hs Hi. rewrite deref_assign_other by (by rewrite lookup_delete_ne).
  by apply deref_delete_ne.
Qed.

Lemma deref_step_parents idx cs root i1 t1 s :
  s ≠ root →
  Parents <$> deref (delete root idx) (assignPushedAt i1 t1 cs) s
  = Parents <$> deref idx cs s.
Proof. intros Hs. by rewrite deref_assign_parents, deref_delete_ne. Qed.

(** Along a first-parent chain of distinct SHAs that starts at the root of
    the loop, a commit that had a pushed date keeps it, and a commit that
    had none ends with the pushed date that its child ends with. *)
Lemma backfillLoop_inherits chain : ∀ fuel idx cs root cs',
  indexValid idx cs → NoDup (root :: chain) →
  (∀ k s s', (root :: chain) !! k = Some s → (root :: chain) !! S k = Some s' →
     ∃ c, deref idx cs s = Some c ∧ head (Parents c) = Some s') →
  backfillLoop fuel idx cs root = Some cs' →
  ∀ k s s' d, (root :: chain) !! k = Some s → (root :: chain) !! S k = Some s' →
    PushedAt <$> deref idx cs s' = Some d →
    ∃ dc, PushedAt <$> deref idx cs' s = Some dc ∧
          PushedAt <$> deref idx cs' s'
          = Some (match d with Some _ => d | None => dc end).
Proof.
  induction chain as [|s1 rest IH];
    intros fuel idx cs root cs' Hv Hnd Hlink H k s s' d Hs Hs' Hd.
  { by destruct k. }
  pose proof (backfillLoop_root_deref _ _ _ _ _ Hv H) as Hroot.
  destruct fuel as [|fuel]; [done|]. simpl in H.
  pose proof Hnd as Hnd0. apply NoDup_cons in Hnd as [Hfresh Hnd].
  destruct (Hlink 0%nat root s1 eq_refl eq_refl) as (c0 & Hc0 & Hp0).
  assert (s1 ≠ root) as Hne by (intros ->; apply Hfresh; left).
  assert (∃ c1, deref idx cs s1 = Some c1) as [c1 Hc1].
  { destruct k as [|k]; simpl in Hs, Hs'.
    - injection Hs' as <-. destruct (deref idx cs s1) as [c1|]; [eauto | done].
    - destruct rest as [|r rest']; [by destruct k|].
      destruct (Hlink 1%nat s1 r eq_refl eq_refl) as (c & Hc & _). eauto. }
  destruct (backfillStep_found _ _ _ _ _ _ Hv Hc0 Hp0 Hc1) as (i1 & Hi1 & Hci1 & Hstep).
  rewrite Hstep in H.
  set (t1 := match PushedAt c1 with None => PushedAt c0 | Some _ => PushedAt c1 end) in *.
  assert (indexValid (delete root idx) (assignPushedAt i1 t1 cs)) as Hv1
    by (by apply indexValid_assign, indexValid_delete).
  assert (∀ x, x ∈ rest → x ≠ root ∧ idx !! x ≠ Some i1) as Hrest.
  { intros x Hx. split.
    - intros ->. apply Hfresh. by right.
    - intros Hxi. apply NoDup_cons in Hnd as [Hs1 _]. apply Hs1.
      by rewrite (indexValid_inj _ _ _ _ _ Hv Hi1 Hxi). }
  destruct k as [|k]; simpl in Hs, Hs'.
  - injection Hs as <-. injection Hs' as <-.
    rewrite Hc1 in Hd. injection Hd as <-.
    exists (PushedAt c0). split; [by rewrite Hroot, Hc0|].
    rewrite <- (deref_delete_ne idx cs' root s1 Hne).
    rewrite (backfillLoop_root_deref _ _ _ _ _ Hv1 H).
    rewrite deref_assign_same by (by rewrite lookup_delete_ne).
    rewrite deref_delete_ne by done. rewrite Hc1. simpl. subst t1.
    by destruct (PushedAt c1).
  - assert (s ≠ root) as Hsr.
    { intros ->. apply Hfresh. by eapply list_elem_of_lookup_2. }
    destruct (Hrest s' ltac:(by eapply list_elem_of_lookup_2)) as [Hs'r Hs'i].
    destruct (IH fuel (delete root idx) (assignPushedAt i1 t1 cs) s1 cs' Hv1 Hnd)
      with (k := k) (s := s) (s' := s') (d := d) as (dc & H1 & H2); try done.
    + intros j x x' Hx Hx'.
      destruct (Hlink (S j) x x' Hx Hx') as (c & Hc & Hp).
      assert (x ≠ root) as Hxr.
      { intros ->. apply Hfresh. by eapply list_elem_of_lookup_2. }
      pose proof (deref_step_parents idx cs root i1 t1 x Hxr) as Hpar.
      rewrite Hc in Hpar.
      destruct (deref (delete root idx) (assignPushedAt i1 t1 cs) x) as [c'|]; [|done].
      injection Hpar as Hpar. exists c'. by rewrite Hpar.
    + by rewrite deref_step.
    + exists dc. by rewrite <- (deref_delete_ne idx cs' root s),
                          <- (deref_delete_ne idx cs' root s').
Qed.

(** When the chain ends where the loop stops, the loop assigns to commits
    of the chain only. *)
Lemma backfillLoop_frame chain : ∀ fuel idx cs root cs' sl,
  indexValid idx cs → NoDup (root :: chain) →
  (∀ k s s', (root :: chain) !! k = Some s → (root :: chain) !! S k = Some s' →
     ∃ c, deref idx cs s = Some c ∧ head (Parents c) = Some s') →
  last (root :: chain) = Some sl →
  match Parents <$> deref idx cs sl with
  | Some (p :: _) => deref idx cs p = None
  | _ => True
  end →
  backfillLoop fuel idx cs root = Some cs' →
  ∀ i, (∀ s, s ∈ chain → idx !! s ≠ Some i) → cs' !! i = cs !! i.
Proof.
  induction chain as [|s1 rest IH];
    intros fuel idx cs root cs' sl Hv Hnd Hlink Hlast Hend H i Hi.
  - injection Hlast as <-. destruct fuel as [|fuel]; [done|]. simpl in H.
    rewrite (backfillStep_stops _ _ _ Hend) in H. by injection H as <-.
  - destruct fuel as [|fuel]; [done|]. simpl in H.
    apply NoDup_cons in Hnd as [Hfresh Hnd].
    destruct (Hlink 0%nat root s1 eq_refl eq_refl) as (c0 & Hc0 & Hp0).
    assert (s1 ≠ root) as Hne by (intros ->; apply Hfresh; left).
    destruct (deref idx cs s1) as [c1|] eqn:Hc1.
    + destruct (backfillStep_found _ _ _ _ _ _ Hv Hc0 Hp0 Hc1) as (i1 & Hi1 & Hci1 & Hstep).
      rewrite Hstep in H.
      set (t1 := match PushedAt c1 with None => PushedAt c0 | Some _ => PushedAt c1 end) in *.
      assert (indexValid (delete root idx) (assignPushedAt i1 t1 cs)) as Hv1
        by (by apply indexValid_assign, indexValid_delete).
      rewrite last_cons_cons in Hlast.
      assert (sl ≠ root) as Hslr.
      { intros ->. apply Hfresh. by apply last_Some_elem_of. }
      rewrite (IH fuel (delete root idx) (assignPushedAt i1 t1 cs) s1 cs' sl Hv1 Hnd);
        try done.
      * apply assignPushedAt_lookup_ne. intros ->. apply (Hi s1); [left | done].
      * intros j x x' Hx Hx'.
        destruct (Hlink (S j) x x' Hx Hx') as (c & Hc & Hp).
        assert (x ≠ root) as Hxr.
        { intros ->. apply Hfresh. by eapply list_elem_of_lookup_2. }
        pose proof (deref_step_parents idx cs root i1 t1 x Hxr) as Hpar.
        rewrite Hc in Hpar.
        destruct (deref (delete root idx) (assignPushedAt i1 t1 cs) x) as [c'|]; [|done].
        injection Hpar as Hpar. exists c'. by rewrite Hpar.
      * rewrite (deref_step_parents idx cs root i1 t1 sl Hslr).
        destruct (Parents <$> deref idx cs sl) as [[|p ps]|]; try done.
        destruct (decide (p = root)) as [->|Hpr].
        { unfold deref. by rewrite lookup_delete_eq. }
        pose proof (deref_step_parents idx cs root i1 t1 p Hpr) as Hpar.
        rewrite Hend in Hpar.
        by destruct (deref (delete root idx) (assignPushedAt i1 t1 cs) p).
      * intros x Hx. rewrite lookup_delete. case_decide; [done|]. apply Hi. by right.
    + rewrite backfillStep_stops in H; [by injection H as <-|].
      rewrite Hc0. simpl. destruct (Parents c0) as [|p ps]; [done|].
      by injection Hp0 as ->.
Qed.

(** C7. Parent-chain inference starts at the head SHA and follows first
    parents. On a list of distinct SHAs and along a chain of distinct SHAs
    from the head along first parents, the head keeps its pushed date, a
    commit that has a pushed date keeps it, and a commit that has none ends
    with the pushed date that its child ends with; so when only the head
    has a pushed date (head, A, B, C is such a chain of three), every commit
    of the chain ends with the head's. When the chain ends where the
    inference stops, commits off the chain are left as they are. A round of
    the loop whose commit and first parent are in the index goes on to the
    parent, whether the parent has a pushed date or not, assigns to the
    parent only, and only if the parent has no pushed date; the loop stops
    at a SHA that is absent from the index, at a commit without parents and
    at a commit whose first parent is absent. [Commits] runs the inference
    on every list it loads within the ceiling, from a fork or not, and
    caches its result. *)
Theorem backfillPushedAt_first_parent_chain
    (commits0 : list Commit) (headSHA : string) (chain : list string) :
  NoDup (SHA <$> commits0) → NoDup (headSHA :: chain) →
  firstParentChain commits0 (headSHA :: chain) →
  (∃ commits', backfillPushedAt commits0 headSHA = Some commits' ∧
     SHA <$> commits' = SHA <$> commits0 ∧
     pushedAtOf commits' headSHA = pushedAtOf commits0 headSHA ∧
     (∀ k s s' d,
        (headSHA :: chain) !! k = Some s → (headSHA :: chain) !! S k = Some s' →
        pushedAtOf commits0 s' = Some d →
        ∃ dc, pushedAtOf commits' s = Some dc ∧
              pushedAtOf commits' s' = Some (match d with Some _ => d | None => dc end)) ∧
     (∀ t, pushedAtOf commits0 headSHA = Some t →
           (∀ s, s ∈ chain → pushedAtOf commits0 s = Some None) →
           ∀ s, s ∈ headSHA :: chain → pushedAtOf commits' s = Some t) ∧
     (chainEnds commits0 (headSHA :: chain) →
      ∀ i c, commits0 !! i = Some c → SHA c ∉ chain → commits' !! i = Some c)) ∧
  (∀ idx cs root idx' cs' root',
     indexValid idx cs → backfillStep idx cs root = Some (idx', cs', root') →
     ∃ c p i, deref idx cs root = Some c ∧ head (Parents c) = Some root' ∧
              idx !! root' = Some i ∧ cs !! i = Some p ∧
              cs' !! i = Some (match PushedAt p with
                               | None => setPushedAt (PushedAt c) p
                               | Some _ => p
                               end) ∧
              (∀ j, j ≠ i → cs' !! j = cs !! j) ∧
              idx' = delete root idx) ∧
  (∀ idx cs root c s',
     indexValid idx cs → deref idx cs root = Some c → head (Parents c) = Some s' →
     is_Some (deref idx cs s') →
     ∃ idx' cs', backfillStep idx cs root = Some (idx', cs', s') ∧
       ∀ fuel, backfillLoop (S fuel) idx cs root = backfillLoop fuel idx' cs' s') ∧
  (∀ fuel idx cs root, idx !! root = None → backfillLoop (S fuel) idx cs root = Some cs) ∧
  (∀ fuel idx cs root c,
     deref idx cs root = Some c → Parents c = [] →
     backfillLoop (S fuel) idx cs root = Some cs) ∧
  (∀ fuel idx cs root c p,
     deref idx cs root = Some c → head (Parents c) = Some p → idx !! p = None →
     backfillLoop (S fuel) idx cs root = Some cs) ∧
  (∀ fuel ghc cs ghc1,
     commits ghc = None → loadCommits fuel ghc = Some (Ok cs, ghc1) →
     (List.length cs < MaxPullRequestCommits)%nat →
     ∃ cs', backfillPushedAt cs (HeadRefOID (pr ghc)) = Some cs' ∧
            Commits fuel ghc = Some (Ok cs', withCommits (Some cs') ghc1)).
Proof.
  intros Hnd Hchain Hlink.
  pose proof (indexBySHA_valid commits0) as Hv.
  pose proof (indexBySHA_dom commits0) as Hdom.
  assert (∀ k s s', (headSHA :: chain) !! k = Some s → (headSHA :: chain) !! S k = Some s' →
            ∃ c, deref (indexBySHA commits0) commits0 s = Some c ∧
                 head (Parents c) = Some s') as Hlink'.
  { intros k x x' Hx Hx'. rewrite deref_lookupSHA by done. by eapply Hlink. }
  split; [|split; [|split; [|split; [|split; [|split]]]]].
  - destruct (backfillPushedAt_total commits0 headSHA) as [cs' Hcs'].
    pose proof (backfillPushedAt_SHA _ _ _ Hcs') as Hsha.
    assert (∀ s, pushedAtOf cs' s = PushedAt <$> deref (indexBySHA commits0) cs' s) as Hafter.
    { intros s. unfold pushedAtOf.
      rewrite <- (deref_lookupSHA (indexBySHA commits0) cs' s);
        [done | by eapply indexValid_SHA | by rewrite Hsha | by rewrite Hsha]. }
    assert (∀ s, pushedAtOf commits0 s
                 = PushedAt <$> deref (indexBySHA commits0) commits0 s) as Hbefore.
    { intros s. unfold pushedAtOf. by rewrite deref_lookupSHA. }
    exists cs'. split; [done|]. split; [done|]. split; [|split; [|split]].
    + rewrite Hafter, Hbefore. by eapply backfillLoop_root_deref.
    + intros k s s' d Hs Hs' Hd. rewrite Hbefore in Hd.
      destruct (backfillLoop_inherits chain _ _ _ _ _ Hv Hchain Hlink' Hcs' k s s' d Hs Hs' Hd)
        as (dc & H1 & H2).
      exists dc. by rewrite !Hafter.
    + intros t Hhead Hunset s Hs. rewrite Hafter.
      eapply (backfillLoop_chain chain _ _ commits0 headSHA cs' t); try done.
      * by rewrite <- Hbefore.
      * intros x Hx. rewrite <- Hbefore. by apply Hunset.
    + intros (sl & Hlast & Hend) i c Hc Hoff.
      rewrite <- Hc.
      eapply (backfillLoop_frame chain _ _ commits0 headSHA cs' sl); try done.
      * rewrite deref_lookupSHA by done.
        destruct (Parents <$> lookupSHA commits0 sl) as [[|p ps]|]; try done.
        by rewrite deref_lookupSHA.
      * intros s Hs Hi. apply Hoff. apply Hv in Hi. rewrite Hc in Hi.
        injection Hi as ->. done.
  - intros idx cs root idx' cs' root' Hv' H. apply backfillStep_inv in H
      as (ci & c & p & ps & fi & fp & Hci & Hc & Hp & Hfi & Hfp & -> & -> & ->).
    assert (SHA fp = p) as ->.
    { pose proof (Hv' _ _ Hfi) as Hx. rewrite Hfp in Hx. by injection Hx. }
    exists c, fp, fi. unfold deref. rewrite Hci, Hp. simpl.
    do 4 (split; [done|]). split; [|split; [|done]].
    + destruct (PushedAt fp); [done|]. by rewrite assignPushedAt_lookup_eq, Hfp.
    + intros j Hj. destruct (PushedAt fp); [done|]. by apply assignPushedAt_lookup_ne.
  - intros idx cs root c s' Hv' Hc Hp [c1 Hc1].
    destruct (backfillStep_found _ _ _ _ _ _ Hv' Hc Hp Hc1) as (i1 & _ & _ & Hstep).
    do 2 eexists. split; [exact Hstep|]. intros fuel. simpl. by rewrite Hstep.
  - intros fuel idx cs root Hroot. simpl. unfold backfillStep. by rewrite Hroot.
  - intros fuel idx cs root c Hc Hp. simpl. unfold backfillStep. unfold deref in Hc.
    destruct (idx !! root) as [i|]; [|done]. simpl in Hc. by rewrite Hc, Hp.
  - intros fuel idx cs root c p Hc Hp Hnone. simpl.
    rewrite backfillStep_stops; [done|]. rewrite Hc. simpl.
    destruct (Parents c) as [|q qs]; [done|]. injection Hp as ->.
    unfold deref. by rewrite Hnone.
  - intros fuel ghc cs ghc1 Hnone Hload Hlen.
    destruct (backfillPushedAt_total cs (HeadRefOID (pr ghc))) as [cs' Hcs'].
    exists cs'. split; [done|]. rewrite (Commits_loaded _ _ _ _ Hnone Hload), Hcs'.
    destruct (Nat.leb_spec MaxPullRequestCommits (List.length cs)); [lia | done].
Qed.

(** The chain head, A, B, C of the specification: only the head has a
    pushed date before, all four have it after. *)
Lemma backfillPushedAt_linear_chain :
  ∃ commits', backfillPushedAt linearChain "head" = Some commits' ∧
    SHA <$> commits' = SHA <$> linearChain ∧
    ∀ s, s ∈ ["head"; "A"; "B"; "C"] → pushedAtOf commits' s = Some (Some 42).
Proof.
  assert (NoDup (SHA <$> linearChain)) as H1 by (apply (bool_decide_unpack _); by vm_compute).
  assert (NoDup ["head"; "A"; "B"; "C"]) as H2 by (apply (bool_decide_unpack _); by vm_compute).
  assert (firstParentChain linearChain ["head"; "A"; "B"; "C"]) as H3.
  { intros k s s' Hs Hs'.
    destruct k as [|[|[|k]]]; simpl in Hs, Hs'; try discriminate;
      injection Hs as <-; injection Hs' as <-; eexists; split; reflexivity. }
  destruct (proj1 (backfillPushedAt_first_parent_chain
                     linearChain "head" ["A"; "B"; "C"] H1 H2 H3))
    as (commits' & Hrun & Hsha & _ & _ & Hall & _).
  exists commits'. split; [exact Hrun|]. split; [exact Hsha|].
  apply (Hall (Some 42)).
  - reflexivity.
  - intros s Hs. repeat (apply elem_of_cons in Hs as [->|Hs]; [reflexivity|]).
    by apply elem_of_nil in Hs.
Defined.

(** The inference goes past a first parent that has a pushed date of its
    own: p1 keeps its date and hands it on to root, and p2, which is off
    the first-parent chain, stays as it is. *)
Example backfillPushedAt_past_dated_parent :
  backfillPushedAt datedParent "head"
  = Some [commit "p2" [] None; commit "p1" ["root"] (Some 5); commit "root" [] (Some 5);
          commit "head" ["p1"; "p2"] (Some 9)].
Proof. by vm_compute. Qed.

(** ** Actor normalisation *)

(** C8. Actor normalisation: for an actor of type Bot the login with the
    suffix "[bot]" appended, for an actor of any other type the login
    unchanged, and for a commit author or committer without an account the
    empty string; the result is always a string, there is no failure. *)
Theorem GetV3Login_normalizes (a : v4Actor) :
  (actorType a = "Bot" → GetV3Login a = actorLogin a +:+ "[bot]") ∧
  (actorType a ≠ "Bot" → GetV3Login a = actorLogin a) ∧
  GitActor_GetV3Login {| gitUser := None |} = "" ∧
  GitActor_GetV3Login {| gitUser := Some a |} = GetV3Login a.
Proof.
  unfold GetV3Login. repeat split.
  - intros H. by rewrite bool_decide_eq_true_2.
  - intros H. by rewrite bool_decide_eq_false_2.
Qed.

Example GetV3Login_examples :
  GetV3Login {| actorType := "Bot"; actorLogin := "deploy-bot" |} = "deploy-bot[bot]" ∧
  GetV3Login {| actorType := "User"; actorLogin := "alice" |} = "alice" ∧
  Committer (commit "c" [] None) = "".
Proof. by vm_compute. Qed.

(** ** Size ceilings *)

Lemma appendAll_elems {A : Type} (xs : list A) : elems (appendAll None xs) = xs.
Proof. by destruct xs. Qed.

Lemma ChangedFiles_listed fuel ghc allFiles ghc1 :
  files ghc = None → listAllFiles fuel 0 [] ghc = Some (Ok allFiles, ghc1) →
  ChangedFiles fuel ghc =
    Some (if (MaxPullRequestFiles <=? List.length allFiles)%nat then Err TooManyFiles
          else Ok (toFile <$> allFiles),
          withFiles (appendAll None (toFile <$> allFiles)) ghc1).
Proof.
  intros Hnone Hlist.
  assert (files ghc1 = None) as Hnone1.
  { apply listAllFiles_issues, advances_caches in Hlist. unfold caches in Hlist. congruence. }
  unfold ChangedFiles, mbind, M_bind, get, modify. rewrite Hnone, Hlist, Hnone1. simpl.
  rewrite appendAll_elems, length_fmap.
  by destruct (MaxPullRequestFiles <=? List.length allFiles)%nat.
Qed.

Lemma ChangedFiles_cached fuel ghc fs :
  files ghc = Some fs →
  ChangedFiles fuel ghc =
    Some (if (MaxPullRequestFiles <=? List.length fs)%nat then Err TooManyFiles else Ok fs, ghc).
Proof.
  intros Hfs. unfold ChangedFiles, mbind, M_bind, get. simpl. repeat (rewrite Hfs; simpl).
  by destruct (MaxPullRequestFiles <=? List.length fs)%nat.
Qed.

Lemma ChangedFiles_list_error fuel ghc e ghc1 :
  files ghc = None → listAllFiles fuel 0 [] ghc = Some (Err e, ghc1) →
  ChangedFiles fuel ghc = Some (Err e, ghc1).
Proof.
  intros Hnone Hlist. unfold ChangedFiles, mbind, M_bind, get. by rewrite Hnone, Hlist.
Qed.

(** C3. Once the files are listed, [ChangedFiles] fails with the
    size-exceeded error exactly when there are 300 of them or more, and
    otherwise returns them; once the commits are loaded, [Commits] fails
    with the size-exceeded error exactly when there are 250 of them or
    more, and otherwise returns them after the parent-chain inference. *)
Theorem size_ceilings (fuel : nat) (ghc : GitHubContext) :
  (∀ allFiles ghc1,
     files ghc = None → listAllFiles fuel 0 [] ghc = Some (Ok allFiles, ghc1) →
     ∃ ghc',
       ((MaxPullRequestFiles ≤ List.length allFiles)%nat →
        ChangedFiles fuel ghc = Some (Err TooManyFiles, ghc')) ∧
       ((List.length allFiles < MaxPullRequestFiles)%nat →
        ChangedFiles fuel ghc = Some (Ok (toFile <$> allFiles), ghc'))) ∧
  (∀ fs,
     files ghc = Some fs →
     ((MaxPullRequestFiles ≤ List.length fs)%nat →
      ChangedFiles fuel ghc = Some (Err TooManyFiles, ghc)) ∧
     ((List.length fs < MaxPullRequestFiles)%nat →
      ChangedFiles fuel ghc = Some (Ok fs, ghc))) ∧
  (∀ cs ghc1,
     commits ghc = None → loadCommits fuel ghc = Some (Ok cs, ghc1) →
     ((MaxPullRequestCommits ≤ List.length cs)%nat →
      Commits fuel ghc = Some (Err TooManyCommits, ghc1)) ∧
     ((List.length cs < MaxPullRequestCommits)%nat →
      ∃ cs', backfillPushedAt cs (HeadRefOID (pr ghc)) = Some cs' ∧
             List.length cs' = List.length cs ∧
             Commits fuel ghc = Some (Ok cs', withCommits (Some cs') ghc1))) ∧
  MaxPullRequestFiles = 300%nat ∧ MaxPullRequestCommits = 250%nat.
Proof.
  split; [|split; [|split; [|done]]].
  - intros allFiles ghc1 Hnone Hlist. eexists.
    rewrite (ChangedFiles_listed _ _ _ _ Hnone Hlist).
    split; intros Hlen;
      destruct (Nat.leb_spec MaxPullRequestFiles (List.length allFiles)); (done || lia).
  - intros fs Hfs. rewrite (ChangedFiles_cached _ _ _ Hfs).
    split; intros Hlen;
      destruct (Nat.leb_spec MaxPullRequestFiles (List.length fs)); (done || lia).
  - intros cs ghc1 Hnone Hload. rewrite (Commits_loaded _ _ _ _ Hnone Hload).
    split; intros Hlen;
      destruct (Nat.leb_spec MaxPullRequestCommits (List.length cs)); try (done || lia).
    destruct (backfillPushedAt_total cs (HeadRefOID (pr ghc))) as [cs' Hcs'].
    exists cs'. rewrite Hcs'. split; [done|]. split; [|done].
    by eapply backfillPushedAt_length.
Qed.

(** The boundaries: 300 files fail and 299 are returned; 250 commits fail
    and 249 are returned. *)
Example ChangedFiles_boundary :
  fst <$> ChangedFiles 5 (newContext (filesClient 300) noV4Client false)
    = Some (Err TooManyFiles) ∧
  fst <$> ChangedFiles 5 (newContext (filesClient 299) noV4Client false)
    = Some (Ok (replicate 299 (toFile exampleFile))).
Proof. by vm_compute. Qed.

Example Commits_boundary :
  fst <$> Commits 5 (newContext noClient (commitsServer (commitList 250)) false)
    = Some (Err TooManyCommits) ∧
  fst <$> Commits 5 (newContext noClient (commitsServer (commitList 249)) false)
    = Some (Ok (replicate 248 (commit "c" [] (Some 1)) ++ [commit "head" ["c"] (Some 2)])).
Proof. by vm_compute. Qed.

(** ** Fetches and sleeps of the commit loader *)

Lemma fetches_app t1 t2 : fetches (t1 ++ t2) = (fetches t1 + fetches t2)%nat.
Proof. unfold fetches. by rewrite filter_app, length_app. Qed.

Lemma fetches_none evs : Forall (fun ev => ev ≠ EvQueryCommits None) evs → fetches evs = 0%nat.
Proof.
  unfold fetches. induction 1 as [|ev evs Hev _ IH]; [done|].
  by rewrite filter_cons_False.
Qed.

Lemma sleeps_app t1 t2 : sleeps (t1 ++ t2) = sleeps t1 ++ sleeps t2.
Proof. apply omap_app. Qed.

Lemma sleeps_none evs : Forall (fun ev => ∀ d, ev ≠ EvSleep d) evs → sleeps evs = [].
Proof.
  unfold sleeps. induction 1 as [|ev evs Hev _ IH]; [done|].
  destruct ev; simpl; try exact IH. by destruct (Hev d).
Qed.

Lemma UpdateCursor_more info cursor cursor' :
  UpdateCursor info cursor = (cursor', true) → ∃ c, cursor' = Some c.
Proof.
  unfold UpdateCursor. destruct (HasNextPage info), (EndCursor info); intros [= <-]; eauto.
Qed.

Lemma query_inv {A : Type} ev message (ask : GitHubContext → string + A) ghc r ghc' :
  query ev message ask ghc = Some (r, ghc') →
  ghc' = logged ev ghc ∧
  ((∃ a, ask ghc = inr a ∧ r = Ok a) ∨ (∃ cause, ask ghc = inl cause ∧ r = Err (Wrap cause message))).
Proof.
  unfold query. destruct (ask ghc) as [cause|a]; intros [= <- <-]; split; eauto.
Qed.

(** A fetch of the raw commits asks for the page at the cursor it starts
    from, and after that only for pages at a cursor that is set. *)
Lemma loadRawCommitsLoop_trace fuel cursor acc ghc r ghc1 :
  loadRawCommitsLoop fuel cursor acc ghc = Some (r, ghc1) →
  ∃ evs, ghc1 = logAll (EvQueryCommits cursor :: evs) ghc ∧ Forall isLaterPage evs.
Proof.
  revert cursor acc ghc. induction fuel as [|fuel IH]; intros cursor acc ghc H; [done|].
  simpl in H. apply bind_inv in H as [([info nodes] & ghc' & Hq & H)|(e & Hq & _)].
  - apply query_inv in Hq as [-> _].
    destruct (UpdateCursor info cursor) as [cursor' more] eqn:Hupd. destruct more; simpl in H.
    + apply UpdateCursor_more in Hupd as [c ->].
      apply IH in H as (evs & -> & Hevs). exists (EvQueryCommits (Some c) :: evs).
      split; [done|]. constructor; [by exists c | done].
    + injection H as <- <-. by exists [].
  - apply query_inv in Hq as [-> _]. by exists [].
Qed.

Lemma loadCommitsAttempt_trace fuel ghc r ghc1 :
  loadCommitsAttempt fuel ghc = Some (r, ghc1) →
  fetches (trace ghc1) = S (fetches (trace ghc)) ∧
  sleeps (trace ghc1) = sleeps (trace ghc) ∧
  caches ghc1 = caches ghc ∧ pr ghc1 = pr ghc.
Proof.
  intros H.
  assert (∃ evs hist, ghc1 = logAll hist (logAll (EvQueryCommits None :: evs) ghc) ∧
                      Forall isLaterPage evs ∧ Forall isQueryHistory hist)
    as (evs & hist & -> & Hevs & Hhist).
  { unfold loadCommitsAttempt in H.
    apply bind_inv in H as [(raw & ghc' & Hraw & H)|(e & Hraw & _)].
    - apply loadRawCommitsLoop_trace in Hraw as (evs & -> & Hevs). exists evs.
      assert (issues isQueryHistory
                (ghc0 ← get;
                 let cs := map (fun r => ToCommit (prCommit r)) raw in
                 match findHead (HeadRefOID (pr ghc0)) cs with
                 | None => throw (HeadCommitMissing (HeadRefOID (pr ghc0)))
                 | Some head =>
                     cs' ← (if IsCrossRepository (pr ghc0)
                               && bool_decide (headPushedAt cs head = None)
                            then loadPushedAt fuel cs else mret cs);
                     mret (cs', head)
                 end)) as Hrest.
      { apply issues_bind; [apply issues_get|]. intros ghc0. cbv zeta.
        destruct (findHead _ _) as [h|]; [|apply issues_throw].
        apply issues_bind; [|intros; apply issues_ret].
        match goal with |- context [if ?b then _ else _] => destruct b end;
          [apply loadPushedAt_issues | apply issues_ret]. }
      apply Hrest in H as (hist & -> & Hhist). by exists hist.
    - apply loadRawCommitsLoop_trace in Hraw as (evs & -> & Hevs). by exists evs, []. }
  rewrite !logAll_trace, !logAll_caches, !logAll_pr.
  rewrite !fetches_app, !sleeps_app.
  rewrite (fetches_none hist), (sleeps_none hist), (sleeps_none (_ :: evs)).
  - change (EvQueryCommits None :: evs) with ([EvQueryCommits None] ++ evs).
    rewrite fetches_app, (fetches_none evs).
    + rewrite !app_nil_r. split; [|done].
      assert (fetches [EvQueryCommits None] = 1%nat) as -> by done. lia.
    + eapply Forall_impl; [done|]. by intros ev [c ->].
  - constructor; [done|]. eapply Forall_impl; [done|]. by intros ev [c ->].
  - eapply Forall_impl; [done|]. by intros ev [c ->].
  - eapply Forall_impl; [done|]. by intros ev [c ->].
Qed.

Lemma findHeadFrom_absent h cs :
  (∀ c, c ∈ cs → SHA c ≠ h) → ∀ i acc, findHeadFrom h i cs acc = acc.
Proof.
  induction cs as [|c cs IH]; intros Hcs i acc; simpl; [done|].
  rewrite bool_decide_eq_false_2 by (apply Hcs; left). apply IH.
  intros c' Hc'. apply Hcs. by right.
Qed.

(** A round of the loop of [loadCommits] after its fetch. *)
Lemma loadCommitsAttempt_fetched fuel ghc raw ghc1 :
  loadRawCommits fuel ghc = Some (Ok raw, ghc1) →
  loadCommitsAttempt fuel ghc =
    let cs := map (fun r => ToCommit (prCommit r)) raw in
    match findHead (HeadRefOID (pr ghc)) cs with
    | None => Some (Err (HeadCommitMissing (HeadRefOID (pr ghc))), ghc1)
    | Some head =>
        if IsCrossRepository (pr ghc) && bool_decide (headPushedAt cs head = None)
        then match loadPushedAt fuel cs ghc1 with
             | Some (Ok cs', ghc2) => Some (Ok (cs', head), ghc2)
             | Some (Err e, ghc2) => Some (Err e, ghc2)
             | None => None
             end
        else Some (Ok (cs, head), ghc1)
    end.
Proof.
  intros Hraw.
  assert (pr ghc1 = pr ghc) as Hpr by (by eapply advances_pr, loadRawCommitsLoop_issues).
  unfold loadCommitsAttempt. rewrite (bind_ok _ _ _ _ _ Hraw).
  unfold mbind, M_bind, get, mret, M_ret. cbv zeta. rewrite Hpr.
  destruct (findHead _ _) as [head|]; [|done].
  destruct (IsCrossRepository (pr ghc) && _); [|done].
  by destruct (loadPushedAt _ _ ghc1) as [[[cs'|e] ghc2]|].
Qed.

Lemma loadCommitsLoop_attempt_err rounds fuel attempts ghc e ghc1 :
  loadCommitsAttempt fuel ghc = Some (Err e, ghc1) →
  loadCommitsLoop (S rounds) fuel attempts ghc = Some (Err e, ghc1).
Proof. intros H. simpl. by rewrite (bind_err _ _ _ _ _ H). Qed.

Lemma Commits_load_err fuel ghc e ghc1 :
  commits ghc = None → loadCommits fuel ghc = Some (Err e, ghc1) →
  Commits fuel ghc = Some (Err e, ghc1).
Proof.
  intros Hnone Hload. unfold Commits, mbind, M_bind, get. by rewrite Hnone, Hload.
Qed.

Lemma loadRawCommits_fuel fuel ghc r ghc1 :
  loadRawCommits fuel ghc = Some (r, ghc1) → ∃ fuel', fuel = S fuel'.
Proof. destruct fuel; [done | eauto]. Qed.

(** C6. When no commit of the fetched list has the head's SHA, the round
    of the loader that fetched it fails with the head-missing error, in the
    context the fetch left: since the fetch began, only pages of the commit
    list were asked for, the fork's history was not queried, nothing was
    slept and no cache was written; and [Commits] returns that error. *)
Theorem head_missing_fails (rounds fuel : nat) (attempts : Z) (ghc : GitHubContext)
    (raw : list v4PullRequestCommit) (ghc1 : GitHubContext) :
  loadRawCommits fuel ghc = Some (Ok raw, ghc1) →
  (∀ r, r ∈ raw → OID (prCommit r) ≠ HeadRefOID (pr ghc)) →
  loadCommitsLoop (S rounds) fuel attempts ghc
    = Some (Err (HeadCommitMissing (HeadRefOID (pr ghc))), ghc1) ∧
  (commits ghc = None →
   Commits fuel ghc = Some (Err (HeadCommitMissing (HeadRefOID (pr ghc))), ghc1)) ∧
  advances isQueryCommits ghc ghc1 ∧
  fetches (trace ghc1) = S (fetches (trace ghc)) ∧
  sleeps (trace ghc1) = sleeps (trace ghc) ∧
  caches ghc1 = caches ghc.
Proof.
  intros Hraw Habsent.
  assert (loadCommitsAttempt fuel ghc
          = Some (Err (HeadCommitMissing (HeadRefOID (pr ghc))), ghc1)) as Hattempt.
  { rewrite (loadCommitsAttempt_fetched _ _ _ _ Hraw). cbv zeta.
    unfold findHead. rewrite findHeadFrom_absent; [done|].
    intros c Hc. apply list_elem_of_fmap in Hc as (r & -> & Hr). by apply Habsent. }
  split; [by apply loadCommitsLoop_attempt_err|].
  split.
  { intros Hnone. apply Commits_load_err; [done|].
    destruct (loadRawCommits_fuel _ _ _ _ Hraw) as [fuel' ->].
    by apply loadCommitsLoop_attempt_err. }
  split; [by eapply loadRawCommitsLoop_issues|].
  by apply loadCommitsAttempt_trace in Hattempt as (? & ? & ? & _).
Qed.

(** A pull request from a fork whose head was replaced by a force-push:
    one page of commits is fetched, and the call fails. *)
Lemma head_missing_force_push :
  Commits 5 (newContext noClient (commitsServer forcePushed) true)
  = Some (Err (HeadCommitMissing "head"),
          logged (EvQueryCommits None) (newContext noClient (commitsServer forcePushed) true)).
Proof.
  refine (proj1 (proj2 (head_missing_fails 0 5 0
            (newContext noClient (commitsServer forcePushed) true) forcePushed
            (logged (EvQueryCommits None) (newContext noClient (commitsServer forcePushed) true))
            _ _)) _).
  - reflexivity.
  - intros r Hr. apply list_elem_of_singleton in Hr as ->. discriminate.
  - reflexivity.
Defined.

(** ** The backfill from the fork's history *)

Lemma loadPushedAt_incomplete fuel cs ghc pending cs' ghc1 :
  loadPushedAtLoop fuel None (indexBySHA cs) cs ghc = Some (Ok (pending, cs'), ghc1) →
  pending ≠ ∅ →
  loadPushedAt fuel cs ghc = Some (Err (CommitsNotFound (size pending)), ghc1).
Proof.
  intros Hloop Hne. unfold loadPushedAt. rewrite (bind_ok _ _ _ _ _ Hloop).
  apply map_size_non_empty_iff in Hne.
  destruct (Nat.ltb_spec 0 (size pending)); [done | lia].
Qed.

Lemma loadPushedAtLoop_last_page fuel cursor idx cs ghc info nodes :
  idx ≠ ∅ →
  QueryHistory (v4client ghc) (trace ghc) cursor = inr (info, nodes) →
  (UpdateCursor info cursor).2 = false →
  loadPushedAtLoop (S fuel) cursor idx cs ghc
    = Some (Ok (matchNodes nodes (idx, cs)), logged (EvQueryHistory cursor) ghc).
Proof.
  intros Hne Hq Hlast. simpl. apply map_size_non_empty_iff in Hne.
  destruct (Nat.ltb_spec 0 (size idx)); [|lia].
  unfold mbind, M_bind, query. rewrite Hq.
  destruct (matchNodes nodes (idx, cs)) as [idx' cs'].
  destruct (UpdateCursor info cursor) as [cursor' more]. simpl in Hlast. by subst more.
Qed.

(** C5. When the loop over the pages of the fork's history leaves SHAs in
    the pending set, [loadPushedAt] fails with the error that counts the
    commits not found; the loop leaves with what the last page left pending
    once a page says that no page follows. The round of the loader that ran
    the backfill returns that error at once: in the context the backfill
    left there is one fetch of the commit list and no sleep more than
    before, and [Commits] returns the error. *)
Theorem backfill_incomplete_fails (rounds fuel : nat) (attempts : Z) (ghc : GitHubContext)
    (raw : list v4PullRequestCommit) (ghc1 : GitHubContext) (head : nat)
    (pending : gmap string nat) (cs' : list Commit) (ghc2 : GitHubContext) :
  loadRawCommits fuel ghc = Some (Ok raw, ghc1) →
  findHead (HeadRefOID (pr ghc)) (map (fun r => ToCommit (prCommit r)) raw) = Some head →
  IsCrossRepository (pr ghc) = true →
  headPushedAt (map (fun r => ToCommit (prCommit r)) raw) head = None →
  loadPushedAtLoop fuel None (indexBySHA (map (fun r => ToCommit (prCommit r)) raw))
    (map (fun r => ToCommit (prCommit r)) raw) ghc1 = Some (Ok (pending, cs'), ghc2) →
  pending ≠ ∅ →
  loadPushedAt fuel (map (fun r => ToCommit (prCommit r)) raw) ghc1
    = Some (Err (CommitsNotFound (size pending)), ghc2) ∧
  loadCommitsLoop (S rounds) fuel attempts ghc
    = Some (Err (CommitsNotFound (size pending)), ghc2) ∧
  (commits ghc = None →
   Commits fuel ghc = Some (Err (CommitsNotFound (size pending)), ghc2)) ∧
  fetches (trace ghc2) = S (fetches (trace ghc)) ∧
  sleeps (trace ghc2) = sleeps (trace ghc) ∧
  caches ghc2 = caches ghc ∧
  (∀ fuel' cursor idx cs g info nodes,
     idx ≠ ∅ →
     QueryHistory (v4client g) (trace g) cursor = inr (info, nodes) →
     (UpdateCursor info cursor).2 = false →
     loadPushedAtLoop (S fuel') cursor idx cs g
       = Some (Ok (matchNodes nodes (idx, cs)), logged (EvQueryHistory cursor) g)).
Proof.
  intros Hraw Hhead Hfork Hunset Hloop Hne.
  pose proof (loadPushedAt_incomplete _ _ _ _ _ _ Hloop Hne) as Hfail.
  assert (loadCommitsAttempt fuel ghc = Some (Err (CommitsNotFound (size pending)), ghc2))
    as Hattempt.
  { rewrite (loadCommitsAttempt_fetched _ _ _ _ Hraw). cbv zeta.
    rewrite Hhead, Hfork, Hunset, Hfail. by rewrite bool_decide_eq_true_2. }
  split; [done|].
  split; [by apply loadCommitsLoop_attempt_err|].
  split.
  { intros Hnone. apply Commits_load_err; [done|].
    destruct (loadRawCommits_fuel _ _ _ _ Hraw) as [fuel' ->].
    by apply loadCommitsLoop_attempt_err. }
  apply loadCommitsAttempt_trace in Hattempt as (? & ? & ? & _).
  do 3 (split; [done|]). intros. by eapply loadPushedAtLoop_last_page.
Qed.

(** The fork's history lacks the commit c1: two pages are queried, and the
    call fails without another fetch. *)
Lemma backfill_incomplete_short_history :
  Commits 5 (newContext noClient (forkHistory shortHistory) true)
  = Some (Err (CommitsNotFound 1),
          logAll [EvQueryCommits None; EvQueryHistory None; EvQueryHistory (Some "p1")]
            (newContext noClient (forkHistory shortHistory) true)).
Proof.
  refine (proj1 (proj2 (proj2 (backfill_incomplete_fails 0 5 0
            (newContext noClient (forkHistory shortHistory) true) forkCommits
            (logged (EvQueryCommits None) (newContext noClient (forkHistory shortHistory) true))
            2 {[ "c1" := 0%nat ]}
            [commit "c1" ["c0"] None; commit "c2" ["c1"] (Some 30);
             commit "head" ["c2"] (Some 30)]
            (logAll [EvQueryCommits None; EvQueryHistory None; EvQueryHistory (Some "p1")]
               (newContext noClient (forkHistory shortHistory) true))
            _ _ _ _ _ _))) _).
  - reflexivity.
  - reflexivity.
  - reflexivity.
  - reflexivity.
  - by vm_compute.
  - apply (bool_decide_unpack _). by vm_compute.
  - reflexivity.
Defined.

(** ** The retries of the commit loader *)

(** After [k] rounds that found no pushed date on the head, the loop goes
    on as from the context they left, [k] attempts later. *)
Lemma unsetRounds_loop fuel k attempts ghc ghc' :
  unsetRounds fuel k attempts ghc ghc' →
  attempts + Z.of_nat k < commitLoadMaxAttempts →
  ∀ rounds,
    loadCommitsLoop (k + rounds) fuel attempts ghc
    = loadCommitsLoop rounds fuel (attempts + Z.of_nat k) ghc'.
Proof.
  induction 1 as [attempts ghc|k attempts ghc ghc1 ghc' cs head Hattempt Hunset _ IH];
    intros Hlt rounds.
  - simpl. by rewrite Z.add_0_r.
  - change (S k + rounds)%nat with (S (k + rounds)). simpl loadCommitsLoop.
    rewrite (bind_ok _ _ _ _ _ Hattempt). rewrite Hunset.
    destruct (Z.leb_spec commitLoadMaxAttempts (attempts + 1)); [lia|].
    unfold mbind at 1, M_bind, Sleep, modify.
    rewrite IH by lia. f_equal. lia.
Qed.

Lemma unsetRounds_trace fuel k attempts ghc ghc' :
  unsetRounds fuel k attempts ghc ghc' →
  fetches (trace ghc') = (fetches (trace ghc) + k)%nat ∧
  sleeps (trace ghc') = sleeps (trace ghc) ++ delaysFrom attempts k ∧
  caches ghc' = caches ghc ∧ pr ghc' = pr ghc.
Proof.
  induction 1 as [attempts ghc|k attempts ghc ghc1 ghc' cs head Hattempt Hunset _ IH].
  - simpl. by rewrite Nat.add_0_r, app_nil_r.
  - apply loadCommitsAttempt_trace in Hattempt as (Hf & Hs & Hc & Hp).
    destruct IH as (Hf' & Hs' & Hc' & Hp'). simpl in Hf', Hs', Hc', Hp'.
    rewrite fetches_app in Hf'. rewrite sleeps_app in Hs'. simpl in Hs'.
    rewrite Hf', Hs', Hf, Hs, Hc', Hp'. simpl.
    rewrite (fetches_none [_]) by (by constructor).
    rewrite <- app_assoc. split; [lia|]. split; [done|].
    split; [by rewrite <- Hc | by rewrite <- Hp].
Qed.

Lemma delaysFrom_values :
  delaysFrom 0 4 = [1 * Second; 2 * Second; 4 * Second; 8 * Second].
Proof. reflexivity. Qed.

Lemma delaysFrom_take k :
  (k ≤ 4)%nat → delaysFrom 0 k = take k [1 * Second; 2 * Second; 4 * Second; 8 * Second].
Proof. intros Hk. do 5 (destruct k as [|k]; [reflexivity|]). lia. Qed.

(** C2. From a context whose loader has fuel for five rounds: if five
    rounds in a row fetch a commit list whose head has no pushed date, the
    loader makes exactly those five fetches, sleeps 1s, 2s, 4s and 8s
    between them (15s in all) and fails after the fifth with the
    pushed-date-missing error, as does [Commits]; if the head's pushed date
    is found on the round after [k] such rounds, [k] below 5, the loader
    returns that round's list after [k + 1] fetches, having slept the first
    [k] of those delays and no more, and [Commits] succeeds when the list
    is within the ceiling. *)
Theorem loadCommits_retries (fuel : nat) (ghc : GitHubContext) :
  (5 ≤ fuel)%nat →
  (∀ ghc4 ghc5 cs head,
     unsetRounds fuel 4 0 ghc ghc4 →
     loadCommitsAttempt fuel ghc4 = Some (Ok (cs, head), ghc5) →
     headPushedAt cs head = None →
     loadCommits fuel ghc = Some (Err (PushedDateMissing (HeadRefOID (pr ghc))), ghc5) ∧
     (commits ghc = None →
      Commits fuel ghc = Some (Err (PushedDateMissing (HeadRefOID (pr ghc))), ghc5)) ∧
     fetches (trace ghc5) = (fetches (trace ghc) + 5)%nat ∧
     sleeps (trace ghc5)
       = sleeps (trace ghc) ++ [1 * Second; 2 * Second; 4 * Second; 8 * Second] ∧
     foldr Z.add 0 (delaysFrom 0 4) = 15 * Second) ∧
  (∀ k ghc' ghc'' cs head t,
     (k < 5)%nat →
     unsetRounds fuel k 0 ghc ghc' →
     loadCommitsAttempt fuel ghc' = Some (Ok (cs, head), ghc'') →
     headPushedAt cs head = Some t →
     loadCommits fuel ghc = Some (Ok cs, ghc'') ∧
     fetches (trace ghc'') = (fetches (trace ghc) + S k)%nat ∧
     sleeps (trace ghc'')
       = sleeps (trace ghc) ++ take k [1 * Second; 2 * Second; 4 * Second; 8 * Second] ∧
     (commits ghc = None → (List.length cs < MaxPullRequestCommits)%nat →
      ∃ cs', backfillPushedAt cs (HeadRefOID (pr ghc)) = Some cs' ∧
             Commits fuel ghc = Some (Ok cs', withCommits (Some cs') ghc''))).
Proof.
  intros Hfuel. split.
  - intros ghc4 ghc5 cs head Hrounds Hattempt Hunset.
    pose proof (unsetRounds_trace _ _ _ _ _ Hrounds) as (Hf & Hs & Hc & Hp).
    pose proof (loadCommitsAttempt_trace _ _ _ _ Hattempt) as (Hf5 & Hs5 & Hc5 & Hp5).
    assert (loadCommits fuel ghc
            = Some (Err (PushedDateMissing (HeadRefOID (pr ghc))), ghc5)) as Hload.
    { unfold loadCommits.
      replace fuel with (4 + S (fuel - 5))%nat at 1 by lia.
      rewrite (unsetRounds_loop _ _ _ _ _ Hrounds) by (by vm_compute).
      simpl loadCommitsLoop. rewrite (bind_ok _ _ _ _ _ Hattempt), Hunset.
      destruct (Z.leb_spec commitLoadMaxAttempts (0 + Z.of_nat 4 + 1));
        [|exfalso; revert H; by vm_compute].
      unfold mbind, M_bind, get, throw. by rewrite Hp5, Hp. }
    split; [done|]. split; [intros; by apply Commits_load_err|].
    split; [lia|]. split; [|done].
    by rewrite Hs5, Hs, delaysFrom_values.
  - intros k ghc' ghc'' cs head t Hk Hrounds Hattempt Hset.
    pose proof (unsetRounds_trace _ _ _ _ _ Hrounds) as (Hf & Hs & Hc & Hp).
    pose proof (loadCommitsAttempt_trace _ _ _ _ Hattempt) as (Hf' & Hs' & Hc' & Hp').
    assert (loadCommits fuel ghc = Some (Ok cs, ghc'')) as Hload.
    { unfold loadCommits.
      replace fuel with (k + S (fuel - S k))%nat at 1 by lia.
      rewrite (unsetRounds_loop _ _ _ _ _ Hrounds) by (unfold commitLoadMaxAttempts; lia).
      simpl loadCommitsLoop. by rewrite (bind_ok _ _ _ _ _ Hattempt), Hset. }
    split; [done|]. split; [lia|].
    split; [by rewrite Hs', Hs, delaysFrom_take by lia|].
    intros Hnone Hlen.
    destruct (backfillPushedAt_total cs (HeadRefOID (pr ghc))) as [cs' Hcs'].
    exists cs'. split; [done|]. rewrite (Commits_loaded _ _ _ _ Hnone Hload), Hcs'.
    destruct (Nat.leb_spec MaxPullRequestCommits (List.length cs)); [lia | done].
Qed.

(** A platform that never has the head's pushed date within five fetches,
    and one that has it from the fourth fetch on. *)
Lemma loadCommits_retries_stale_head :
  (Commits 5 (newContext noClient (lateCommits 5) false)
   = Some (Err (PushedDateMissing "head"),
           logAll [EvQueryCommits None; EvSleep (1 * Second);
                   EvQueryCommits None; EvSleep (2 * Second);
                   EvQueryCommits None; EvSleep (4 * Second);
                   EvQueryCommits None; EvSleep (8 * Second);
                   EvQueryCommits None]
             (newContext noClient (lateCommits 5) false))) ∧
  (loadCommits 5 (newContext noClient (lateCommits 3) false)
   = Some (Ok [commit "base" [] (Some 10); commit "head" ["base"] (Some 20)],
           logAll [EvQueryCommits None; EvSleep (1 * Second);
                   EvQueryCommits None; EvSleep (2 * Second);
                   EvQueryCommits None; EvSleep (4 * Second);
                   EvQueryCommits None]
             (newContext noClient (lateCommits 3) false))).
Proof.
  split.
  - edestruct (proj1 (loadCommits_retries 5 (newContext noClient (lateCommits 5) false)
                        (le_n 5))) as (_ & HCommits & _).
    + repeat (eapply unsetRounds_S; [vm_compute; reflexivity | vm_compute; reflexivity |]).
      apply unsetRounds_O.
    + vm_compute; reflexivity.
    + vm_compute; reflexivity.
    + exact (HCommits eq_refl).
  - edestruct (proj2 (loadCommits_retries 5 (newContext noClient (lateCommits 3) false)
                        (le_n 5)) 3%nat) as (Hload & _).
    + lia.
    + repeat (eapply unsetRounds_S; [vm_compute; reflexivity | vm_compute; reflexivity |]).
      apply unsetRounds_O.
    + vm_compute; reflexivity.
    + vm_compute; reflexivity.
    + exact Hload.
Defined.

(** ** The pending set of the backfill *)

Lemma matchNodes_cons n nodes st : matchNodes (n :: nodes) st = matchNodes nodes (matchNode st n).
Proof. done. Qed.











(** The fork's history answers all three commits on its first two pages
    and says that a third follows: the third is not asked for. *)
Example backfill_two_pages :
  Commits 5 (newContext noClient (forkHistory threePages) true)
  = Some (Ok [commit "c1" ["c0"] (Some 20); commit "c2" ["c1"] (Some 30);
              commit "head" ["c2"] (Some 30)],
          withCommits (Some [commit "c1" ["c0"] (Some 20); commit "c2" ["c1"] (Some 30);
                             commit "head" ["c2"] (Some 30)])
            (logAll [EvQueryCommits None; EvQueryHistory None; EvQueryHistory (Some "p1")]
               (newContext noClient (forkHistory threePages) true))).
Proof. by vm_compute. Qed.


(** ** Joint pagination of comments and reviews *)

Lemma ceilDiv_small x : (x ≤ 100 → ceilDiv x 100 ≤ 1)%nat.
Proof.
  unfold ceilDiv. intros Hx.
  assert (x + 100 - 1 < 100 * 2)%nat as Hlt by lia.
  apply Nat.Div0.div_lt_upper_bound in Hlt. lia.
Qed.

Lemma ceilDiv_large x : (100 < x)%nat → ceilDiv x 100 = S (ceilDiv (x - 100) 100).
Proof.
  unfold ceilDiv. intros Hx.
  replace (x + 100 - 1)%nat with ((x - 100 + 100 - 1) + 1 * 100)%nat by lia.
  rewrite Nat.div_add by lia. lia.
Qed.

Lemma ceilDiv_pos x : (0 < x → 1 ≤ ceilDiv x 100)%nat.
Proof. unfold ceilDiv. intros Hx. apply Nat.div_le_lower_bound; lia. Qed.

Lemma roundTrips_last x y : (x ≤ 100)%nat → (y ≤ 100)%nat → roundTrips x y = 1%nat.
Proof. unfold roundTrips. intros Hx Hy. apply ceilDiv_small in Hx, Hy. lia. Qed.

Lemma roundTrips_step x y :
  (100 < x ∨ 100 < y)%nat →
  roundTrips x y = S (roundTrips (x - Nat.min 100 x) (y - Nat.min 100 y)).
Proof.
  unfold roundTrips. intros H.
  assert (ceilDiv 0 100 = 0%nat) as H0 by reflexivity.
  destruct (Nat.le_gt_cases x 100) as [Hx|Hx], (Nat.le_gt_cases y 100) as [Hy|Hy]; try lia.
  - replace (x - Nat.min 100 x)%nat with 0%nat by lia.
    replace (y - Nat.min 100 y)%nat with (y - 100)%nat by lia.
    rewrite (ceilDiv_large y Hy), H0. apply ceilDiv_small in Hx.
    pose proof (ceilDiv_pos (y - 100)). lia.
  - replace (y - Nat.min 100 y)%nat with 0%nat by lia.
    replace (x - Nat.min 100 x)%nat with (x - 100)%nat by lia.
    rewrite (ceilDiv_large x Hx), H0. apply ceilDiv_small in Hy.
    pose proof (ceilDiv_pos (x - 100)). lia.
  - replace (y - Nat.min 100 y)%nat with (y - 100)%nat by lia.
    replace (x - Nat.min 100 x)%nat with (x - 100)%nat by lia.
    rewrite (ceilDiv_large x Hx), (ceilDiv_large y Hy).
    pose proof (ceilDiv_pos (x - 100)). lia.
Qed.

Lemma offsetOf_cursorOf n : offsetOf (Some (cursorOf n)) = n.
Proof.
  unfold offsetOf, cursorOf. rewrite NilEmpty.usu. apply DecimalNat.Unsigned.of_to.
Qed.

Lemma servePage_nodes {A : Type} first (all : list A) cursor :
  (servePage first all cursor).2 = take first (drop (offsetOf cursor) all).
Proof. done. Qed.

Lemma servePage_cursor {A : Type} first (all : list A) cursor :
  offsetOf (UpdateCursor (servePage first all cursor).1 cursor).1
  = (offsetOf cursor + List.length (take first (drop (offsetOf cursor) all)))%nat.
Proof.
  unfold servePage, UpdateCursor. cbn [fst snd EndCursor HasNextPage].
  destruct (take first (drop (offsetOf cursor) all)) as [|x nodes].
  - simpl. rewrite Nat.add_0_r. by destruct (bool_decide _).
  - destruct (bool_decide _); cbn [fst]; apply offsetOf_cursorOf.
Qed.

Lemma servePage_more {A : Type} first (all : list A) cursor :
  (0 < first)%nat →
  (UpdateCursor (servePage first all cursor).1 cursor).2
  = bool_decide (first < List.length all - offsetOf cursor)%nat.
Proof.
  intros Hfirst. unfold servePage, UpdateCursor. cbn [fst snd EndCursor HasNextPage].
  pose proof (length_take (drop (offsetOf cursor) all) first) as Hlen.
  rewrite length_drop in Hlen.
  destruct (take first (drop (offsetOf cursor) all)) as [|x nodes].
  - simpl in Hlen. rewrite (bool_decide_eq_false_2 (first < _)%nat) by lia.
    by destruct (bool_decide _).
  - destruct (bool_decide (_ + _ < _)%nat) eqn:Hb; cbn [snd].
    + apply bool_decide_eq_true in Hb. rewrite bool_decide_eq_true_2; [done | lia].
    + apply bool_decide_eq_false in Hb. rewrite bool_decide_eq_false_2; [done | lia].
Qed.

Lemma loadPagedDataLoop_step fuel cc rc accC accR ghc cInfo cNodes rInfo rNodes :
  QueryPagedData (v4client ghc) (trace ghc) cc rc = inr ((cInfo, cNodes), (rInfo, rNodes)) →
  loadPagedDataLoop (S fuel) cc rc accC accR ghc
  = if negb (UpdateCursor cInfo cc).2 && negb (UpdateCursor rInfo rc).2
    then Some (Ok (accC ++ map ToComment cNodes, accR ++ map ToReview rNodes),
               logged (EvQueryPagedData cc rc) ghc)
    else loadPagedDataLoop fuel (UpdateCursor cInfo cc).1 (UpdateCursor rInfo rc).1
           (accC ++ map ToComment cNodes) (accR ++ map ToReview rNodes)
           (logged (EvQueryPagedData cc rc) ghc).
Proof.
  intros Hq. simpl. unfold mbind, M_bind, query. rewrite Hq.
  by destruct (UpdateCursor cInfo cc) as [cc' []], (UpdateCursor rInfo rc) as [rc' []].
Qed.

Lemma take_drop_length {A : Type} n (l : list A) :
  take n l ++ drop (List.length (take n l)) l = l.
Proof.
  rewrite length_take. destruct (Nat.le_gt_cases n (List.length l)).
  - rewrite Nat.min_l by done. apply take_drop.
  - rewrite Nat.min_r by lia. rewrite take_ge, drop_all by lia. apply app_nil_r.
Qed.

(** The loop against a platform that paginates, from any pair of cursors. *)
Lemma loadPagedDataLoop_serves cs rs fuel : ∀ ghc cc rc accC accR,
  servesPagedData ghc cs rs →
  (roundTrips (List.length cs - offsetOf cc) (List.length rs - offsetOf rc) ≤ fuel)%nat →
  ∃ queries,
    loadPagedDataLoop fuel cc rc accC accR ghc
    = Some (Ok (accC ++ map ToComment (drop (offsetOf cc) cs),
                accR ++ map ToReview (drop (offsetOf rc) rs)),
            logAll queries ghc) ∧
    List.length queries
    = roundTrips (List.length cs - offsetOf cc) (List.length rs - offsetOf rc) ∧
    Forall isQueryPagedData queries.
Proof.
  induction fuel as [|fuel IH]; intros ghc cc rc accC accR Hserve Hfuel.
  { unfold roundTrips in Hfuel. lia. }
  pose proof (Hserve (trace ghc) cc rc) as Hq.
  destruct (servePage 100 cs cc) as [cInfo cNodes] eqn:Hc.
  destruct (servePage 100 rs rc) as [rInfo rNodes] eqn:Hr.
  rewrite (loadPagedDataLoop_step _ _ _ _ _ _ _ _ _ _ Hq).
  pose proof (servePage_nodes 100 cs cc) as HcN.
  pose proof (servePage_cursor 100 cs cc) as HcC.
  pose proof (servePage_more 100 cs cc ltac:(lia)) as HcM.
  pose proof (servePage_nodes 100 rs rc) as HrN.
  pose proof (servePage_cursor 100 rs rc) as HrC.
  pose proof (servePage_more 100 rs rc ltac:(lia)) as HrM.
  rewrite Hc in HcN, HcC, HcM. rewrite Hr in HrN, HrC, HrM.
  cbn [fst snd] in HcN, HcC, HcM, HrN, HrC, HrM.
  rewrite HcM, HrM. rewrite <- HcN in HcC. rewrite <- HrN in HrC.
  assert (List.length cNodes = Nat.min 100 (List.length cs - offsetOf cc)) as HcL
    by (by rewrite HcN, length_take, length_drop).
  assert (List.length rNodes = Nat.min 100 (List.length rs - offsetOf rc)) as HrL
    by (by rewrite HrN, length_take, length_drop).
  assert (drop (offsetOf cc) cs = cNodes ++ drop (offsetOf cc + List.length cNodes) cs) as HcS.
  { rewrite <- drop_drop, HcN. symmetry. apply take_drop_length. }
  assert (drop (offsetOf rc) rs = rNodes ++ drop (offsetOf rc + List.length rNodes) rs) as HrS.
  { rewrite <- drop_drop, HrN. symmetry. apply take_drop_length. }
  destruct (bool_decide (100 < List.length cs - offsetOf cc)%nat) eqn:HmC;
    destruct (bool_decide (100 < List.length rs - offsetOf rc)%nat) eqn:HmR;
    cbn [negb andb].
  4: { apply bool_decide_eq_false in HmC, HmR.
       exists [EvQueryPagedData cc rc]. rewrite roundTrips_last by lia.
       split; [|split; [done | constructor; [by do 2 eexists | done]]].
       rewrite HcS, HrS.
       rewrite (drop_ge cs) by lia. rewrite (drop_ge rs) by lia. by rewrite !app_nil_r. }
  all: rewrite (roundTrips_step (List.length cs - offsetOf cc) (List.length rs - offsetOf rc))
         in Hfuel |- *
         by (apply bool_decide_eq_true in HmC || apply bool_decide_eq_true in HmR; lia).
  all: destruct (IH (logged (EvQueryPagedData cc rc) ghc)
                   (UpdateCursor cInfo cc).1 (UpdateCursor rInfo rc).1
                   (accC ++ map ToComment cNodes) (accR ++ map ToReview rNodes))
         as (queries & Hrun & Hlen & Hall);
         [ intros t cc0 rc0; apply Hserve
         | rewrite HcC, HrC, HcL, HrL, !Nat.sub_add_distr; lia | ].
  all: exists (EvQueryPagedData cc rc :: queries).
  all: rewrite Hrun, HcC, HrC; split; [|split; [|constructor; [by do 2 eexists | done]]].
  all: try (rewrite HcS, HrS, !map_app, !app_assoc; done).
  all: simpl; by rewrite Hlen, HcC, HrC, HcL, HrL, !Nat.sub_add_distr.
Qed.

Lemma Comments_loaded fuel ghc ghc' :
  comments ghc = None → loadPagedData fuel ghc = Some (Ok tt, ghc') →
  Comments fuel ghc = Some (Ok (elems (comments ghc')), ghc').
Proof.
  intros Hnone Hload. unfold Comments, mbind, M_bind, get. by rewrite Hnone, Hload.
Qed.

Lemma Reviews_loaded fuel ghc ghc' :
  reviews ghc = None → loadPagedData fuel ghc = Some (Ok tt, ghc') →
  Reviews fuel ghc = Some (Ok (elems (reviews ghc')), ghc').
Proof.
  intros Hnone Hload. unfold Reviews, mbind, M_bind, get. by rewrite Hnone, Hload.
Qed.

(** C4, as the code has it. Against a platform that answers [C] comments
    and [R] reviews 100 of each a round-trip, the joint pagination ends
    after exactly max(1, ceil(C/100), ceil(R/100)) round-trips, all of them
    the combined query, and caches all the comments and all the reviews in
    the platform's order; [Comments] and [Reviews] return them. There is
    always a first round-trip, also when there is nothing to fetch. *)
Theorem loadPagedData_round_trips (fuel : nat) (ghc : GitHubContext)
    (cs : list v4IssueComment) (rs : list v4PullRequestReview) :
  servesPagedData ghc cs rs →
  (roundTrips (List.length cs) (List.length rs) ≤ fuel)%nat →
  ∃ queries,
    loadPagedData fuel ghc
    = Some (Ok tt, withPagedData (map ToComment cs) (map ToReview rs) (logAll queries ghc)) ∧
    List.length queries
    = Nat.max 1 (Nat.max (ceilDiv (List.length cs) 100) (ceilDiv (List.length rs) 100)) ∧
    Forall isQueryPagedData queries ∧
    (comments ghc = None →
     Comments fuel ghc
     = Some (Ok (map ToComment cs),
             withPagedData (map ToComment cs) (map ToReview rs) (logAll queries ghc))) ∧
    (reviews ghc = None →
     Reviews fuel ghc
     = Some (Ok (map ToReview rs),
             withPagedData (map ToComment cs) (map ToReview rs) (logAll queries ghc))).
Proof.
  intros Hserve Hfuel.
  destruct (loadPagedDataLoop_serves cs rs fuel ghc None None [] [] Hserve)
    as (queries & Hrun & Hlen & Hall).
  { simpl. by rewrite !Nat.sub_0_r. }
  simpl in Hrun, Hlen. rewrite !Nat.sub_0_r in Hlen.
  assert (loadPagedData fuel ghc
          = Some (Ok tt, withPagedData (map ToComment cs) (map ToReview rs)
                           (logAll queries ghc))) as Hload.
  { unfold loadPagedData. by rewrite (bind_ok _ _ _ _ _ Hrun). }
  exists queries. split; [done|]. split; [done|]. split; [done|].
  split; intros Hnone.
  - by rewrite (Comments_loaded _ _ _ Hnone Hload).
  - by rewrite (Reviews_loaded _ _ _ Hnone Hload).
Qed.

(** 201 comments and 100 reviews: three round-trips. *)
Lemma loadPagedData_three_round_trips :
  ∃ queries,
    loadPagedData 5 (newContext noClient
                       (pagedServer (replicate 201 exampleComment)
                                    (replicate 100 exampleReview)) false)
    = Some (Ok tt,
            withPagedData (map ToComment (replicate 201 exampleComment))
              (map ToReview (replicate 100 exampleReview))
              (logAll queries
                 (newContext noClient
                    (pagedServer (replicate 201 exampleComment)
                                 (replicate 100 exampleReview)) false))) ∧
    List.length queries = 3%nat.
Proof.
  destruct (loadPagedData_round_trips 5
              (newContext noClient
                 (pagedServer (replicate 201 exampleComment)
                              (replicate 100 exampleReview)) false)
              (replicate 201 exampleComment) (replicate 100 exampleReview))
    as (queries & Hload & Hlen & _).
  - intros t cc rc. reflexivity.
  - vm_compute. lia.
  - exists queries. split; [exact Hload | exact Hlen].
Defined.

(** Against C4 as stated: with no comment and no review the formula
    max(ceil(C/100), ceil(R/100)) is 0, and one round-trip is made. *)
Lemma no_comments_one_round_trip :
  Nat.max (ceilDiv 0 100) (ceilDiv 0 100) = 0%nat ∧
  loadPagedData 5 (newContext noClient (pagedServer [] []) false)
  = Some (Ok tt,
          withPagedData [] []
            (logged (EvQueryPagedData None None)
               (newContext noClient (pagedServer [] []) false))).
Proof. split; by vm_compute. Qed.

(** ** The caches *)

Lemma Commits_cached fuel ghc cs :
  commits ghc = Some cs → Commits fuel ghc = Some (Ok cs, ghc).
Proof.
  intros Hcs. unfold Commits, mbind, M_bind, get. simpl. by repeat (rewrite Hcs; simpl).
Qed.

Lemma Commits_diverges fuel ghc :
  commits ghc = None → loadCommits fuel ghc = None → Commits fuel ghc = None.
Proof. intros Hnone Hload. unfold Commits, mbind, M_bind, get. by rewrite Hnone, Hload. Qed.

Lemma Comments_cached fuel ghc cs :
  comments ghc = Some cs → Comments fuel ghc = Some (Ok cs, ghc).
Proof.
  intros Hcs. unfold Comments, mbind, M_bind, get. simpl. by repeat (rewrite Hcs; simpl).
Qed.

Lemma Reviews_cached fuel ghc rs :
  reviews ghc = Some rs → Reviews fuel ghc = Some (Ok rs, ghc).
Proof.
  intros Hrs. unfold Reviews, mbind, M_bind, get. simpl. by repeat (rewrite Hrs; simpl).
Qed.

Lemma loadPagedData_inv fuel ghc r ghc' :
  loadPagedData fuel ghc = Some (r, ghc') →
  (∃ e, r = Err e ∧ caches ghc' = caches ghc) ∨
  (∃ cs rs ghc1, r = Ok tt ∧ ghc' = withPagedData cs rs ghc1 ∧ caches ghc1 = caches ghc).
Proof.
  unfold loadPagedData. intros H.
  apply bind_inv in H as [([cs rs] & ghc1 & Hloop & H)|(e & Hloop & ->)].
  - injection H as <- <-. right. exists cs, rs, ghc1.
    split; [done|]. split; [done|]. by eapply advances_caches, loadPagedDataLoop_issues.
  - left. exists e. split; [done|]. by eapply advances_caches, loadPagedDataLoop_issues.
Qed.

Lemma Comments_inv fuel ghc r ghc' :
  Comments fuel ghc = Some (r, ghc') →
  (∃ cs, comments ghc = Some cs ∧ r = Ok cs ∧ ghc' = ghc) ∨
  (comments ghc = None ∧
   ((∃ e, r = Err e ∧ caches ghc' = caches ghc) ∨ (∃ cs, r = Ok cs ∧ comments ghc' = Some cs))).
Proof.
  intros H. destruct (comments ghc) as [cs|] eqn:Hcs.
  - rewrite (Comments_cached _ _ _ Hcs) in H. injection H as <- <-. left. eauto.
  - right. split; [done|]. unfold Comments, mbind, M_bind, get in H. rewrite Hcs in H.
    destruct (loadPagedData fuel ghc) as [[[[]|e] ghc1]|] eqn:Hload; [| |done].
    + injection H as <- <-.
      apply loadPagedData_inv in Hload as [(e & [=] & _)|(cs & rs & ghc2 & _ & -> & _)].
      right. by exists cs.
    + injection H as <- <-.
      apply loadPagedData_inv in Hload as [(e' & _ & Hc)|(cs & rs & ghc2 & [=] & _)].
      left. eauto.
Qed.

Lemma Reviews_inv fuel ghc r ghc' :
  Reviews fuel ghc = Some (r, ghc') →
  (∃ rs, reviews ghc = Some rs ∧ r = Ok rs ∧ ghc' = ghc) ∨
  (reviews ghc = None ∧
   ((∃ e, r = Err e ∧ caches ghc' = caches ghc) ∨ (∃ rs, r = Ok rs ∧ reviews ghc' = Some rs))).
Proof.
  intros H. destruct (reviews ghc) as [rs|] eqn:Hrs.
  - rewrite (Reviews_cached _ _ _ Hrs) in H. injection H as <- <-. left. eauto.
  - right. split; [done|]. unfold Reviews, mbind, M_bind, get in H. rewrite Hrs in H.
    destruct (loadPagedData fuel ghc) as [[[[]|e] ghc1]|] eqn:Hload; [| |done].
    + injection H as <- <-.
      apply loadPagedData_inv in Hload as [(e & [=] & _)|(cs & rs & ghc2 & _ & -> & _)].
      right. by exists rs.
    + injection H as <- <-.
      apply loadPagedData_inv in Hload as [(e' & _ & Hc)|(cs & rs & ghc2 & [=] & _)].
      left. eauto.
Qed.

Lemma Commits_inv fuel ghc r ghc' :
  Commits fuel ghc = Some (r, ghc') →
  (∃ cs, commits ghc = Some cs ∧ r = Ok cs ∧ ghc' = ghc) ∨
  (commits ghc = None ∧
   ((∃ e, r = Err e ∧ caches ghc' = caches ghc) ∨ (∃ cs, r = Ok cs ∧ commits ghc' = Some cs))).
Proof.
  intros H. destruct (commits ghc) as [cs|] eqn:Hcs.
  - rewrite (Commits_cached _ _ _ Hcs) in H. injection H as <- <-. left. eauto.
  - right. split; [done|].
    destruct (loadCommits fuel ghc) as [[[cs|e] ghc1]|] eqn:Hload.
    + rewrite (Commits_loaded _ _ _ _ Hcs Hload) in H.
      assert (caches ghc1 = caches ghc) as Hc
        by (by eapply advances_caches, loadCommitsLoop_issues).
      destruct (MaxPullRequestCommits <=? List.length cs)%nat.
      * injection H as <- <-. left. eauto.
      * destruct (backfillPushedAt cs (HeadRefOID (pr ghc))) as [cs'|]; [|done].
        injection H as <- <-. right. by exists cs'.
    + rewrite (Commits_load_err _ _ _ _ Hcs Hload) in H. injection H as <- <-.
      left. exists e. split; [done|]. by eapply advances_caches, loadCommitsLoop_issues.
    + by rewrite (Commits_diverges _ _ Hcs Hload) in H.
Qed.

Lemma listAllFiles_error fuel page acc ghc e ghc1 :
  listAllFiles fuel page acc ghc = Some (Err e, ghc1) → ∃ cause message, e = Wrap cause message.
Proof.
  revert page acc ghc. induction fuel as [|fuel IH]; intros page acc ghc H; [done|].
  simpl in H. apply bind_inv in H as [([fs next] & ghc2 & Hq & H)|(e' & Hq & [= ->])].
  - destruct (next =? 0); [done | by eapply IH].
  - apply query_inv in Hq as [_ [(a & _ & [=])|(cause & _ & [= ->])]]. eauto.
Qed.

Lemma ChangedFiles_inv fuel ghc r ghc' :
  ChangedFiles fuel ghc = Some (r, ghc') →
  (∃ fs, files ghc = Some fs ∧ ghc' = ghc ∧
         r = if (MaxPullRequestFiles <=? List.length fs)%nat then Err TooManyFiles else Ok fs) ∨
  (files ghc = None ∧
   ((∃ cause message, r = Err (Wrap cause message) ∧ caches ghc' = caches ghc) ∨
    (∃ fs ghc1, caches ghc1 = caches ghc ∧ ghc' = withFiles (appendAll None fs) ghc1 ∧
                r = if (MaxPullRequestFiles <=? List.length fs)%nat
                    then Err TooManyFiles else Ok fs))).
Proof.
  intros H. destruct (files ghc) as [fs|] eqn:Hfs.
  - rewrite (ChangedFiles_cached _ _ _ Hfs) in H. injection H as <- <-. left. eauto.
  - right. split; [done|].
    destruct (listAllFiles fuel 0 [] ghc) as [[[allFiles|e] ghc1]|] eqn:Hlist.
    + rewrite (ChangedFiles_listed _ _ _ _ Hfs Hlist) in H. injection H as <- <-.
      right. exists (toFile <$> allFiles), ghc1.
      split; [by eapply advances_caches, listAllFiles_issues|]. split; [done|].
      by rewrite length_fmap.
    + rewrite (ChangedFiles_list_error _ _ _ _ Hfs Hlist) in H. injection H as <- <-.
      left. destruct (listAllFiles_error _ _ _ _ _ _ Hlist) as (cause & message & ->).
      exists cause, message. split; [done|]. by eapply advances_caches, listAllFiles_issues.
    + unfold ChangedFiles, mbind, M_bind, get in H. by rewrite Hfs, Hlist in H.
Qed.

Lemma appendAll_nonempty {A : Type} (xs : list A) : xs ≠ [] → appendAll None xs = Some xs.
Proof. by destruct xs. Qed.

Lemma withFiles_caches fs ghc :
  caches (withFiles fs ghc) = (fs, commits ghc, comments ghc, reviews ghc).
Proof. done. Qed.

(** C9, as the code has it. A call of [Commits], [Comments] or [Reviews]
    that fails, and a call of [ChangedFiles] that fails on a query, leaves
    the four caches as they were, so that the next call of any accessor
    starts from the same caches. A call of [ChangedFiles] that fails with
    the size-exceeded error leaves the whole file list cached and the
    other caches as they were, and every later call returns the same error
    without a query. A call that succeeds, for [ChangedFiles] with at least
    one file, leaves its list cached, and every later call returns that
    list without a query, in the same context. *)
Theorem accessor_caches (fuel : nat) (ghc : GitHubContext) :
  (∀ e ghc', Commits fuel ghc = Some (Err e, ghc') → caches ghc' = caches ghc) ∧
  (∀ e ghc', Comments fuel ghc = Some (Err e, ghc') → caches ghc' = caches ghc) ∧
  (∀ e ghc', Reviews fuel ghc = Some (Err e, ghc') → caches ghc' = caches ghc) ∧
  (∀ e ghc', ChangedFiles fuel ghc = Some (Err e, ghc') → e ≠ TooManyFiles →
             caches ghc' = caches ghc) ∧
  (∀ ghc', ChangedFiles fuel ghc = Some (Err TooManyFiles, ghc') →
     (∃ fs, files ghc' = Some fs ∧ (MaxPullRequestFiles ≤ List.length fs)%nat) ∧
     (commits ghc', comments ghc', reviews ghc') = (commits ghc, comments ghc, reviews ghc) ∧
     ∀ fuel', ChangedFiles fuel' ghc' = Some (Err TooManyFiles, ghc')) ∧
  (∀ cs ghc', Commits fuel ghc = Some (Ok cs, ghc') →
     commits ghc' = Some cs ∧ ∀ fuel', Commits fuel' ghc' = Some (Ok cs, ghc')) ∧
  (∀ cs ghc', Comments fuel ghc = Some (Ok cs, ghc') →
     comments ghc' = Some cs ∧ ∀ fuel', Comments fuel' ghc' = Some (Ok cs, ghc')) ∧
  (∀ rs ghc', Reviews fuel ghc = Some (Ok rs, ghc') →
     reviews ghc' = Some rs ∧ ∀ fuel', Reviews fuel' ghc' = Some (Ok rs, ghc')) ∧
  (∀ fs ghc', ChangedFiles fuel ghc = Some (Ok fs, ghc') → fs ≠ [] →
     files ghc' = Some fs ∧ ∀ fuel', ChangedFiles fuel' ghc' = Some (Ok fs, ghc')).
Proof.
  assert (MaxPullRequestFiles = 300%nat) as HM by reflexivity.
  repeat apply conj.
  - intros e ghc' H.
    apply Commits_inv in H as [(cs & _ & [=] & _)|(_ & [(e' & _ & Hc)|(cs & [=] & _)])]. done.
  - intros e ghc' H.
    apply Comments_inv in H as [(cs & _ & [=] & _)|(_ & [(e' & _ & Hc)|(cs & [=] & _)])]. done.
  - intros e ghc' H.
    apply Reviews_inv in H as [(cs & _ & [=] & _)|(_ & [(e' & _ & Hc)|(cs & [=] & _)])]. done.
  - intros e ghc' H Hne.
    apply ChangedFiles_inv in H
      as [(fs & _ & -> & Hr)|(_ & [(c & m & _ & Hc)|(fs & ghc1 & _ & _ & Hr)])]; [|done|];
      (destruct (MaxPullRequestFiles <=? List.length fs)%nat;
       [injection Hr as ->; done | discriminate Hr]).
  - intros ghc' H.
    apply ChangedFiles_inv in H
      as [(fs & Hfs & -> & Hr)|(Hnone & [(c & m & [=] & _)|(fs & ghc1 & Hc & -> & Hr)])];
      destruct (Nat.leb_spec MaxPullRequestFiles (List.length fs)) as [Hlen|Hlen];
      try discriminate Hr.
    + split; [eauto|]. split; [done|]. intros fuel'.
      rewrite (ChangedFiles_cached _ _ _ Hfs).
      by destruct (Nat.leb_spec MaxPullRequestFiles (List.length fs)); [|lia].
    + assert (fs ≠ []) as Hne by (intros ->; rewrite HM in Hlen; simpl in Hlen; lia).
      rewrite (appendAll_nonempty _ Hne). unfold caches in Hc. injection Hc as _ Hc1 Hc2 Hc3.
      split; [by exists fs|]. split; [simpl; congruence|]. intros fuel'.
      rewrite (ChangedFiles_cached _ _ fs) by done.
      by destruct (Nat.leb_spec MaxPullRequestFiles (List.length fs)); [|lia].
  - intros cs ghc' H.
    apply Commits_inv in H as [(cs' & Hcs & [= <-] & ->)|(_ & [(e' & [=] & _)|(cs' & [= <-] & Hcs)])];
      (split; [done|]); intros fuel'; by apply Commits_cached.
  - intros cs ghc' H.
    apply Comments_inv in H as [(cs' & Hcs & [= <-] & ->)|(_ & [(e' & [=] & _)|(cs' & [= <-] & Hcs)])];
      (split; [done|]); intros fuel'; by apply Comments_cached.
  - intros rs ghc' H.
    apply Reviews_inv in H as [(rs' & Hrs & [= <-] & ->)|(_ & [(e' & [=] & _)|(rs' & [= <-] & Hrs)])];
      (split; [done|]); intros fuel'; by apply Reviews_cached.
  - intros fs ghc' H Hne.
    apply ChangedFiles_inv in H
      as [(fs' & Hfs & -> & Hr)|(Hnone & [(c & m & [=] & _)|(fs' & ghc1 & Hc & -> & Hr)])];
      destruct (Nat.leb_spec MaxPullRequestFiles (List.length fs')) as [Hlen|Hlen];
      try discriminate Hr; injection Hr as ->.
    + split; [done|]. intros fuel'. rewrite (ChangedFiles_cached _ _ _ Hfs).
      by destruct (Nat.leb_spec MaxPullRequestFiles (List.length fs')); [lia|].
    + rewrite (appendAll_nonempty _ Hne). split; [done|]. intros fuel'.
      rewrite (ChangedFiles_cached _ _ fs') by done.
      by destruct (Nat.leb_spec MaxPullRequestFiles (List.length fs')); [lia|].
Qed.

(** Against C9 as stated: the call of [ChangedFiles] on a pull request of
    300 files fails, it leaves the 300 files cached, and the next call
    fails likewise without listing the files again. *)
Lemma too_many_files_stay_cached :
  ∃ ghc',
    ChangedFiles 5 (newContext (filesClient 300) noV4Client false)
      = Some (Err TooManyFiles, ghc') ∧
    files (newContext (filesClient 300) noV4Client false) = None ∧
    files ghc' = Some (replicate 300 (toFile exampleFile)) ∧
    trace ghc' = [EvListFiles 0; EvListFiles 2; EvListFiles 3] ∧
    ChangedFiles 5 ghc' = Some (Err TooManyFiles, ghc').
Proof. eexists. split; [by vm_compute|]. repeat split; by vm_compute. Qed.

(** A pull request without changed files: the empty list is returned, and
    since a nil slice stands for it in the cache, the next call lists the
    files again. *)
Example no_files_are_listed_again :
  ChangedFiles 5 (newContext (filesClient 0) noV4Client false)
  = Some (Ok [], logged (EvListFiles 0) (newContext (filesClient 0) noV4Client false)) ∧
  ChangedFiles 5 (logged (EvListFiles 0) (newContext (filesClient 0) noV4Client false))
  = Some (Ok [], logAll [EvListFiles 0; EvListFiles 0]
                   (newContext (filesClient 0) noV4Client false)).
Proof. split; by vm_compute. Qed.

(** ** Locators and the construction of a context *)

Lemma IsComplete_inv loc :
  IsComplete loc = true →
  Value loc ≠ None ∧
  GetLogin (GetUser (Value loc)) ≠ "" ∧
  GetRef (GetBase (Value loc)) ≠ "" ∧
  GetID (GetRepo (GetBase (Value loc))) ≠ 0 ∧
  GetSHA (GetHead (Value loc)) ≠ "" ∧
  GetRef (GetHead (Value loc)) ≠ "" ∧
  GetID (GetRepo (GetHead (Value loc))) ≠ 0 ∧
  GetName (GetRepo (GetHead (Value loc))) ≠ "" ∧
  GetLogin (GetOwner (GetRepo (GetHead (Value loc)))) ≠ "".
Proof.
  unfold IsComplete. intros H.
  repeat (case_bool_decide; [discriminate H|]). done.
Qed.

(** X1. A locator is complete only if every pointer that the fast path of
    [toV4] reads through is set: the pull request object, its user, its
    base and head branches, their repositories and the owner of the head
    repository. *)
Theorem IsComplete_pointers (loc : Locator) :
  IsComplete loc = true →
  ∃ p user base head baseRepo headRepo headOwner,
    Value loc = Some p ∧ ghUser p = Some user ∧
    ghBase p = Some base ∧ ghHead p = Some head ∧
    ghRepo base = Some baseRepo ∧ ghRepo head = Some headRepo ∧
    ghOwner headRepo = Some headOwner ∧
    is_Some (ghLogin user) ∧ is_Some (ghRef base) ∧ is_Some (ghID baseRepo) ∧
    is_Some (ghSHA head) ∧ is_Some (ghRef head) ∧ is_Some (ghID headRepo) ∧
    is_Some (ghName headRepo) ∧ is_Some (ghLogin headOwner).
Proof.
  intros H. apply IsComplete_inv in H as (Hv & Hu & Hbr & Hbi & Hhs & Hhr & Hhi & Hhn & Hho).
  destruct (Value loc) as [p|]; [|done]. clear Hv.
  unfold GetLogin, GetRef, GetID, GetSHA, GetName, GetOwner, GetRepo, GetUser, GetBase, GetHead
    in *. simpl in *.
  destruct (ghUser p) as [user|] eqn:Euser; [|done].
  destruct (ghBase p) as [base|] eqn:Ebase; [|done].
  destruct (ghHead p) as [head|] eqn:Ehead; [|done]. simpl in *.
  destruct (ghRepo base) as [baseRepo|] eqn:EbaseRepo; [|done].
  destruct (ghRepo head) as [headRepo|] eqn:EheadRepo; [|done]. simpl in *.
  destruct (ghOwner headRepo) as [headOwner|] eqn:EheadOwner; [|done]. simpl in *.
  exists p, user, base, head, baseRepo, headRepo, headOwner.
  repeat split; try done.
  all: match goal with |- is_Some ?o => destruct o; [eauto | done] end.
Qed.

Lemma IsComplete_payload :
  ∃ p user base head baseRepo headRepo headOwner,
    Value (completeLocator 2 "alice") = Some p ∧ ghUser p = Some user ∧
    ghBase p = Some base ∧ ghHead p = Some head ∧
    ghRepo base = Some baseRepo ∧ ghRepo head = Some headRepo ∧
    ghOwner headRepo = Some headOwner ∧
    is_Some (ghLogin user) ∧ is_Some (ghRef base) ∧ is_Some (ghID baseRepo) ∧
    is_Some (ghSHA head) ∧ is_Some (ghRef head) ∧ is_Some (ghID headRepo) ∧
    is_Some (ghName headRepo) ∧ is_Some (ghLogin headOwner).
Proof. apply (IsComplete_pointers (completeLocator 2 "alice")). reflexivity. Defined.

Lemma toV4_events q loc :
  (toV4 q loc).2
  = if IsComplete loc then []
    else [EvQueryPullRequest (locOwner loc) (locRepo loc) (int32 (locNumber loc))].
Proof.
  unfold toV4. destruct (IsComplete loc); simpl; [done|].
  by destruct (q (locOwner loc) (locRepo loc) (int32 (locNumber loc))).
Qed.

Lemma toV4_error q loc e :
  (toV4 q loc).1 = Err e →
  IsComplete loc = false ∧ ∃ cause, e = Wrap cause "failed to load pull request details".
Proof.
  unfold toV4. destruct (IsComplete loc); simpl; [done|].
  destruct (q (locOwner loc) (locRepo loc) (int32 (locNumber loc))) as [cause|pr0]; simpl;
    intros [= <-]. eauto.
Qed.

(** X2. Whatever the clients answer, [NewGitHubContext] makes at most one
    query. It panics exactly when the locator lacks an owner, a repository
    or a number, and then before any query; for a complete locator it makes
    no query. A context it returns has the locator's owner, repository and
    number, none of them empty or zero, the clients it was given, no cache
    filled and nothing asked yet. An error it returns is the wrapped error
    of the one query it made for an incomplete locator. *)
Theorem NewGitHubContext_outcomes (c : Client) (v4 : V4Client) (q : PullRequestClient)
    (loc : Locator) (outcome : construction) (evs : list locatorEvent) :
  NewGitHubContext c v4 q loc = (outcome, evs) →
  (List.length evs ≤ 1)%nat ∧
  ((∃ m, outcome = Panicked m)
   ↔ (locOwner loc = "" ∨ locRepo loc = "" ∨ locNumber loc = 0)) ∧
  ((∃ m, outcome = Panicked m) → evs = []) ∧
  (IsComplete loc = true → evs = []) ∧
  (∀ ghc, outcome = Returned (Ok ghc) →
     caches ghc = (None, None, None, None) ∧ trace ghc = [] ∧
     client ghc = c ∧ v4client ghc = v4 ∧
     RepositoryOwner ghc = locOwner loc ∧ RepositoryName ghc = locRepo loc ∧
     Number ghc = locNumber loc ∧
     RepositoryOwner ghc ≠ "" ∧ RepositoryName ghc ≠ "" ∧ Number ghc ≠ 0) ∧
  (∀ e, outcome = Returned (Err e) →
     IsComplete loc = false ∧
     evs = [EvQueryPullRequest (locOwner loc) (locRepo loc) (int32 (locNumber loc))] ∧
     ∃ cause, e = Wrap cause "failed to load pull request details").
Proof.
  unfold NewGitHubContext. intros H.
  pose proof (toV4_events q loc) as Hevs. pose proof (toV4_error q loc) as Herr.
  destruct (bool_decide (locOwner loc = "") || bool_decide (locRepo loc = "")
            || (locNumber loc =? 0)) eqn:Hids.
  - injection H as <- <-.
    apply orb_true_iff in Hids as [Hids|Hn].
    + apply orb_true_iff in Hids as [Ho|Hr]; apply bool_decide_eq_true in Ho || apply bool_decide_eq_true in Hr.
      all: repeat split; try done; try lia; eauto.
    + apply Z.eqb_eq in Hn. repeat split; try done; try lia; eauto.
  - apply orb_false_iff in Hids as [Hids Hn]. apply orb_false_iff in Hids as [Ho Hr].
    apply bool_decide_eq_false in Ho, Hr. apply Z.eqb_neq in Hn.
    destruct (toV4 q loc) as [[pr0|e] evs0]; simpl in Hevs, Herr; injection H as <- <-;
      subst evs0.
    all: split; [destruct (IsComplete loc); simpl; lia|].
    all: split; [split; [intros [m [=]] | intros [?|[?|?]]; done]|].
    all: split; [intros [m [=]]|].
    all: split; [by intros ->|].
    all: split; [intros ghc [= <-] | intros e' [= <-]]; try done.
    destruct (Herr e eq_refl) as [-> Hcause]. done.
Qed.

Lemma NewGitHubContext_unavailable :
  (List.length [EvQueryPullRequest "palantir" "policy-bot" 7] ≤ 1)%nat ∧
  NewGitHubContext noClient noV4Client unavailable bareLocator
  = (Returned (Err (Wrap "unavailable" "failed to load pull request details")),
     [EvQueryPullRequest "palantir" "policy-bot" 7]).
Proof.
  split; [|reflexivity].
  exact (proj1 (NewGitHubContext_outcomes noClient noV4Client unavailable bareLocator
                  _ _ eq_refl)).
Defined.

(** X3. From a complete locator with an owner, a repository and a number,
    [NewGitHubContext] builds without a query a context whose author and
    head SHA are those of the pull request object, both non-empty, which is
    cross-repository exactly when the identifiers of the head and the base
    repository differ, and whose branches are the base branch and the head
    branch, the latter prefixed with the login of the head repository's
    owner and a colon exactly for a cross-repository pull request. *)
Theorem Branches_of_complete_locator (c : Client) (v4 : V4Client) (q : PullRequestClient)
    (loc : Locator) :
  IsComplete loc = true →
  locOwner loc ≠ "" → locRepo loc ≠ "" → locNumber loc ≠ 0 →
  ∃ ghc,
    NewGitHubContext c v4 q loc = (Returned (Ok ghc), []) ∧
    PRAuthor ghc = GetLogin (GetUser (Value loc)) ∧ PRAuthor ghc ≠ "" ∧
    HeadSHA ghc = GetSHA (GetHead (Value loc)) ∧ HeadSHA ghc ≠ "" ∧
    (IsCrossRepository (pr ghc) = true
     ↔ GetID (GetRepo (GetHead (Value loc))) ≠ GetID (GetRepo (GetBase (Value loc)))) ∧
    Branches ghc
    = (GetRef (GetBase (Value loc)),
       if bool_decide (GetID (GetRepo (GetHead (Value loc)))
                       = GetID (GetRepo (GetBase (Value loc))))
       then GetRef (GetHead (Value loc))
       else (GetLogin (GetOwner (GetRepo (GetHead (Value loc)))) +:+ ":")
              +:+ GetRef (GetHead (Value loc))).
Proof.
  intros Hcomplete Ho Hr Hn.
  pose proof (IsComplete_inv _ Hcomplete) as (_ & Hu & _ & _ & Hs & _).
  unfold NewGitHubContext, toV4. rewrite Hcomplete.
  rewrite (bool_decide_eq_false_2 _ Ho), (bool_decide_eq_false_2 _ Hr). simpl.
  apply Z.eqb_neq in Hn. rewrite Hn. eexists. split; [reflexivity|].
  unfold PRAuthor, HeadSHA, Branches. simpl.
  do 4 (split; [done|]).
  destruct (Z.eqb_spec (GetID (GetRepo (GetHead (Value loc))))
              (GetID (GetRepo (GetBase (Value loc))))) as [Heq|Hne]; simpl.
  - rewrite bool_decide_eq_true_2 by done. split; [|done]. split; [done | congruence].
  - rewrite bool_decide_eq_false_2 by done. split; [|done]. split; done.
Qed.

Lemma Branches_of_fork_payload :
  ∃ ghc,
    NewGitHubContext noClient noV4Client unavailable (completeLocator 2 "alice")
    = (Returned (Ok ghc), []) ∧
    Branches ghc = ("develop", "alice:feature") ∧ HeadSHA ghc = "head".
Proof.
  destruct (Branches_of_complete_locator noClient noV4Client unavailable
              (completeLocator 2 "alice"))
    as (ghc & Hnew & _ & _ & Hsha & _ & _ & Hbranches); try done.
  exists ghc. split; [exact Hnew|]. split; [exact Hbranches | exact Hsha].
Defined.

(** ** What the parent-chain inference leaves alone *)

Lemma sameCommit_refl c : sameCommit c c.
Proof. done. Qed.

Lemma sameCommit_trans c1 c2 c3 : sameCommit c1 c2 → sameCommit c2 c3 → sameCommit c1 c3.
Proof. unfold sameCommit. congruence. Qed.

Lemma sameCommit_setPushedAt t c : sameCommit c (setPushedAt t c).
Proof. done. Qed.

Lemma sameCommit_fields c c' :
  sameCommit c c' →
  SHA c' = SHA c ∧ Parents c' = Parents c ∧ CommittedViaWeb c' = CommittedViaWeb c ∧
  Author c' = Author c ∧ Committer c' = Committer c.
Proof. unfold sameCommit, setPushedAt. intros [= -> -> -> -> ->]. done. Qed.

Lemma fills_refl c : fills c c.
Proof. split; [done | by right]. Qed.

Lemma fills_trans c1 c2 c3 : fills c1 c2 → fills c2 c3 → fills c1 c3.
Proof.
  intros [Hs12 H12] [Hs23 H23]. split; [by eapply sameCommit_trans|].
  destruct H12 as [?|H12]; [by left|]. destruct H23 as [H23|H23].
  - rewrite H12 in H23. by left.
  - right. congruence.
Qed.

Lemma Forall2_fills_refl cs : Forall2 fills cs cs.
Proof. induction cs; constructor; [apply fills_refl | done]. Qed.

Lemma Forall2_fills_trans cs1 cs2 cs3 :
  Forall2 fills cs1 cs2 → Forall2 fills cs2 cs3 → Forall2 fills cs1 cs3.
Proof.
  intros H12. revert cs3. induction H12 as [|c1 c2 cs1 cs2 Hc _ IH]; intros cs3 H23.
  - by inversion H23.
  - inversion H23 as [|? c3 ? cs3' Hc' H23']; subst. constructor; [by eapply fills_trans | by apply IH].
Qed.

Lemma assignPushedAt_fills i t cs fp :
  cs !! i = Some fp → PushedAt fp = None → Forall2 fills cs (assignPushedAt i t cs).
Proof.
  intros Hi Hnone. unfold assignPushedAt.
  apply Forall2_same_length_lookup. split; [by rewrite length_alter|].
  intros j c c' Hc Hc'. destruct (decide (i = j)) as [->|Hne].
  - rewrite list_lookup_alter_eq, Hc in Hc'. injection Hc' as <-.
    split; [apply sameCommit_setPushedAt|]. left. congruence.
  - rewrite list_lookup_alter_ne, Hc in Hc' by done. injection Hc' as <-. apply fills_refl.
Qed.

Lemma backfillStep_fills idx cs root idx' cs' root' :
  backfillStep idx cs root = Some (idx', cs', root') → Forall2 fills cs cs'.
Proof.
  intros H. apply backfillStep_inv in H
    as (ci & c & p & ps & fi & fp & _ & _ & _ & _ & Hfp & _ & _ & ->).
  destruct (PushedAt fp) eqn:Ht; [apply Forall2_fills_refl | by eapply assignPushedAt_fills].
Qed.

Lemma backfillLoop_fills fuel idx cs root cs' :
  backfillLoop fuel idx cs root = Some cs' → Forall2 fills cs cs'.
Proof.
  revert idx cs root. induction fuel as [|fuel IH]; intros idx cs root H; [done|].
  simpl in H. destruct (backfillStep idx cs root) as [[[idx1 cs1] root1]|] eqn:Hstep.
  - eapply Forall2_fills_trans; [by eapply backfillStep_fills | by eapply IH].
  - injection H as <-. apply Forall2_fills_refl.
Qed.

(** X4. The parent-chain inference returns the commits it was given, in
    the same order: a commit that had a pushed date is returned unchanged,
    and a commit that had none is returned with nothing but its pushed date
    possibly filled in. *)
Theorem backfillPushedAt_only_fills (commits0 : list Commit) (headSHA : string) :
  ∃ commits',
    backfillPushedAt commits0 headSHA = Some commits' ∧
    Forall2 fills commits0 commits' ∧
    (∀ i c t, commits0 !! i = Some c → PushedAt c = Some t → commits' !! i = Some c) ∧
    (∀ i c c', commits0 !! i = Some c → commits' !! i = Some c' →
               SHA c' = SHA c ∧ Parents c' = Parents c ∧
               CommittedViaWeb c' = CommittedViaWeb c ∧
               Author c' = Author c ∧ Committer c' = Committer c).
Proof.
  destruct (backfillPushedAt_total commits0 headSHA) as [cs' Hcs'].
  pose proof (backfillLoop_fills _ _ _ _ _ Hcs') as Hfills.
  exists cs'. split; [done|]. split; [done|]. split.
  - intros i c t Hc Ht.
    destruct (Forall2_lookup_l _ _ _ _ _ Hfills Hc) as (c' & Hc' & Hs & Hp).
    rewrite Hc'. f_equal. destruct Hp as [Hp|Hp]; [congruence|].
    unfold sameCommit in Hs. destruct c, c'. simpl in *. injection Hs as -> -> -> -> ->.
    congruence.
  - intros i c c' Hc Hc'.
    destruct (Forall2_lookup_l _ _ _ _ _ Hfills Hc) as (c'' & Hc'' & Hs & _).
    assert (c'' = c') as -> by congruence. by apply sameCommit_fields.
Qed.

Lemma indexFrom_SHA cs cs' :
  SHA <$> cs = SHA <$> cs' → ∀ i m, indexFrom i cs m = indexFrom i cs' m.
Proof.
  revert cs'. induction cs as [|c cs IH]; intros [|c' cs'] H i m; try done.
  simpl in *. injection H as Hc H. rewrite Hc. by apply IH.
Qed.

Lemma assignPushedAt_same i cs c :
  cs !! i = Some c → assignPushedAt i (PushedAt c) cs = cs.
Proof.
  intros Hc. apply list_eq. intros j. destruct (decide (i = j)) as [<-|Hne].
  - by rewrite assignPushedAt_lookup_eq, Hc; simpl; rewrite setPushedAt_same.
  - by apply assignPushedAt_lookup_ne.
Qed.

(** Run again on its own result, the loop changes nothing. *)
Lemma backfillLoop_again fuel : ∀ idx cs root cs',
  indexValid idx cs →
  backfillLoop fuel idx cs root = Some cs' →
  backfillLoop fuel idx cs' root = Some cs'.
Proof.
  induction fuel as [|fuel IH]; intros idx cs root cs' Hv H; [done|].
  simpl in H. destruct (backfillStep idx cs root) as [[[idx1 cs1] root1]|] eqn:Hstep.
  - pose proof (backfillStep_valid _ _ _ _ _ _ Hv Hstep) as Hv1.
    pose proof (backfillStep_fills _ _ _ _ _ _ Hstep) as Hf01.
    pose proof (backfillLoop_fills _ _ _ _ _ H) as Hf1.
    pose proof (IH _ _ _ _ Hv1 H) as Hagain.
    apply backfillStep_inv in Hstep
      as (ci & c & p & ps & fi & fp & Hci & Hc & Hp & Hfi & Hfp & -> & -> & Hcs1).
    assert (SHA fp = p) as Hsha.
    { pose proof (Hv _ _ Hfi) as Hx. rewrite Hfp in Hx. by injection Hx. }
    (* the pushed date at the parent's position is final after the step *)
    assert (PushedAt <$> cs' !! fi = PushedAt <$> cs1 !! fi) as Hfinal_fi.
    { destruct (decide (p = root)) as [->|Hne].
      - destruct fuel as [|fuel']; [done|]. simpl in H. unfold backfillStep in H.
        rewrite Hsha, lookup_delete_eq in H. by injection H as <-.
      - eapply backfillLoop_root; [exact Hv1 | | exact H].
        by rewrite Hsha, lookup_delete_ne. }
    (* so is the commit at the root's position, unless it is the parent's *)
    assert (fi ≠ ci → cs' !! ci = cs1 !! ci) as Hfinal_ci.
    { intros Hne. eapply backfillLoop_untouched; [exact Hv1 | | exact H].
      intros sha. rewrite lookup_delete. case_decide as Hs; [done|].
      intros Hs'. apply Hs. exact (indexValid_inj _ _ _ _ _ Hv Hci Hs'). }
    destruct (Forall2_lookup_l _ _ _ _ _ (Forall2_fills_trans _ _ _ Hf01 Hf1) Hc)
      as (c' & Hc' & Hsc & _).
    destruct (Forall2_lookup_l _ _ _ _ _ (Forall2_fills_trans _ _ _ Hf01 Hf1) Hfp)
      as (fp' & Hfp' & Hsfp & _).
    apply sameCommit_fields in Hsc as (_ & Hpar & _).
    apply sameCommit_fields in Hsfp as (Hsha' & _).
    simpl. unfold backfillStep. rewrite Hci, Hc', Hpar, Hp, Hfi, Hfp', Hsha'.
    destruct (PushedAt fp') eqn:Hfp't; [done|].
    assert (PushedAt c' = None) as Hc't.
    { rewrite Hfp' in Hfinal_fi. simpl in Hfinal_fi. rewrite Hfp't in Hfinal_fi.
      assert (PushedAt fp = None ∧ PushedAt c = None) as [Hfpt Hct].
      { rewrite Hcs1 in Hfinal_fi. destruct (PushedAt fp) eqn:Hfpt.
        - rewrite Hfp in Hfinal_fi. simpl in Hfinal_fi. congruence.
        - rewrite assignPushedAt_lookup_eq, Hfp in Hfinal_fi. simpl in Hfinal_fi.
          split; [done | congruence]. }
      destruct (decide (fi = ci)) as [->|Hne]; [congruence|].
      rewrite (Hfinal_ci Hne), Hcs1, Hfpt, assignPushedAt_lookup_ne, Hc in Hc' by done.
      congruence. }
    rewrite Hc't, <- Hfp't, (assignPushedAt_same _ _ _ Hfp'). exact Hagain.
  - injection H as <-. simpl. by rewrite Hstep.
Qed.

(** X5. The parent-chain inference is idempotent: run on the list that it
    returned, with the same head SHA, it returns that list unchanged. *)
Theorem backfillPushedAt_idempotent (commits0 : list Commit) (headSHA : string) :
  ∃ commits',
    backfillPushedAt commits0 headSHA = Some commits' ∧
    backfillPushedAt commits' headSHA = Some commits'.
Proof.
  destruct (backfillPushedAt_total commits0 headSHA) as [cs' Hcs'].
  exists cs'. split; [done|].
  pose proof (backfillPushedAt_SHA _ _ _ Hcs') as Hsha.
  pose proof (backfillPushedAt_length _ _ _ Hcs') as Hlen.
  unfold backfillPushedAt, indexBySHA in *.
  rewrite Hlen, (indexFrom_SHA _ _ Hsha).
  eapply backfillLoop_again; [apply indexBySHA_valid | exact Hcs'].
Qed.

(** ** What a successful call of Commits returns *)

Lemma Forall2_sameCommit_refl cs : Forall2 sameCommit cs cs.
Proof. induction cs; constructor; done. Qed.

Lemma Forall2_sameCommit_trans cs1 cs2 cs3 :
  Forall2 sameCommit cs1 cs2 → Forall2 sameCommit cs2 cs3 → Forall2 sameCommit cs1 cs3.
Proof.
  intros H12. revert cs3. induction H12 as [|c1 c2 cs1 cs2 Hc _ IH]; intros cs3 H23.
  - by inversion H23.
  - inversion H23 as [|? c3 ? cs3' Hc' H23']; subst.
    constructor; [by eapply sameCommit_trans | by apply IH].
Qed.

Lemma Forall2_sameCommit_SHA cs cs' : Forall2 sameCommit cs cs' → SHA <$> cs' = SHA <$> cs.
Proof.
  induction 1 as [|c c' cs cs' Hc _ IH]; [done|]. rewrite !fmap_cons.
  apply sameCommit_fields in Hc as (-> & _). by rewrite IH.
Qed.

Lemma Forall2_fills_sameCommit cs cs' : Forall2 fills cs cs' → Forall2 sameCommit cs cs'.
Proof. intros H. eapply Forall2_impl; [exact H|]. by intros c c' [? _]. Qed.

Lemma assignPushedAt_sameCommit i t cs : Forall2 sameCommit cs (assignPushedAt i t cs).
Proof.
  unfold assignPushedAt. apply Forall2_same_length_lookup. split; [by rewrite length_alter|].
  intros j c c' Hc Hc'. destruct (decide (i = j)) as [->|Hne].
  - rewrite list_lookup_alter_eq, Hc in Hc'. by injection Hc' as <-.
  - rewrite list_lookup_alter_ne, Hc in Hc' by done. by injection Hc' as <-.
Qed.

Lemma matchNodes_sameCommit nodes idx cs :
  Forall2 sameCommit cs (matchNodes nodes (idx, cs)).2.
Proof.
  revert idx cs. induction nodes as [|n nodes IH]; intros idx cs.
  - apply Forall2_sameCommit_refl.
  - rewrite matchNodes_cons. unfold matchNode at 1.
    destruct (idx !! hOID n) as [i|]; [|apply IH].
    eapply Forall2_sameCommit_trans; [apply assignPushedAt_sameCommit | apply IH].
Qed.

Lemma loadPushedAtLoop_sameCommit fuel : ∀ cursor idx cs ghc idx' cs' ghc',
  loadPushedAtLoop fuel cursor idx cs ghc = Some (Ok (idx', cs'), ghc') →
  Forall2 sameCommit cs cs'.
Proof.
  induction fuel as [|fuel IH]; intros cursor idx cs ghc idx' cs' ghc' H; simpl in H.
  - destruct (0 <? size idx)%nat; [done|]. injection H as <- <- <-.
    apply Forall2_sameCommit_refl.
  - destruct (0 <? size idx)%nat; [|injection H as <- <- <-; apply Forall2_sameCommit_refl].
    apply bind_inv in H as [([info nodes] & ghc1 & Hq & H)|(e & _ & [=])].
    pose proof (matchNodes_sameCommit nodes idx cs) as Hsame.
    destruct (matchNodes nodes (idx, cs)) as [idx1 cs1]. simpl in Hsame.
    destruct (UpdateCursor info cursor) as [cursor' more]. destruct more; simpl in H.
    + eapply Forall2_sameCommit_trans; [exact Hsame | by eapply IH].
    + by injection H as <- <- <-.
Qed.

Lemma loadPushedAt_sameCommit fuel cs ghc cs' ghc' :
  loadPushedAt fuel cs ghc = Some (Ok cs', ghc') → Forall2 sameCommit cs cs'.
Proof.
  unfold loadPushedAt. intros H.
  apply bind_inv in H as [([idx1 cs1] & ghc1 & Hloop & H)|(e & _ & [=])].
  destruct (0 <? size idx1)%nat; [done|]. injection H as <- <-.
  by eapply loadPushedAtLoop_sameCommit.
Qed.

Lemma findHeadFrom_Some h cs : ∀ i acc j,
  findHeadFrom h i cs acc = Some j →
  acc = Some j ∨ ∃ c, cs !! (j - i)%nat = Some c ∧ SHA c = h ∧ (i ≤ j)%nat.
Proof.
  induction cs as [|c cs IH]; intros i acc j H; simpl in H; [by left|].
  apply IH in H as [H|(c' & Hc' & Hsha & Hle)].
  - case_bool_decide as Hc; [|by left]. injection H as <-. right.
    exists c. by rewrite Nat.sub_diag.
  - right. exists c'. replace (j - i)%nat with (S (j - S i)) by lia. split; [done|].
    split; [done | lia].
Qed.

Lemma findHead_Some h cs j :
  findHead h cs = Some j → ∃ c, cs !! j = Some c ∧ SHA c = h.
Proof.
  intros H. apply findHeadFrom_Some in H as [[=]|(c & Hc & Hsha & _)].
  rewrite Nat.sub_0_r in Hc. eauto.
Qed.

Lemma findHeadFrom_SHA h cs cs' :
  SHA <$> cs = SHA <$> cs' → ∀ i acc, findHeadFrom h i cs acc = findHeadFrom h i cs' acc.
Proof.
  revert cs'. induction cs as [|c cs IH]; intros [|c' cs'] H i acc; try done.
  simpl in *. injection H as Hc H. rewrite Hc. by apply IH.
Qed.

(** A round of the loader that succeeds: the fetch it made, the head it
    found in the mapped list, and the list it returns, which differs from
    the mapped one in pushed dates at most. *)
Lemma loadCommitsAttempt_ok fuel ghc cs head ghc' :
  loadCommitsAttempt fuel ghc = Some (Ok (cs, head), ghc') →
  ∃ raw ghc1,
    loadRawCommits fuel ghc = Some (Ok raw, ghc1) ∧
    findHead (HeadRefOID (pr ghc)) (map (fun r => ToCommit (prCommit r)) raw) = Some head ∧
    Forall2 sameCommit (map (fun r => ToCommit (prCommit r)) raw) cs.
Proof.
  intros H. destruct (loadRawCommits fuel ghc) as [[[raw|e] ghc1]|] eqn:Hraw.
  - rewrite (loadCommitsAttempt_fetched _ _ _ _ Hraw) in H. cbv zeta in H.
    exists raw, ghc1. split; [done|].
    destruct (findHead _ _) as [h|]; [|done].
    destruct (IsCrossRepository (pr ghc) && _).
    + destruct (loadPushedAt _ _ ghc1) as [[[cs1|e] ghc2]|] eqn:Hpushed; try done.
      injection H as <- <- <-. split; [done|]. by eapply loadPushedAt_sameCommit.
    + injection H as <- <- <-. split; [done|]. apply Forall2_sameCommit_refl.
  - unfold loadCommitsAttempt in H. by rewrite (bind_err _ _ _ _ _ Hraw) in H.
  - unfold loadCommitsAttempt, mbind, M_bind in H. by rewrite Hraw in H.
Qed.

(** The loader succeeds with the list of its last round, whose head has a
    pushed date. *)
Lemma loadCommitsLoop_ok rounds fuel : ∀ attempts ghc cs ghc',
  loadCommitsLoop rounds fuel attempts ghc = Some (Ok cs, ghc') →
  ∃ ghc0 head,
    advances (fun _ => True) ghc ghc0 ∧
    loadCommitsAttempt fuel ghc0 = Some (Ok (cs, head), ghc') ∧
    is_Some (headPushedAt cs head).
Proof.
  induction rounds as [|rounds IH]; intros attempts ghc cs ghc' H; [done|].
  simpl in H. apply bind_inv in H as [([cs1 h] & ghc1 & Hattempt & H)|(e & _ & [=])].
  destruct (headPushedAt cs1 h) as [t|] eqn:Ht.
  - injection H as <- <-. exists ghc, h. rewrite Ht. split; [apply advances_refl | eauto].
  - destruct (commitLoadMaxAttempts <=? attempts + 1).
    + by apply bind_inv in H as [(g & ghc2 & _ & [=])|(e & [=] & _)].
    + apply bind_inv in H as [([] & ghc2 & Hsleep & H)|(e & [=] & _)].
      injection Hsleep as <-. apply IH in H as (ghc0 & head & Hadv & Hatt & Hset).
      exists ghc0, head. split; [|done].
      eapply advances_trans; [|exact Hadv].
      eapply advances_trans; [|by apply advances_logged].
      eapply advances_weaken; [|by eapply loadCommitsAttempt_issues]. done.
Qed.

(** What [Commits] returned when it loaded the commits and succeeded. *)
Lemma Commits_ok_inv fuel ghc cs ghc' :
  commits ghc = None → Commits fuel ghc = Some (Ok cs, ghc') →
  ∃ cs0 ghc0 head raw ghc1,
    (List.length cs0 < MaxPullRequestCommits)%nat ∧
    backfillPushedAt cs0 (HeadRefOID (pr ghc)) = Some cs ∧
    advances (fun _ => True) ghc ghc0 ∧
    loadRawCommits fuel ghc0 = Some (Ok raw, ghc1) ∧
    findHead (HeadRefOID (pr ghc)) (map (fun r => ToCommit (prCommit r)) raw) = Some head ∧
    Forall2 sameCommit (map (fun r => ToCommit (prCommit r)) raw) cs0 ∧
    is_Some (headPushedAt cs0 head).
Proof.
  intros Hnone H.
  destruct (loadCommits fuel ghc) as [[[cs0|e] ghc1]|] eqn:Hload.
  - rewrite (Commits_loaded _ _ _ _ Hnone Hload) in H.
    destruct (Nat.leb_spec MaxPullRequestCommits (List.length cs0)) as [|Hlen]; [done|].
    destruct (backfillPushedAt cs0 (HeadRefOID (pr ghc))) as [cs'|] eqn:Hfill; [|done].
    injection H as <- <-.
    apply loadCommitsLoop_ok in Hload as (ghc0 & head & Hadv & Hattempt & Hset).
    apply loadCommitsAttempt_ok in Hattempt as (raw & ghc2 & Hraw & Hhead & Hsame).
    rewrite (advances_pr _ _ _ Hadv) in Hhead.
    exists cs0, ghc0, head, raw, ghc2. done.
  - by rewrite (Commits_load_err _ _ _ _ Hnone Hload) in H.
  - by rewrite (Commits_diverges _ _ Hnone Hload) in H.
Qed.

(** X6. When [Commits] loads the commits and succeeds, the list it returns
    is shorter than the ceiling and holds the head commit, the last commit
    with the head's SHA, and that commit has a pushed date. *)
Theorem Commits_head_resolved (fuel : nat) (ghc : GitHubContext) (cs : list Commit)
    (ghc' : GitHubContext) :
  commits ghc = None → Commits fuel ghc = Some (Ok cs, ghc') →
  ∃ i c,
    findHead (HeadSHA ghc) cs = Some i ∧ cs !! i = Some c ∧
    SHA c = HeadSHA ghc ∧ is_Some (PushedAt c) ∧
    (List.length cs < MaxPullRequestCommits)%nat.
Proof.
  intros Hnone H.
  apply Commits_ok_inv in H
    as (cs0 & ghc0 & head & raw & ghc1 & Hlen & Hfill & _ & _ & Hhead & Hsame & Hset);
    [|done].
  pose proof (backfillLoop_fills _ _ _ _ _ Hfill) as Hfills.
  pose proof (Forall2_sameCommit_SHA _ _ Hsame) as Hsha0.
  pose proof (Forall2_sameCommit_SHA _ _ (Forall2_fills_sameCommit _ _ Hfills)) as Hsha.
  assert (findHead (HeadRefOID (pr ghc)) cs = Some head) as Hfind.
  { unfold findHead in *. rewrite <- Hhead.
    apply findHeadFrom_SHA. by rewrite Hsha, Hsha0. }
  destruct (findHead_Some _ _ _ Hfind) as (c & Hc & Hc_sha).
  exists head, c. unfold HeadSHA. do 3 (split; [done|]). split.
  - destruct Hset as [t Ht]. unfold headPushedAt in Ht.
    destruct (cs0 !! head) as [c0|] eqn:Hc0; [|done]. simpl in Ht.
    destruct (Forall2_lookup_l _ _ _ _ _ Hfills Hc0) as (c' & Hc' & _ & Hp).
    assert (c' = c) as -> by congruence.
    destruct Hp as [Hp|Hp]; [congruence|]. rewrite Hp, Ht. eauto.
  - by rewrite (backfillPushedAt_length _ _ _ Hfill).
Qed.

Lemma Commits_head_resolved_late :
  ∃ i c,
    findHead "head" [commit "base" [] (Some 10); commit "head" ["base"] (Some 20)] = Some i ∧
    [commit "base" [] (Some 10); commit "head" ["base"] (Some 20)] !! i = Some c ∧
    SHA c = "head" ∧ is_Some (PushedAt c) ∧ (2 < MaxPullRequestCommits)%nat.
Proof.
  refine (Commits_head_resolved 5 (newContext noClient (lateCommits 3) false)
            [commit "base" [] (Some 10); commit "head" ["base"] (Some 20)]
            (withCommits (Some [commit "base" [] (Some 10); commit "head" ["base"] (Some 20)])
               (logAll [EvQueryCommits None; EvSleep (1 * Second);
                        EvQueryCommits None; EvSleep (2 * Second);
                        EvQueryCommits None; EvSleep (4 * Second);
                        EvQueryCommits None]
                  (newContext noClient (lateCommits 3) false))) _ _).
  - reflexivity.
  - by vm_compute.
Defined.

(** A round of the loader that succeeds, with what it did: the queries of
    its fetch of the commit list, and after them queries of the history
    only. *)
Lemma loadCommitsAttempt_ok_events fuel ghc cs head ghc' :
  loadCommitsAttempt fuel ghc = Some (Ok (cs, head), ghc') →
  ∃ raw fetch after,
    loadRawCommits fuel ghc = Some (Ok raw, logAll fetch ghc) ∧
    ghc' = logAll after (logAll fetch ghc) ∧
    fetch ≠ [] ∧ Forall isQueryCommits fetch ∧ Forall isQueryHistory after ∧
    Forall2 sameCommit (map (fun r => ToCommit (prCommit r)) raw) cs.
Proof.
  intros H. destruct (loadRawCommits fuel ghc) as [[[raw|e] ghc1]|] eqn:Hraw.
  - pose proof Hraw as Htrace. unfold loadRawCommits in Htrace.
    apply loadRawCommitsLoop_trace in Htrace as (evs & -> & Hevs).
    assert (Forall isQueryCommits (EvQueryCommits None :: evs)) as Hfetch.
    { constructor; [by eexists|]. eapply Forall_impl; [exact Hevs|].
      intros ev [c ->]. by eexists. }
    rewrite (loadCommitsAttempt_fetched _ _ _ _ Hraw) in H. cbv zeta in H.
    exists raw, (EvQueryCommits None :: evs).
    destruct (findHead _ _) as [h|]; [|done].
    destruct (IsCrossRepository (pr ghc) && _).
    + destruct (loadPushedAt _ _ _) as [[[cs1|e] ghc2]|] eqn:Hpushed; try done.
      injection H as <- <- <-.
      destruct (loadPushedAt_issues _ _ _ _ _ Hpushed) as (after & -> & Hafter).
      exists after. do 5 (split; [done|]). by eapply loadPushedAt_sameCommit.
    + injection H as <- <- <-. exists []. do 5 (split; [done|]).
      apply Forall2_sameCommit_refl.
  - unfold loadCommitsAttempt in H. by rewrite (bind_err _ _ _ _ _ Hraw) in H.
  - unfold loadCommitsAttempt, mbind, M_bind in H. by rewrite Hraw in H.
Qed.

(** X7. When [Commits] loads the commits and succeeds, the list it returns
    is, commit for commit and in the same order, the mapping of the raw
    commits of the last fetch of the call, pushed dates apart: SHA, parents,
    author, committer and the web flag are the fetched ones. The call is
    what came before that fetch, then the queries of the fetch, which
    returned the raw commits in the context the call had reached, then
    queries of the history only; it leaves the context so reached with the
    returned list cached. *)
Theorem Commits_returns_fetched (fuel : nat) (ghc : GitHubContext) (cs : list Commit)
    (ghc' : GitHubContext) :
  commits ghc = None → Commits fuel ghc = Some (Ok cs, ghc') →
  ∃ before raw fetch after,
    ghc' = withCommits (Some cs) (logAll after (logAll fetch (logAll before ghc))) ∧
    trace ghc' = trace ghc ++ before ++ fetch ++ after ∧
    loadRawCommits fuel (logAll before ghc)
    = Some (Ok raw, logAll fetch (logAll before ghc)) ∧
    fetch ≠ [] ∧ Forall isQueryCommits fetch ∧ Forall isQueryHistory after ∧
    Forall2 sameCommit (map (fun r => ToCommit (prCommit r)) raw) cs ∧
    SHA <$> cs = (fun r => OID (prCommit r)) <$> raw ∧
    Parents <$> cs = (fun r => ParentOIDs (prCommit r)) <$> raw.
Proof.
  intros Hnone H.
  destruct (loadCommits fuel ghc) as [[[cs0|e] ghcL]|] eqn:Hload.
  - rewrite (Commits_loaded _ _ _ _ Hnone Hload) in H.
    destruct (Nat.leb_spec MaxPullRequestCommits (List.length cs0)) as [|Hlen]; [done|].
    destruct (backfillPushedAt cs0 (HeadRefOID (pr ghc))) as [cs'|] eqn:Hfill; [|done].
    injection H as <- <-.
    apply loadCommitsLoop_ok in Hload as (ghc0 & head & (before & -> & _) & Hattempt & _).
    apply loadCommitsAttempt_ok_events in Hattempt
      as (raw & fetch & after & Hraw & -> & Hne & Hfetch & Hafter & Hsame).
    pose proof (Forall2_fills_sameCommit _ _ (backfillLoop_fills _ _ _ _ _ Hfill)) as Hsame'.
    pose proof (Forall2_sameCommit_trans _ _ _ Hsame Hsame') as Hall.
    exists before, raw, fetch, after. split; [done|]. split.
    { simpl. by rewrite !logAll_trace, <- !app_assoc. }
    do 5 (split; [done|]).
    clear -Hall. revert cs' Hall. induction raw as [|r raw IH]; intros cs Hall.
    + by inversion Hall.
    + inversion Hall as [|? c ? cs' Hc Hrest]; subst. rewrite !fmap_cons.
      apply sameCommit_fields in Hc as (Hs & Hp & _). simpl in Hs, Hp.
      destruct (IH _ Hrest) as [-> ->]. by rewrite Hs, Hp.
  - by rewrite (Commits_load_err _ _ _ _ Hnone Hload) in H.
  - by rewrite (Commits_diverges _ _ Hnone Hload) in H.
Qed.

Lemma Commits_returns_fetched_late :
  ∃ before raw fetch after,
    withCommits (Some [commit "base" [] (Some 10); commit "head" ["base"] (Some 20)])
      (logAll [EvQueryCommits None; EvSleep (1 * Second);
               EvQueryCommits None; EvSleep (2 * Second);
               EvQueryCommits None; EvSleep (4 * Second);
               EvQueryCommits None]
         (newContext noClient (lateCommits 3) false))
    = withCommits (Some [commit "base" [] (Some 10); commit "head" ["base"] (Some 20)])
        (logAll after (logAll fetch
           (logAll before (newContext noClient (lateCommits 3) false)))) ∧
    trace (withCommits (Some [commit "base" [] (Some 10); commit "head" ["base"] (Some 20)])
             (logAll [EvQueryCommits None; EvSleep (1 * Second);
                      EvQueryCommits None; EvSleep (2 * Second);
                      EvQueryCommits None; EvSleep (4 * Second);
                      EvQueryCommits None]
                (newContext noClient (lateCommits 3) false)))
    = trace (newContext noClient (lateCommits 3) false) ++ before ++ fetch ++ after ∧
    loadRawCommits 5 (logAll before (newContext noClient (lateCommits 3) false))
    = Some (Ok raw, logAll fetch (logAll before (newContext noClient (lateCommits 3) false))) ∧
    fetch ≠ [] ∧ Forall isQueryCommits fetch ∧ Forall isQueryHistory after ∧
    Forall2 sameCommit (map (fun r => ToCommit (prCommit r)) raw)
      [commit "base" [] (Some 10); commit "head" ["base"] (Some 20)] ∧
    SHA <$> [commit "base" [] (Some 10); commit "head" ["base"] (Some 20)]
      = (fun r => OID (prCommit r)) <$> raw ∧
    Parents <$> [commit "base" [] (Some 10); commit "head" ["base"] (Some 20)]
      = (fun r => ParentOIDs (prCommit r)) <$> raw.
Proof.
  refine (Commits_returns_fetched 5 (newContext noClient (lateCommits 3) false)
            [commit "base" [] (Some 10); commit "head" ["base"] (Some 20)]
            (withCommits (Some [commit "base" [] (Some 10); commit "head" ["base"] (Some 20)])
               (logAll [EvQueryCommits None; EvSleep (1 * Second);
                        EvQueryCommits None; EvSleep (2 * Second);
                        EvQueryCommits None; EvSleep (4 * Second);
                        EvQueryCommits None]
                  (newContext noClient (lateCommits 3) false))) _ _).
  - reflexivity.
  - by vm_compute.
Defined.

(** ** The cost of a call of Commits *)

Lemma loadCommitsLoop_bound rounds fuel : ∀ attempts ghc r ghc',
  loadCommitsLoop rounds fuel attempts ghc = Some (r, ghc') →
  ∃ k, (k = 0%nat ∨ attempts + Z.of_nat k < commitLoadMaxAttempts) ∧
       sleeps (trace ghc') = sleeps (trace ghc) ++ delaysFrom attempts k ∧
       fetches (trace ghc') = (fetches (trace ghc) + S k)%nat.
Proof.
  induction rounds as [|rounds IH]; intros attempts ghc r ghc' H; [done|].
  simpl in H. apply bind_inv in H as [([cs1 h] & ghc1 & Hattempt & H)|(e & Hattempt & _)].
  - apply loadCommitsAttempt_trace in Hattempt as (Hf & Hs & _).
    destruct (headPushedAt cs1 h) as [t|].
    { injection H as <- <-. exists 0%nat. simpl. rewrite app_nil_r.
      split; [by left|]. split; [done | lia]. }
    destruct (Z.leb_spec commitLoadMaxAttempts (attempts + 1)) as [|Hlt].
    { apply bind_inv in H as [(g & ghc2 & [= <- <-] & [= <- <-])|(e & [=] & _)].
      exists 0%nat. simpl. rewrite app_nil_r. split; [by left|]. split; [done | lia]. }
    apply bind_inv in H as [([] & ghc2 & [= <-] & H)|(e & [=] & _)].
    apply IH in H as (k & Hk & Hs' & Hf'). simpl in Hs', Hf'.
    rewrite sleeps_app in Hs'. rewrite fetches_app, (fetches_none [_]) in Hf'
      by (by constructor).
    exists (S k). split; [right; lia|]. simpl.
    rewrite Hs', Hf', Hs, Hf, <- app_assoc. split; [done | lia].
  - apply loadCommitsAttempt_trace in Hattempt as (Hf & Hs & _).
    exists 0%nat. simpl. rewrite app_nil_r. split; [by left|]. split; [done | lia].
Qed.

(** X8. Whatever the platform answers and however it ends, a call of
    [Commits] that loads the commits fetches the commit list at most five
    times and sleeps only between fetches: the first [k] of the delays 1s,
    2s, 4s, 8s for [k + 1] fetches, so never more than 15s in all. *)
Theorem Commits_bounded (fuel : nat) (ghc : GitHubContext) (r : result (list Commit))
    (ghc' : GitHubContext) :
  commits ghc = None → Commits fuel ghc = Some (r, ghc') →
  ∃ k, (k ≤ 4)%nat ∧
       fetches (trace ghc') = (fetches (trace ghc) + S k)%nat ∧
       sleeps (trace ghc')
       = sleeps (trace ghc) ++ take k [1 * Second; 2 * Second; 4 * Second; 8 * Second] ∧
       foldr Z.add 0 (take k [1 * Second; 2 * Second; 4 * Second; 8 * Second])
       ≤ 15 * Second.
Proof.
  intros Hnone H.
  assert (∃ r1 ghc1, loadCommits fuel ghc = Some (r1, ghc1) ∧ trace ghc' = trace ghc1)
    as (r1 & ghc1 & Hload & ->).
  { destruct (loadCommits fuel ghc) as [[[cs0|e] ghc1]|] eqn:Hload.
    - rewrite (Commits_loaded _ _ _ _ Hnone Hload) in H.
      destruct (MaxPullRequestCommits <=? List.length cs0)%nat.
      + injection H as <- <-. eauto.
      + destruct (backfillPushedAt cs0 (HeadRefOID (pr ghc))); [|done].
        injection H as <- <-. eauto.
    - rewrite (Commits_load_err _ _ _ _ Hnone Hload) in H. injection H as <- <-. eauto.
    - by rewrite (Commits_diverges _ _ Hnone Hload) in H. }
  apply loadCommitsLoop_bound in Hload as (k & Hk & Hs & Hf).
  assert (k ≤ 4)%nat as Hk4 by (unfold commitLoadMaxAttempts in Hk; lia).
  exists k. split; [done|]. split; [done|]. rewrite Hs, delaysFrom_take by done.
  split; [done|]. clear -Hk4.
  do 5 (destruct k as [|k]; [by vm_compute|]). lia.
Qed.

Lemma Commits_bounded_stale_head :
  ∃ k, (k ≤ 4)%nat ∧
       fetches [EvQueryCommits None; EvSleep (1 * Second);
                EvQueryCommits None; EvSleep (2 * Second);
                EvQueryCommits None; EvSleep (4 * Second);
                EvQueryCommits None; EvSleep (8 * Second);
                EvQueryCommits None] = (0 + S k)%nat ∧
       sleeps [EvQueryCommits None; EvSleep (1 * Second);
               EvQueryCommits None; EvSleep (2 * Second);
               EvQueryCommits None; EvSleep (4 * Second);
               EvQueryCommits None; EvSleep (8 * Second);
               EvQueryCommits None]
       = [] ++ take k [1 * Second; 2 * Second; 4 * Second; 8 * Second] ∧
       foldr Z.add 0 (take k [1 * Second; 2 * Second; 4 * Second; 8 * Second])
       ≤ 15 * Second.
Proof.
  refine (Commits_bounded 5 (newContext noClient (lateCommits 5) false)
            (Err (PushedDateMissing "head"))
            (logAll [EvQueryCommits None; EvSleep (1 * Second);
                     EvQueryCommits None; EvSleep (2 * Second);
                     EvQueryCommits None; EvSleep (4 * Second);
                     EvQueryCommits None; EvSleep (8 * Second);
                     EvQueryCommits None]
               (newContext noClient (lateCommits 5) false)) _ _).
  - reflexivity.
  - by vm_compute.
Defined.

(** ** The errors of the accessors *)

Lemma raises_ret {A : Type} P (a : A) : raises P (mret a).
Proof. by intros ghc e ghc' [=]. Qed.

Lemma raises_throw {A : Type} (P : error → Prop) e : P e → raises P (@throw A e).
Proof. by intros HP ghc e' ghc' [= <- <-]. Qed.

Lemma raises_outOfFuel {A : Type} P : raises P (@outOfFuel A).
Proof. by intros ghc e ghc' [=]. Qed.

Lemma raises_query {A : Type} (P : error → Prop) ev message
    (ask : GitHubContext → string + A) :
  (∀ cause, P (Wrap cause message)) → raises P (query ev message ask).
Proof.
  intros HP ghc e ghc' H.
  apply query_inv in H as [_ [(a & _ & [=])|(cause & _ & [= ->])]]. apply HP.
Qed.

Lemma raises_bind {A B : Type} P (m : M A) (f : A → M B) :
  raises P m → (∀ a, raises P (f a)) → raises P (m ≫= f).
Proof.
  intros Hm Hf ghc e ghc' H.
  apply bind_inv in H as [(a & ghc1 & _ & H)|(e' & H & [= ->])].
  - by eapply Hf.
  - by eapply Hm.
Qed.

Lemma listAllFiles_raises fuel page acc :
  raises (fun e => ∃ cause, e = Wrap cause "failed to list pull request files")
    (listAllFiles fuel page acc).
Proof.
  revert page acc. induction fuel as [|fuel IH]; intros page acc; simpl.
  - apply raises_outOfFuel.
  - apply raises_bind; [apply raises_query; eauto|].
    intros [fs next]. destruct (next =? 0); [apply raises_ret | apply IH].
Qed.

Lemma loadPagedDataLoop_raises fuel cc rc cs rs :
  raises (fun e => ∃ cause, e = Wrap cause "failed to load pull request data")
    (loadPagedDataLoop fuel cc rc cs rs).
Proof.
  revert cc rc cs rs. induction fuel as [|fuel IH]; intros cc rc cs rs; simpl.
  - apply raises_outOfFuel.
  - apply raises_bind; [apply raises_query; eauto|].
    intros [[cInfo cNodes] [rInfo rNodes]].
    destruct (UpdateCursor cInfo cc) as [cc' moreC], (UpdateCursor rInfo rc) as [rc' moreR].
    match goal with |- context [if ?b then _ else _] => destruct b end;
      [apply raises_ret | apply IH].
Qed.

Lemma loadRawCommitsLoop_raises fuel cursor acc :
  raises (fun e => ∃ cause, e = Wrap cause "failed to load commits")
    (loadRawCommitsLoop fuel cursor acc).
Proof.
  revert cursor acc. induction fuel as [|fuel IH]; intros cursor acc; simpl.
  - apply raises_outOfFuel.
  - apply raises_bind; [apply raises_query; eauto|].
    intros [info nodes]. destruct (UpdateCursor info cursor) as [cursor' more].
    destruct more; simpl; [apply IH | apply raises_ret].
Qed.

Lemma loadPushedAtLoop_raises fuel cursor idx cs :
  raises (fun e => ∃ cause, e = Wrap cause "failed to load commit pushed dates")
    (loadPushedAtLoop fuel cursor idx cs).
Proof.
  revert cursor idx cs. induction fuel as [|fuel IH]; intros cursor idx cs; simpl.
  - destruct (0 <? size idx)%nat; [apply raises_outOfFuel | apply raises_ret].
  - destruct (0 <? size idx)%nat; [|apply raises_ret].
    apply raises_bind; [apply raises_query; eauto|].
    intros [info nodes]. destruct (matchNodes nodes (idx, cs)) as [idx' cs'].
    destruct (UpdateCursor info cursor) as [cursor' more].
    destruct more; simpl; [apply IH | apply raises_ret].
Qed.

Lemma loadPushedAt_raises fuel cs :
  raises (fun e => (∃ cause, e = Wrap cause "failed to load commit pushed dates") ∨
                   (∃ n, (0 < n)%nat ∧ e = CommitsNotFound n))
    (loadPushedAt fuel cs).
Proof.
  apply raises_bind.
  - intros ghc e ghc' H. left. by eapply loadPushedAtLoop_raises.
  - intros [idx cs']. destruct (Nat.ltb_spec 0 (size idx)); [|apply raises_ret].
    apply raises_throw. right. eauto.
Qed.

Lemma loadCommitsAttempt_raises fuel ghc e ghc' :
  loadCommitsAttempt fuel ghc = Some (Err e, ghc') →
  commitsError (IsCrossRepository (pr ghc)) (HeadRefOID (pr ghc)) e.
Proof.
  intros H. destruct (loadRawCommits fuel ghc) as [[[raw|e0] ghc1]|] eqn:Hraw.
  - rewrite (loadCommitsAttempt_fetched _ _ _ _ Hraw) in H. cbv zeta in H.
    destruct (findHead _ _) as [h|]; [|injection H as <- <-; right; by left].
    destruct (IsCrossRepository (pr ghc)); simpl in H; [|done].
    case_bool_decide; [|done].
    destruct (loadPushedAt _ _ ghc1) as [[[cs1|e1] ghc2]|] eqn:Hpushed; try done.
    injection H as <- <-. apply loadPushedAt_raises in Hpushed.
    do 4 right. done.
  - unfold loadCommitsAttempt in H. rewrite (bind_err _ _ _ _ _ Hraw) in H.
    injection H as <- <-. left. by eapply loadRawCommitsLoop_raises.
  - unfold loadCommitsAttempt, mbind, M_bind in H. by rewrite Hraw in H.
Qed.

Lemma loadCommitsLoop_raises rounds fuel : ∀ attempts ghc e ghc',
  loadCommitsLoop rounds fuel attempts ghc = Some (Err e, ghc') →
  commitsError (IsCrossRepository (pr ghc)) (HeadRefOID (pr ghc)) e.
Proof.
  induction rounds as [|rounds IH]; intros attempts ghc e ghc' H; [done|].
  simpl in H. apply bind_inv in H as [([cs1 h] & ghc1 & Hattempt & H)|(e' & Hattempt & [= ->])].
  - apply loadCommitsAttempt_trace in Hattempt as (_ & _ & _ & Hpr).
    destruct (headPushedAt cs1 h); [done|].
    destruct (commitLoadMaxAttempts <=? attempts + 1).
    + apply bind_inv in H as [(g & ghc2 & [= <- <-] & [= <- <-])|(e' & [=] & _)].
      rewrite Hpr. right. right. by left.
    + apply bind_inv in H as [([] & ghc2 & [= <-] & H)|(e' & [=] & _)].
      apply IH in H. simpl in H. by rewrite Hpr in H.
  - by eapply loadCommitsAttempt_raises.
Qed.

(** X9. The errors of the accessors. [ChangedFiles] fails only with the
    size-exceeded error or a wrapped error of the file listing; [Comments]
    and [Reviews] fail only with a wrapped error of the combined query;
    [Commits] fails only with a wrapped error of the commit query, the
    head-missing or the pushed-date-missing error for the context's head
    SHA, its size-exceeded error, or, for a pull request from a fork only,
    a wrapped error of the history query or the error that counts at least
    one commit not found. *)
Theorem accessor_errors (fuel : nat) (ghc : GitHubContext) :
  (∀ e ghc', ChangedFiles fuel ghc = Some (Err e, ghc') →
     e = TooManyFiles ∨ ∃ cause, e = Wrap cause "failed to list pull request files") ∧
  (∀ e ghc', Comments fuel ghc = Some (Err e, ghc') →
     ∃ cause, e = Wrap cause "failed to load pull request data") ∧
  (∀ e ghc', Reviews fuel ghc = Some (Err e, ghc') →
     ∃ cause, e = Wrap cause "failed to load pull request data") ∧
  (∀ e ghc', Commits fuel ghc = Some (Err e, ghc') →
     commitsError (IsCrossRepository (pr ghc)) (HeadSHA ghc) e).
Proof.
  repeat apply conj.
  - intros e ghc' H. destruct (files ghc) as [fs|] eqn:Hfs.
    + rewrite (ChangedFiles_cached _ _ _ Hfs) in H.
      destruct (MaxPullRequestFiles <=? List.length fs)%nat; [|done].
      injection H as <- <-. by left.
    + destruct (listAllFiles fuel 0 [] ghc) as [[[allFiles|e0] ghc1]|] eqn:Hlist.
      * rewrite (ChangedFiles_listed _ _ _ _ Hfs Hlist) in H.
        destruct (MaxPullRequestFiles <=? List.length allFiles)%nat; [|done].
        injection H as <- <-. by left.
      * rewrite (ChangedFiles_list_error _ _ _ _ Hfs Hlist) in H. injection H as <- <-.
        right. by eapply listAllFiles_raises.
      * unfold ChangedFiles, mbind, M_bind, get in H. by rewrite Hfs, Hlist in H.
  - intros e ghc' H. destruct (comments ghc) as [cs|] eqn:Hcs.
    + by rewrite (Comments_cached _ _ _ Hcs) in H.
    + unfold Comments, mbind, M_bind, get in H. rewrite Hcs in H.
      destruct (loadPagedData fuel ghc) as [[[[]|e0] ghc1]|] eqn:Hload; try done.
      injection H as <- <-. unfold loadPagedData in Hload.
      apply bind_inv in Hload as [([cs rs] & ghc2 & _ & [=])|(e' & Hloop & [= ->])].
      by eapply loadPagedDataLoop_raises.
  - intros e ghc' H. destruct (reviews ghc) as [rs|] eqn:Hrs.
    + by rewrite (Reviews_cached _ _ _ Hrs) in H.
    + unfold Reviews, mbind, M_bind, get in H. rewrite Hrs in H.
      destruct (loadPagedData fuel ghc) as [[[[]|e0] ghc1]|] eqn:Hload; try done.
      injection H as <- <-. unfold loadPagedData in Hload.
      apply bind_inv in Hload as [([cs rs] & ghc2 & _ & [=])|(e' & Hloop & [= ->])].
      by eapply loadPagedDataLoop_raises.
  - intros e ghc' H. unfold HeadSHA. destruct (commits ghc) as [cs|] eqn:Hcs.
    + by rewrite (Commits_cached _ _ _ Hcs) in H.
    + destruct (loadCommits fuel ghc) as [[[cs0|e0] ghc1]|] eqn:Hload.
      * rewrite (Commits_loaded _ _ _ _ Hcs Hload) in H.
        destruct (MaxPullRequestCommits <=? List.length cs0)%nat.
        -- injection H as <- <-. do 3 right. by left.
        -- by destruct (backfillPushedAt cs0 (HeadRefOID (pr ghc))).
      * rewrite (Commits_load_err _ _ _ _ Hcs Hload) in H. injection H as <- <-.
        by eapply loadCommitsLoop_raises.
      * by rewrite (Commits_diverges _ _ Hcs Hload) in H.
Qed.

(** ** What each accessor touches *)

Lemma logAll_identity evs ghc : identity (logAll evs ghc) = identity ghc.
Proof.
  revert ghc. induction evs as [|ev evs IH]; intros ghc; simpl; [done|]. by rewrite IH.
Qed.

Lemma loadCommitsLoop_loader_events rounds fuel attempts :
  issues isLoaderEvent (loadCommitsLoop rounds fuel attempts).
Proof.
  revert attempts. induction rounds as [|rounds IH]; intros attempts; simpl.
  - apply issues_outOfFuel.
  - apply issues_bind.
    { eapply issues_weaken; [|apply loadCommitsAttempt_issues]. by left. }
    intros [cs h]. destruct (headPushedAt cs h); [apply issues_ret|].
    destruct (commitLoadMaxAttempts <=? attempts + 1).
    + apply issues_bind; [apply issues_get | intros; apply issues_throw].
    + apply issues_bind; [apply issues_Sleep; right; eauto | intros; apply IH].
Qed.

(** X10. Each accessor touches only what is its own. Whatever it returns,
    it leaves the context's owner, repository, number, pull request and
    clients as they were and only appends to the trace. [ChangedFiles] only
    lists files and leaves the caches of commits, comments and reviews as
    they were; [Commits] only queries commits and the fork's history and
    sleeps, and leaves the caches of files, comments and reviews;
    [Comments] and [Reviews] only make the combined query and leave the
    caches of files and commits. *)
Theorem accessor_frames (fuel : nat) (ghc : GitHubContext) :
  (∀ r ghc', ChangedFiles fuel ghc = Some (r, ghc') →
     ∃ evs, trace ghc' = trace ghc ++ evs ∧ Forall isListFiles evs ∧
            identity ghc' = identity ghc ∧
            (commits ghc', comments ghc', reviews ghc')
            = (commits ghc, comments ghc, reviews ghc)) ∧
  (∀ r ghc', Commits fuel ghc = Some (r, ghc') →
     ∃ evs, trace ghc' = trace ghc ++ evs ∧ Forall isLoaderEvent evs ∧
            identity ghc' = identity ghc ∧
            (files ghc', comments ghc', reviews ghc')
            = (files ghc, comments ghc, reviews ghc)) ∧
  (∀ r ghc', Comments fuel ghc = Some (r, ghc') →
     ∃ evs, trace ghc' = trace ghc ++ evs ∧ Forall isQueryPagedData evs ∧
            identity ghc' = identity ghc ∧
            (files ghc', commits ghc') = (files ghc, commits ghc)) ∧
  (∀ r ghc', Reviews fuel ghc = Some (r, ghc') →
     ∃ evs, trace ghc' = trace ghc ++ evs ∧ Forall isQueryPagedData evs ∧
            identity ghc' = identity ghc ∧
            (files ghc', commits ghc') = (files ghc, commits ghc)).
Proof.
  assert (∀ P evs g, Forall P evs →
            trace (logAll evs g) = trace g ++ evs ∧ Forall P evs ∧
            identity (logAll evs g) = identity g ∧ caches (logAll evs g) = caches g)
    as Hlog.
  { intros P evs g HP. by rewrite logAll_trace, logAll_identity, logAll_caches. }
  assert (∀ P (g : GitHubContext), trace g = trace g ++ [] ∧ Forall P (@nil event))
    as Hnil by (intros; by rewrite app_nil_r).
  repeat apply conj.
  - intros r ghc' H. destruct (files ghc) as [fs|] eqn:Hfs.
    + rewrite (ChangedFiles_cached _ _ _ Hfs) in H. injection H as <- <-.
      exists []. by destruct (Hnil isListFiles ghc).
    + destruct (listAllFiles fuel 0 [] ghc) as [[[allFiles|e0] ghc1]|] eqn:Hlist.
      * rewrite (ChangedFiles_listed _ _ _ _ Hfs Hlist) in H. injection H as <- <-.
        apply listAllFiles_issues in Hlist as (evs & -> & Hevs).
        destruct (Hlog _ evs ghc Hevs) as (Ht & _ & Hid & Hc). exists evs.
        unfold caches in Hc. injection Hc as _ Hc1 Hc2 Hc3. simpl.
        split; [done|]. split; [done|]. split; [done | congruence].
      * rewrite (ChangedFiles_list_error _ _ _ _ Hfs Hlist) in H. injection H as <- <-.
        apply listAllFiles_issues in Hlist as (evs & -> & Hevs).
        destruct (Hlog _ evs ghc Hevs) as (Ht & _ & Hid & Hc). exists evs.
        unfold caches in Hc. injection Hc as _ Hc1 Hc2 Hc3.
        split; [done|]. split; [done|]. split; [done | congruence].
      * unfold ChangedFiles, mbind, M_bind, get in H. by rewrite Hfs, Hlist in H.
  - intros r ghc' H. destruct (commits ghc) as [cs|] eqn:Hcs.
    + rewrite (Commits_cached _ _ _ Hcs) in H. injection H as <- <-.
      exists []. by destruct (Hnil isLoaderEvent ghc).
    + destruct (loadCommits fuel ghc) as [[[cs0|e0] ghc1]|] eqn:Hload.
      * rewrite (Commits_loaded _ _ _ _ Hcs Hload) in H.
        apply loadCommitsLoop_loader_events in Hload as (evs & -> & Hevs).
        destruct (Hlog _ evs ghc Hevs) as (Ht & _ & Hid & Hc). exists evs.
        unfold caches in Hc. injection Hc as Hc0 _ Hc2 Hc3.
        destruct (MaxPullRequestCommits <=? List.length cs0)%nat.
        -- injection H as <- <-. split; [done|]. split; [done|]. split; [done | congruence].
        -- destruct (backfillPushedAt cs0 (HeadRefOID (pr ghc))); [|done].
           injection H as <- <-. simpl.
           split; [done|]. split; [done|]. split; [done | congruence].
      * rewrite (Commits_load_err _ _ _ _ Hcs Hload) in H. injection H as <- <-.
        apply loadCommitsLoop_loader_events in Hload as (evs & -> & Hevs).
        destruct (Hlog _ evs ghc Hevs) as (Ht & _ & Hid & Hc). exists evs.
        unfold caches in Hc. injection Hc as Hc0 _ Hc2 Hc3.
        split; [done|]. split; [done|]. split; [done | congruence].
      * by rewrite (Commits_diverges _ _ Hcs Hload) in H.
  - intros r ghc' H. destruct (comments ghc) as [cs|] eqn:Hcs.
    + rewrite (Comments_cached _ _ _ Hcs) in H. injection H as <- <-.
      exists []. by destruct (Hnil isQueryPagedData ghc).
    + unfold Comments, mbind, M_bind, get in H. rewrite Hcs in H.
      destruct (loadPagedData fuel ghc) as [[[[]|e0] ghc1]|] eqn:Hload; try done;
        injection H as <- <-; unfold loadPagedData in Hload;
        apply bind_inv in Hload as [([cs rs] & ghc2 & Hloop & Hset)|(e' & Hloop & Hr)];
        try discriminate Hr; try discriminate Hset;
        apply loadPagedDataLoop_issues in Hloop as (evs & -> & Hevs);
        destruct (Hlog _ evs ghc Hevs) as (Ht & _ & Hid & Hc); exists evs;
        unfold caches in Hc; injection Hc as Hc0 Hc1 _ _.
      * injection Hset as <-. simpl. split; [done|]. split; [done|].
        split; [done | congruence].
      * split; [done|]. split; [done|]. split; [done | congruence].
  - intros r ghc' H. destruct (reviews ghc) as [rs|] eqn:Hrs.
    + rewrite (Reviews_cached _ _ _ Hrs) in H. injection H as <- <-.
      exists []. by destruct (Hnil isQueryPagedData ghc).
    + unfold Reviews, mbind, M_bind, get in H. rewrite Hrs in H.
      destruct (loadPagedData fuel ghc) as [[[[]|e0] ghc1]|] eqn:Hload; try done;
        injection H as <- <-; unfold loadPagedData in Hload;
        apply bind_inv in Hload as [([cs rs] & ghc2 & Hloop & Hset)|(e' & Hloop & Hr)];
        try discriminate Hr; try discriminate Hset;
        apply loadPagedDataLoop_issues in Hloop as (evs & -> & Hevs);
        destruct (Hlog _ evs ghc Hevs) as (Ht & _ & Hid & Hc); exists evs;
        unfold caches in Hc; injection Hc as Hc0 Hc1 _ _.
      * injection Hset as <-. simpl. split; [done|]. split; [done|].
        split; [done | congruence].
      * split; [done|]. split; [done|]. split; [done | congruence].
Qed.

Lemma loadCommitsAttempt_same_repository fuel ghc r ghc' :
  IsCrossRepository (pr ghc) = false →
  loadCommitsAttempt fuel ghc = Some (r, ghc') → advances isQueryCommits ghc ghc'.
Proof.
  intros Hfork H. destruct (loadRawCommits fuel ghc) as [[[raw|e0] ghc1]|] eqn:Hraw.
  - rewrite (loadCommitsAttempt_fetched _ _ _ _ Hraw), Hfork in H. cbv zeta in H.
    apply loadRawCommitsLoop_issues in Hraw.
    destruct (findHead _ _) as [h|]; simpl in H; by injection H as <- <-.
  - unfold loadCommitsAttempt in H. rewrite (bind_err _ _ _ _ _ Hraw) in H.
    injection H as <- <-. by eapply loadRawCommitsLoop_issues.
  - unfold loadCommitsAttempt, mbind, M_bind in H. by rewrite Hraw in H.
Qed.

Lemma loadCommitsLoop_same_repository rounds fuel : ∀ attempts ghc r ghc',
  IsCrossRepository (pr ghc) = false →
  loadCommitsLoop rounds fuel attempts ghc = Some (r, ghc') →
  advances isFetchOrSleep ghc ghc'.
Proof.
  induction rounds as [|rounds IH]; intros attempts ghc r ghc' Hfork H; [done|].
  simpl in H.
  apply bind_inv in H as [([cs1 h] & ghc1 & Hattempt & H)|(e' & Hattempt & _)].
  - pose proof (loadCommitsAttempt_same_repository _ _ _ _ Hfork Hattempt) as Hadv.
    pose proof (advances_pr _ _ _ Hadv) as Hpr.
    apply (advances_weaken _ isFetchOrSleep) in Hadv; [|by left].
    destruct (headPushedAt cs1 h); [by injection H as <- <-|].
    destruct (commitLoadMaxAttempts <=? attempts + 1).
    + by apply bind_inv in H as [(g & ghc2 & [= <- <-] & [= <- <-])|(e' & [=] & _)].
    + apply bind_inv in H as [([] & ghc2 & [= <-] & H)|(e' & [=] & _)].
      apply IH in H; [|simpl; congruence].
      eapply advances_trans; [exact Hadv|].
      eapply advances_trans; [|exact H]. apply advances_logged. right. eauto.
  - eapply advances_weaken; [|by eapply loadCommitsAttempt_same_repository]. by left.
Qed.

(** X11. For a pull request that is not from a fork, [Commits] never
    queries the history of the head repository: whatever it returns, it
    has only queried the commit list and slept. *)
Theorem Commits_same_repository (fuel : nat) (ghc : GitHubContext)
    (r : result (list Commit)) (ghc' : GitHubContext) :
  IsCrossRepository (pr ghc) = false →
  Commits fuel ghc = Some (r, ghc') →
  ∃ evs, trace ghc' = trace ghc ++ evs ∧ Forall isFetchOrSleep evs ∧
         Forall (fun ev => ¬ isQueryHistory ev) evs.
Proof.
  intros Hfork H.
  assert (∃ evs, trace ghc' = trace ghc ++ evs ∧ Forall isFetchOrSleep evs)
    as (evs & Ht & Hevs).
  { destruct (commits ghc) as [cs|] eqn:Hcs.
    - rewrite (Commits_cached _ _ _ Hcs) in H. injection H as <- <-.
      exists []. by rewrite app_nil_r.
    - destruct (loadCommits fuel ghc) as [[[cs0|e0] ghc1]|] eqn:Hload.
      + rewrite (Commits_loaded _ _ _ _ Hcs Hload) in H.
        apply loadCommitsLoop_same_repository in Hload as (evs & -> & Hevs); [|done].
        exists evs. split; [|done].
        destruct (MaxPullRequestCommits <=? List.length cs0)%nat.
        * injection H as <- <-. apply logAll_trace.
        * destruct (backfillPushedAt cs0 (HeadRefOID (pr ghc))); [|done].
          injection H as <- <-. apply logAll_trace.
      + rewrite (Commits_load_err _ _ _ _ Hcs Hload) in H. injection H as <- <-.
        apply loadCommitsLoop_same_repository in Hload as (evs & -> & Hevs); [|done].
        exists evs. split; [apply logAll_trace | done].
      + by rewrite (Commits_diverges _ _ Hcs Hload) in H. }
  exists evs. split; [done|]. split; [done|].
  eapply Forall_impl; [exact Hevs|].
  intros ev [[c ->]|[d ->]] [c' [=]].
Qed.

Lemma Commits_same_repository_late :
  ∃ evs,
    [EvQueryCommits None; EvSleep (1 * Second); EvQueryCommits None; EvSleep (2 * Second);
     EvQueryCommits None; EvSleep (4 * Second); EvQueryCommits None] = [] ++ evs ∧
    Forall isFetchOrSleep evs ∧ Forall (fun ev => ¬ isQueryHistory ev) evs.
Proof.
  refine (Commits_same_repository 5 (newContext noClient (lateCommits 3) false)
            (Ok [commit "base" [] (Some 10); commit "head" ["base"] (Some 20)])
            (withCommits (Some [commit "base" [] (Some 10); commit "head" ["base"] (Some 20)])
               (logAll [EvQueryCommits None; EvSleep (1 * Second);
                        EvQueryCommits None; EvSleep (2 * Second);
                        EvQueryCommits None; EvSleep (4 * Second);
                        EvQueryCommits None]
                  (newContext noClient (lateCommits 3) false))) _ _).
  - reflexivity.
  - by vm_compute.
Defined.

(** ** Comments and reviews are loaded together *)

Lemma loadPagedData_ok fuel ghc ghc' :
  loadPagedData fuel ghc = Some (Ok tt, ghc') →
  ∃ cs rs, comments ghc' = Some cs ∧ reviews ghc' = Some rs.
Proof.
  intros H. apply loadPagedData_inv in H as [(e & [=] & _)|(cs & rs & ghc1 & _ & -> & _)].
  by exists cs, rs.
Qed.

(** X12. One load serves both accessors. After a call of [Comments] that
    loaded them and succeeded, the reviews are cached too, and [Reviews]
    and [Comments] return the cached lists without a query; likewise after
    a call of [Reviews] that loaded them. *)
Theorem Comments_and_Reviews_share_a_load (fuel : nat) (ghc : GitHubContext) :
  (∀ cs ghc',
     comments ghc = None → Comments fuel ghc = Some (Ok cs, ghc') →
     ∃ rs, comments ghc' = Some cs ∧ reviews ghc' = Some rs ∧
           ∀ fuel', Reviews fuel' ghc' = Some (Ok rs, ghc') ∧
                    Comments fuel' ghc' = Some (Ok cs, ghc')) ∧
  (∀ rs ghc',
     reviews ghc = None → Reviews fuel ghc = Some (Ok rs, ghc') →
     ∃ cs, comments ghc' = Some cs ∧ reviews ghc' = Some rs ∧
           ∀ fuel', Comments fuel' ghc' = Some (Ok cs, ghc') ∧
                    Reviews fuel' ghc' = Some (Ok rs, ghc')).
Proof.
  split.
  - intros cs ghc' Hnone H. unfold Comments, mbind, M_bind, get in H. rewrite Hnone in H.
    destruct (loadPagedData fuel ghc) as [[[[]|e0] ghc1]|] eqn:Hload; try done.
    injection H as <- <-. apply loadPagedData_ok in Hload as (cs & rs & Hcs & Hrs).
    exists rs. rewrite Hcs. split; [done|]. split; [done|]. intros fuel'.
    split; [by apply Reviews_cached | by apply Comments_cached].
  - intros rs ghc' Hnone H. unfold Reviews, mbind, M_bind, get in H. rewrite Hnone in H.
    destruct (loadPagedData fuel ghc) as [[[[]|e0] ghc1]|] eqn:Hload; try done.
    injection H as <- <-. apply loadPagedData_ok in Hload as (cs & rs & Hcs & Hrs).
    exists cs. rewrite Hrs. split; [done|]. split; [done|]. intros fuel'.
    split; [by apply Comments_cached | by apply Reviews_cached].
Qed.

(** ** Pagination of the commit list *)

Lemma loadRawCommitsLoop_step fuel cursor acc ghc info nodes :
  QueryCommits (v4client ghc) (trace ghc) cursor = inr (info, nodes) →
  loadRawCommitsLoop (S fuel) cursor acc ghc
  = if (UpdateCursor info cursor).2
    then loadRawCommitsLoop fuel (UpdateCursor info cursor).1 (acc ++ nodes)
           (logged (EvQueryCommits cursor) ghc)
    else Some (Ok (acc ++ nodes), logged (EvQueryCommits cursor) ghc).
Proof.
  intros Hq. simpl. unfold mbind, M_bind, query. rewrite Hq.
  by destruct (UpdateCursor info cursor) as [cursor' []].
Qed.

Lemma roundTrips_one_list n : roundTrips n 0 = Nat.max 1 (ceilDiv n 100).
Proof.
  unfold roundTrips. assert (ceilDiv 0 100 = 0%nat) as -> by reflexivity.
  by rewrite Nat.max_0_r.
Qed.

Lemma loadRawCommitsLoop_serves all fuel : ∀ ghc cursor acc,
  servesCommits ghc all →
  (roundTrips (List.length all - offsetOf cursor) 0 ≤ fuel)%nat →
  ∃ queries,
    loadRawCommitsLoop fuel cursor acc ghc
    = Some (Ok (acc ++ drop (offsetOf cursor) all), logAll queries ghc) ∧
    List.length queries = roundTrips (List.length all - offsetOf cursor) 0 ∧
    Forall isQueryCommits queries.
Proof.
  induction fuel as [|fuel IH]; intros ghc cursor acc Hserve Hfuel.
  { unfold roundTrips in Hfuel. lia. }
  pose proof (Hserve (trace ghc) cursor) as Hq.
  destruct (servePage 100 all cursor) as [info nodes] eqn:Hpage.
  rewrite (loadRawCommitsLoop_step _ _ _ _ _ _ Hq).
  pose proof (servePage_nodes 100 all cursor) as HN.
  pose proof (servePage_cursor 100 all cursor) as HC.
  pose proof (servePage_more 100 all cursor ltac:(lia)) as HM.
  rewrite Hpage in HN, HC, HM. cbn [fst snd] in HN, HC, HM.
  rewrite HM. rewrite <- HN in HC.
  assert (List.length nodes = Nat.min 100 (List.length all - offsetOf cursor)) as HL
    by (by rewrite HN, length_take, length_drop).
  assert (drop (offsetOf cursor) all
          = nodes ++ drop (offsetOf cursor + List.length nodes) all) as HS.
  { rewrite <- drop_drop, HN. symmetry. apply take_drop_length. }
  case_bool_decide as Hmore.
  - pose proof (roundTrips_step (List.length all - offsetOf cursor) 0 (or_introl Hmore))
      as Hstep.
    change (0 - Nat.min 100 0)%nat with 0%nat in Hstep. rewrite Hstep in Hfuel |- *.
    destruct (IH (logged (EvQueryCommits cursor) ghc) (UpdateCursor info cursor).1
                (acc ++ nodes)) as (queries & Hrun & Hlen & Hall).
    { intros t c. apply Hserve. }
    { rewrite HC, HL, Nat.sub_add_distr. lia. }
    exists (EvQueryCommits cursor :: queries). rewrite Hrun, HC.
    split; [|split; [|constructor; [by eexists | done]]].
    + by rewrite HS, app_assoc.
    + simpl. by rewrite Hlen, HC, HL, Nat.sub_add_distr.
  - exists [EvQueryCommits cursor]. rewrite roundTrips_last by lia.
    split; [|split; [done | constructor; [by eexists | done]]].
    rewrite HS. rewrite (drop_ge all) by lia. by rewrite app_nil_r.
Qed.

(** X13. Against a platform that answers the commits of the pull request
    100 a page, a fetch of the raw commits returns all of them in the
    platform's order after exactly max(1, ceil(n/100)) queries, all of them
    commit queries. *)
Theorem loadRawCommits_paginates (fuel : nat) (ghc : GitHubContext)
    (all : list v4PullRequestCommit) :
  servesCommits ghc all →
  (Nat.max 1 (ceilDiv (List.length all) 100) ≤ fuel)%nat →
  ∃ queries,
    loadRawCommits fuel ghc = Some (Ok all, logAll queries ghc) ∧
    List.length queries = Nat.max 1 (ceilDiv (List.length all) 100) ∧
    Forall isQueryCommits queries.
Proof.
  intros Hserve Hfuel. rewrite <- roundTrips_one_list in *.
  destruct (loadRawCommitsLoop_serves all fuel ghc None [] Hserve)
    as (queries & Hrun & Hlen & Hall).
  { simpl. by rewrite Nat.sub_0_r. }
  simpl in Hrun, Hlen. rewrite Nat.sub_0_r in Hlen. by exists queries.
Qed.

Lemma loadRawCommits_paginates_250 :
  ∃ queries,
    loadRawCommits 5 (newContext noClient (commitsServer (commitList 250)) false)
    = Some (Ok (commitList 250),
            logAll queries (newContext noClient (commitsServer (commitList 250)) false)) ∧
    List.length queries = 3%nat ∧ Forall isQueryCommits queries.
Proof.
  refine (loadRawCommits_paginates 5
            (newContext noClient (commitsServer (commitList 250)) false)
            (commitList 250) _ _).
  - intros t cursor. reflexivity.
  - vm_compute. lia.
Defined.

(** ** Pagination of the changed files *)

Lemma ceilDiv_le_one x d : (0 < d → x ≤ d → ceilDiv x d ≤ 1)%nat.
Proof.
  unfold ceilDiv. intros Hd Hx.
  assert (x + d - 1 < d * 2)%nat as Hlt by lia.
  apply Nat.Div0.div_lt_upper_bound in Hlt. lia.
Qed.

Lemma ceilDiv_succ x d : (0 < d → d < x → ceilDiv x d = S (ceilDiv (x - d) d))%nat.
Proof.
  unfold ceilDiv. intros Hd Hx.
  replace (x + d - 1)%nat with ((x - d + d - 1) + 1 * d)%nat by lia.
  rewrite Nat.div_add by lia. lia.
Qed.

Lemma ceilDiv_ge_one x d : (0 < d → 0 < x → 1 ≤ ceilDiv x d)%nat.
Proof. unfold ceilDiv. intros Hd Hx. apply Nat.div_le_lower_bound; lia. Qed.

Lemma listAllFiles_step fuel page acc ghc fs next :
  ListFiles (client ghc) (trace ghc) page = inr (fs, next) →
  listAllFiles (S fuel) page acc ghc
  = if next =? 0 then Some (Ok (acc ++ fs), logged (EvListFiles page) ghc)
    else listAllFiles fuel next (acc ++ fs) (logged (EvListFiles page) ghc).
Proof.
  intros Hq. simpl. unfold mbind, M_bind, query. rewrite Hq.
  by destruct (next =? 0).
Qed.

Lemma listAllFiles_serves perPage all fuel : ∀ ghc page acc,
  servesFiles ghc perPage all → (0 < perPage)%nat →
  (Nat.max 1 (ceilDiv (List.length all - perPage * (Z.to_nat (Z.max page 1) - 1)) perPage)
   ≤ fuel)%nat →
  ∃ queries,
    listAllFiles fuel page acc ghc
    = Some (Ok (acc ++ drop (perPage * (Z.to_nat (Z.max page 1) - 1)) all),
            logAll queries ghc) ∧
    List.length queries
    = Nat.max 1 (ceilDiv (List.length all - perPage * (Z.to_nat (Z.max page 1) - 1)) perPage) ∧
    Forall isListFiles queries.
Proof.
  induction fuel as [|fuel IH]; intros ghc page acc Hserve Hper Hfuel; [lia|].
  pose proof (Hserve (trace ghc) page) as Hq. unfold serveFiles in Hq.
  rewrite (listAllFiles_step _ _ _ _ _ _ Hq).
  set (p := Z.to_nat (Z.max page 1)) in *.
  assert (1 ≤ p)%nat as Hp by (subst p; lia).
  set (o := (perPage * (p - 1))%nat) in *.
  assert (perPage * p = o + perPage)%nat as Ho by (subst o; nia).
  destruct (Nat.ltb_spec (perPage * p) (List.length all)) as [Hmore|Hlast].
  - assert ((Z.of_nat (S p) =? 0) = false) as -> by (apply Z.eqb_neq; lia).
    assert (Z.to_nat (Z.max (Z.of_nat (S p)) 1) = S p) as Hnext by lia.
    assert (perPage < List.length all - o)%nat as Hlt by lia.
    rewrite (ceilDiv_succ _ _ Hper Hlt) in Hfuel |- *.
    pose proof (ceilDiv_ge_one (List.length all - o - perPage) perPage Hper ltac:(lia)) as H1.
    destruct (IH (logged (EvListFiles page) ghc) (Z.of_nat (S p))
                (acc ++ take perPage (drop o all))) as (queries & Hrun & Hlen & Hall).
    { intros t pg. apply Hserve. }
    { done. }
    { rewrite Hnext. replace (perPage * (S p - 1))%nat with (o + perPage)%nat by lia.
      rewrite Nat.sub_add_distr. lia. }
    rewrite Hnext in Hrun, Hlen.
    replace (perPage * (S p - 1))%nat with (o + perPage)%nat in Hrun, Hlen by lia.
    rewrite Nat.sub_add_distr in Hlen.
    exists (EvListFiles page :: queries). rewrite Hrun.
    split; [|split; [|constructor; [by eexists | done]]].
    + by rewrite <- app_assoc, <- drop_drop, take_drop.
    + simpl. rewrite Hlen. lia.
  - change (0 =? 0) with true. cbn iota.
    exists [EvListFiles page].
    pose proof (ceilDiv_le_one (List.length all - o) perPage Hper ltac:(lia)) as H1.
    split; [|split; [simpl; lia | constructor; [by eexists | done]]].
    rewrite take_ge; [done|]. rewrite length_drop. lia.
Qed.

(** X14. Against a platform that lists the changed files [perPage] a page,
    a first call of [ChangedFiles] makes exactly max(1, ceil(n/perPage))
    list requests and nothing else, caches the n files in the platform's
    order, and returns them, or the too-many-files error when n is 300 or
    more. *)
Theorem ChangedFiles_paginates (fuel : nat) (ghc : GitHubContext) (perPage : nat)
    (all : list CommitFile) :
  servesFiles ghc perPage all → (0 < perPage)%nat → files ghc = None →
  (Nat.max 1 (ceilDiv (List.length all) perPage) ≤ fuel)%nat →
  ∃ queries,
    ChangedFiles fuel ghc
    = Some (if (MaxPullRequestFiles <=? List.length all)%nat then Err TooManyFiles
            else Ok (toFile <$> all),
            withFiles (appendAll None (toFile <$> all)) (logAll queries ghc)) ∧
    List.length queries = Nat.max 1 (ceilDiv (List.length all) perPage) ∧
    Forall isListFiles queries.
Proof.
  intros Hserve Hper Hnone Hfuel.
  destruct (listAllFiles_serves perPage all fuel ghc 0 [] Hserve Hper)
    as (queries & Hrun & Hlen & Hall).
  { change (Z.to_nat (Z.max 0 1) - 1)%nat with 0%nat.
    by rewrite Nat.mul_0_r, Nat.sub_0_r. }
  change (Z.to_nat (Z.max 0 1) - 1)%nat with 0%nat in Hrun, Hlen.
  rewrite Nat.mul_0_r in Hrun, Hlen. rewrite Nat.sub_0_r in Hlen. simpl in Hrun.
  exists queries. split; [|done]. by apply ChangedFiles_listed.
Qed.

Lemma ChangedFiles_paginates_250 :
  ∃ queries,
    ChangedFiles 5 (newContext (filesClient 250) noV4Client false)
    = Some (if (MaxPullRequestFiles <=? List.length (replicate 250 exampleFile))%nat
            then Err TooManyFiles else Ok (toFile <$> replicate 250 exampleFile),
            withFiles (appendAll None (toFile <$> replicate 250 exampleFile))
              (logAll queries (newContext (filesClient 250) noV4Client false))) ∧
    List.length queries
    = Nat.max 1 (ceilDiv (List.length (replicate 250 exampleFile)) 100) ∧
    Forall isListFiles queries.
Proof.
  refine (ChangedFiles_paginates 5 (newContext (filesClient 250) noV4Client false) 100
            (replicate 250 exampleFile) _ _ _ _).
  - intros t page. reflexivity.
  - lia.
  - reflexivity.
  - vm_compute. lia.
Defined.

(** ** A failed request ends the call *)

Lemma answered_app c v4 t evs1 evs2 :
  answered c v4 t evs1 → answered c v4 (t ++ evs1) evs2 → answered c v4 t (evs1 ++ evs2).
Proof.
  revert t. induction evs1 as [|ev evs1 IH]; intros t H1 H2; simpl in *.
  - by rewrite app_nil_r in H2.
  - destruct H1 as [Hev H1]. split; [done|]. apply IH; [done|].
    by rewrite <- app_assoc.
Qed.

Lemma stopsAtFailure_quiet {A : Type} (m : M A) :
  (∀ ghc r ghc', m ghc = Some (r, ghc') →
     client ghc' = client ghc ∧ v4client ghc' = v4client ghc ∧ trace ghc' = trace ghc ∧
     ∀ cause message, r ≠ Err (Wrap cause message)) →
  stopsAtFailure m.
Proof.
  intros Hm ghc r ghc' H. destruct (Hm _ _ _ H) as (Hc & Hv & Ht & Hr).
  split; [done|]. split; [done|]. exists []. rewrite app_nil_r. split; [done|].
  destruct r as [a|[]]; try done. by destruct (Hr cause message).
Qed.

Lemma stopsAtFailure_ret {A : Type} (a : A) : stopsAtFailure (mret a).
Proof. apply stopsAtFailure_quiet. by intros ghc r ghc' [= <- <-]. Qed.

Lemma stopsAtFailure_get : stopsAtFailure get.
Proof. apply stopsAtFailure_quiet. by intros ghc r ghc' [= <- <-]. Qed.

Lemma stopsAtFailure_outOfFuel {A : Type} : stopsAtFailure (@outOfFuel A).
Proof. by intros ghc r ghc' [=]. Qed.

Lemma stopsAtFailure_throw {A : Type} e :
  (∀ cause message, e ≠ Wrap cause message) → stopsAtFailure (@throw A e).
Proof.
  intros He. apply stopsAtFailure_quiet. intros ghc r ghc' [= <- <-].
  repeat split. intros cause message [= ->]. by eapply He.
Qed.

Lemma stopsAtFailure_modify f :
  (∀ ghc, client (f ghc) = client ghc ∧ v4client (f ghc) = v4client ghc ∧
          trace (f ghc) = trace ghc) →
  stopsAtFailure (modify f).
Proof.
  intros Hf. apply stopsAtFailure_quiet. intros ghc r ghc' [= <- <-].
  destruct (Hf ghc) as (? & ? & ?). by repeat split.
Qed.

Lemma stopsAtFailure_Sleep d : stopsAtFailure (Sleep d).
Proof.
  intros ghc r ghc' [= <- <-]. split; [done|]. split; [done|].
  by exists [EvSleep d].
Qed.

Lemma stopsAtFailure_query {A : Type} ev message (ask : GitHubContext → string + A) :
  (∀ ghc, failure (client ghc) (v4client ghc) (trace ghc) ev
          = match ask ghc with inl cause => Some cause | inr _ => None end) →
  stopsAtFailure (query ev message ask).
Proof.
  intros Hask ghc r ghc' H. specialize (Hask ghc).
  apply query_inv in H as [-> [(a & Ha & ->)|(cause & Ha & ->)]]; rewrite Ha in Hask;
    (split; [done|]); (split; [done|]); exists [ev]; (split; [done|]).
  - by split.
  - exists [], ev. by rewrite app_nil_r.
Qed.

Lemma stopsAtFailure_bind {A B : Type} (m : M A) (f : A → M B) :
  stopsAtFailure m → (∀ a, stopsAtFailure (f a)) → stopsAtFailure (m ≫= f).
Proof.
  intros Hm Hf ghc r ghc' H.
  apply bind_inv in H as [(a & ghc1 & H1 & H2)|(e & H1 & ->)]; [|exact (Hm _ _ _ H1)].
  destruct (Hm _ _ _ H1) as (Hc1 & Hv1 & evs1 & Ht1 & Hok1).
  destruct (Hf _ _ _ _ H2) as (Hc2 & Hv2 & evs2 & Ht2 & Hr).
  rewrite Hc1, Hv1, Ht1 in Hr.
  split; [congruence|]. split; [congruence|].
  exists (evs1 ++ evs2). split; [by rewrite Ht2, Ht1, <- app_assoc|].
  destruct r as [b|[]]; try by apply answered_app.
  destruct Hr as (evs0 & ev & -> & Hok & Hfail).
  exists (evs1 ++ evs0), ev. split; [by rewrite <- app_assoc|].
  split; [by apply answered_app|]. by rewrite app_assoc.
Qed.

Lemma listAllFiles_stops fuel page allFiles :
  stopsAtFailure (listAllFiles fuel page allFiles).
Proof.
  revert page allFiles. induction fuel as [|fuel IH]; intros page allFiles; simpl.
  - apply stopsAtFailure_outOfFuel.
  - apply stopsAtFailure_bind; [by apply stopsAtFailure_query|].
    intros [fs next]. destruct (next =? 0); [apply stopsAtFailure_ret | apply IH].
Qed.

Lemma loadPagedDataLoop_stops fuel cc rc cs rs :
  stopsAtFailure (loadPagedDataLoop fuel cc rc cs rs).
Proof.
  revert cc rc cs rs. induction fuel as [|fuel IH]; intros cc rc cs rs; simpl.
  - apply stopsAtFailure_outOfFuel.
  - apply stopsAtFailure_bind; [by apply stopsAtFailure_query|].
    intros [[cInfo cNodes] [rInfo rNodes]].
    destruct (UpdateCursor cInfo cc) as [cc' moreC], (UpdateCursor rInfo rc) as [rc' moreR].
    match goal with |- context [if ?b then _ else _] => destruct b end;
      [apply stopsAtFailure_ret | apply IH].
Qed.

Lemma loadRawCommitsLoop_stops fuel cursor acc :
  stopsAtFailure (loadRawCommitsLoop fuel cursor acc).
Proof.
  revert cursor acc. induction fuel as [|fuel IH]; intros cursor acc; simpl.
  - apply stopsAtFailure_outOfFuel.
  - apply stopsAtFailure_bind; [by apply stopsAtFailure_query|].
    intros [info nodes]. destruct (UpdateCursor info cursor) as [cursor' more].
    destruct more; simpl; [apply IH | apply stopsAtFailure_ret].
Qed.

Lemma loadPushedAtLoop_stops fuel cursor idx cs :
  stopsAtFailure (loadPushedAtLoop fuel cursor idx cs).
Proof.
  revert cursor idx cs. induction fuel as [|fuel IH]; intros cursor idx cs; simpl.
  - destruct (0 <? size idx)%nat; [apply stopsAtFailure_outOfFuel | apply stopsAtFailure_ret].
  - destruct (0 <? size idx)%nat; [|apply stopsAtFailure_ret].
    apply stopsAtFailure_bind; [by apply stopsAtFailure_query|].
    intros [info nodes]. destruct (matchNodes nodes (idx, cs)) as [idx' cs'].
    destruct (UpdateCursor info cursor) as [cursor' more].
    destruct more; simpl; [apply IH | apply stopsAtFailure_ret].
Qed.

Lemma loadCommitsAttempt_stops fuel : stopsAtFailure (loadCommitsAttempt fuel).
Proof.
  apply stopsAtFailure_bind; [apply loadRawCommitsLoop_stops|].
  intros raw. apply stopsAtFailure_bind; [apply stopsAtFailure_get|]. intros ghc. cbv zeta.
  destruct (findHead _ _) as [h|]; [|by apply stopsAtFailure_throw].
  apply stopsAtFailure_bind; [|intros; apply stopsAtFailure_ret].
  match goal with |- context [if ?b then _ else _] => destruct b end;
    [|apply stopsAtFailure_ret].
  apply stopsAtFailure_bind; [apply loadPushedAtLoop_stops|].
  intros [idx cs']. destruct (0 <? size idx)%nat;
    [by apply stopsAtFailure_throw | apply stopsAtFailure_ret].
Qed.

Lemma loadCommitsLoop_stops rounds fuel attempts :
  stopsAtFailure (loadCommitsLoop rounds fuel attempts).
Proof.
  revert attempts. induction rounds as [|rounds IH]; intros attempts; simpl.
  - apply stopsAtFailure_outOfFuel.
  - apply stopsAtFailure_bind; [apply loadCommitsAttempt_stops|].
    intros [cs h]. destruct (headPushedAt cs h); [apply stopsAtFailure_ret|].
    destruct (commitLoadMaxAttempts <=? attempts + 1).
    + apply stopsAtFailure_bind; [apply stopsAtFailure_get|].
      intros; by apply stopsAtFailure_throw.
    + apply stopsAtFailure_bind; [apply stopsAtFailure_Sleep | intros; apply IH].
Qed.

Lemma loadPagedData_stops fuel : stopsAtFailure (loadPagedData fuel).
Proof.
  apply stopsAtFailure_bind; [apply loadPagedDataLoop_stops|].
  intros [cs rs]. by apply stopsAtFailure_modify.
Qed.

(** X15. A platform error ends the call at once. When [ChangedFiles],
    [Commits], [Comments] or [Reviews] returns a wrapped error, its cause
    is the platform's answer to the last request the call made, and every
    request before it was answered; a call that returns anything else made
    only requests that were answered. No failed request is made again or
    passed over, also not by the retries of [Commits]. *)
Theorem accessors_stop_at_first_failure (fuel : nat) :
  stopsAtFailure (ChangedFiles fuel) ∧ stopsAtFailure (Commits fuel) ∧
  stopsAtFailure (Comments fuel) ∧ stopsAtFailure (Reviews fuel).
Proof.
  split; [|split; [|split]].
  - apply stopsAtFailure_bind; [apply stopsAtFailure_get|]. intros ghc.
    apply stopsAtFailure_bind.
    { destruct (files ghc); [apply stopsAtFailure_ret|].
      apply stopsAtFailure_bind; [apply listAllFiles_stops|].
      intros fs. by apply stopsAtFailure_modify. }
    intros _. apply stopsAtFailure_bind; [apply stopsAtFailure_get|]. intros ghc1.
    destruct (_ <=? _)%nat; [by apply stopsAtFailure_throw | apply stopsAtFailure_ret].
  - apply stopsAtFailure_bind; [apply stopsAtFailure_get|]. intros ghc.
    apply stopsAtFailure_bind.
    { destruct (commits ghc); [apply stopsAtFailure_ret|].
      apply stopsAtFailure_bind; [apply loadCommitsLoop_stops|].
      intros cs. destruct (_ <=? _)%nat; [by apply stopsAtFailure_throw|].
      destruct (backfillPushedAt _ _); [|apply stopsAtFailure_outOfFuel].
      by apply stopsAtFailure_modify. }
    intros _. apply stopsAtFailure_bind; [apply stopsAtFailure_get|]. intros ghc1.
    apply stopsAtFailure_ret.
  - apply stopsAtFailure_bind; [apply stopsAtFailure_get|]. intros ghc.
    apply stopsAtFailure_bind.
    { destruct (comments ghc); [apply stopsAtFailure_ret | apply loadPagedData_stops]. }
    intros _. apply stopsAtFailure_bind; [apply stopsAtFailure_get|]. intros ghc1.
    apply stopsAtFailure_ret.
  - apply stopsAtFailure_bind; [apply stopsAtFailure_get|]. intros ghc.
    apply stopsAtFailure_bind.
    { destruct (reviews ghc); [apply stopsAtFailure_ret | apply loadPagedData_stops]. }
    intros _. apply stopsAtFailure_bind; [apply stopsAtFailure_get|]. intros ghc1.
    apply stopsAtFailure_ret.
Qed.
